(** * Soniq: session coordinator and canvas visualizers

    A shallow embedding of [src/core/soniq.ts] (class [Soniq]) and of the
    visualizer classes ([BaseVisualizer], [BarVisualizer], [WaveVisualizer],
    [SpectrumVisualizer], [ParticleVisualizer]).

    Conventions.
    - JavaScript objects that are shared and mutated (visualizers, analyser
      nodes, canvases) live in heaps indexed by references ([nat]); the one
      [Soniq] instance is a field of the world.
    - Browser calls are recorded, in order, in the world's [log].
    - A JavaScript [number] that only ever holds an integer is a [Z]; the
      others are rationals [Q], and sums, products and quotients are exact.
      In three places the rounding of the IEEE double decides which integer
      the code goes on with, and there the operations are rounded by
      [double]: the assignments to [canvas.width] and [canvas.height] in
      [setupHighDPICanvas], and [totalBars] and [dataIndex] in
      [drawSpectrum]. The rounding of [Float32Array] stores is not part of
      the model, and neither are [NaN] and the infinities.
    - What the browser decides (whether a call throws, what the microphone
      delivers, [Math.random]) is a parameter: a field of [Platform] or an
      explicit argument of the method. *)

From Stdlib Require Import ZArith QArith Qround Qpower Qabs Lqa Lia.
From stdpp Require Import base option list gmap strings.

Local Open Scope Z_scope.

(** ** The platform *)

Definition Error := string.

Record Platform := mkPlatform {
  (** does the setter of [AnalyserNode.fftSize] accept this value? *)
  fftSize_ok : Z → bool;
  (** [window.devicePixelRatio] *)
  devicePixelRatio : Q;
  Math_cos : Q → Q;
  Math_sin : Q → Q;
  Math_PI : Q;
  (** the result of the n-th call of [Math.random()] *)
  Math_random : nat → Q;
  (** the magnitudes seen by the n-th call of [getByteFrequencyData] *)
  byteFrequencyData : nat → list Z
}.

(** [Math.floor], and the quotient by a power of two used by
    [frequencyBinCount], which is half of [fftSize]. *)
Definition Math_floor (q : Q) : Z := Qfloor q.

Definition Qtruncate (q : Q) : Z :=
  if Qle_bool 0 q then Qfloor q else Qceiling q.

(** *** IEEE doubles

    The double nearest to a rational, a tie going to the even significand:
    [prec] bits of significand, [emin] the exponent of the smallest
    positive number. The overflow to an infinity is left out. *)

(** [floor (log2 q)], for [q] positive. *)
Definition Qlog2 (q : Q) : Z :=
  let k := Z.log2 (Qnum q) - Z.log2 (Zpos (Qden q)) in
  if Qle_bool (2 ^ k) q then k else k - 1.

Definition round_half_even (q : Q) : Z :=
  let f := Qfloor q in
  match (q - inject_Z f ?= 1 # 2)%Q with
  | Lt => f
  | Gt => f + 1
  | Eq => if Z.even f then f else f + 1
  end.

Definition round_to (prec emin : Z) (q : Q) : Q :=
  if Qeq_bool q 0 then 0%Q
  else
    let e := Z.max (Qlog2 (Qabs q) - (prec - 1)) emin in
    let m := round_half_even (Qabs q / 2 ^ e) in
    Qred ((if Qle_bool 0 q then inject_Z m else - inject_Z m) * 2 ^ e)%Q.

Definition double : Q → Q := round_to 53 (-1074).

Arguments double : simpl never.

(** An assignment to an attribute of type [unsigned long] that reflects a
    content attribute, as [canvas.width] and [canvas.height] do: the number
    is truncated and taken modulo 2^32, and a result above 2^31 - 1 gives
    the default value of the attribute. *)
Definition unsigned_long (default : Z) (q : Q) : Q :=
  let n := Qtruncate q mod 2 ^ 32 in
  inject_Z (if n <=? 2147483647 then n else default).

Arguments unsigned_long : simpl never.

(** The [%] operator on numbers: the remainder has the sign of the
    dividend. *)
Definition js_rem (q m : Q) : Q := (q - m * inject_Z (Qtruncate (q / m)))%Q.

(** [a || b] on numbers: [0] is falsy. *)
Definition Q_or (a : option Q) (b : Q) : Q :=
  match a with
  | Some q => if Qeq_bool q 0 then b else q
  | None => b
  end.

Definition Z_or (a : option Z) (b : Z) : Z :=
  match a with
  | Some z => if z =? 0 then b else z
  | None => b
  end.

Definition string_or (a : option string) (b : string) : string :=
  match a with
  | Some s => if String.eqb s "" then b else s
  | None => b
  end.

(** [AnalyserNode.getByteFrequencyData(array)]: the first
    [min (length array) (length bins)] cells are overwritten, the others are
    left alone. *)
Fixpoint getByteFrequencyData (bins array : list Z) {struct array} : list Z :=
  match array, bins with
  | [], _ => []
  | a :: array', [] => a :: array'
  | _ :: array', b :: bins' => b :: getByteFrequencyData bins' array'
  end.

(** ** Objects *)

Inductive ColorMode := rainbow | gradient | single.

Inductive Color :=
| Hsla (hue saturation lightness alpha : Q)
| Rgba (r g b : Z) (alpha : Q)
| DefaultColorAlpha (base : string) (alpha : Q).

Record Particle := mkParticle {
  x : Q;
  y : Q;
  size : Q;
  color : Color;
  speed : Q;
  angle : Q;
  life : Z;
  maxLife : Q
}.

Record Canvas := mkCanvas {
  (** [getBoundingClientRect()] *)
  rect_width : Q;
  rect_height : Q;
  width : Q;
  height : Q;
  (** does [getContext("2d")] give a context? *)
  context2d : bool
}.

Record BarFields := mkBar {
  xPosition : Q;
  frameSkipTracker : Z;
  bar_barWidth : Q
}.

Record SpectrumFields := mkSpectrum {
  barWidth : Q;
  barSpacing : Q;
  colorMode : ColorMode;
  gradientStart : string;
  gradientEnd : string;
  smoothedArray : list Q
}.

Record ParticleFields := mkParticles {
  particles : list Particle;
  particleCount : Q;
  particleMaxSize : Q;
  particleMinSize : Q;
  particleLifespan : Q;
  particleBaseSpeed : Q;
  particle_colorMode : ColorMode;
  hue : Q;
  bassValue : Q;
  midValue : Q;
  trebleValue : Q
}.

(** The subclass of a visualizer, with the fields the subclass adds. *)
Inductive Strategy :=
| Bar (f : BarFields)
| Wave
| Spectrum (f : SpectrumFields)
| Particles (f : ParticleFields).

(** The fields of [BaseVisualizer]. *)
Module Vis.

Record t := mk {
  analyser : option nat;
  animationFrameId : option Z;
  dataArray : list Z;
  defaultColor : string;
  fftSize : Z;
  dpr : Q;
  strategy : Strategy
}.

Definition set_analyser (a : option nat) (o : t) : t :=
  mk a (animationFrameId o) (dataArray o) (defaultColor o) (fftSize o) (dpr o) (strategy o).

Definition set_animationFrameId (h : option Z) (o : t) : t :=
  mk (analyser o) h (dataArray o) (defaultColor o) (fftSize o) (dpr o) (strategy o).

Definition set_dataArray (d : list Z) (o : t) : t :=
  mk (analyser o) (animationFrameId o) d (defaultColor o) (fftSize o) (dpr o) (strategy o).

Definition set_dpr (d : Q) (o : t) : t :=
  mk (analyser o) (animationFrameId o) (dataArray o) (defaultColor o) (fftSize o) d (strategy o).

Definition set_strategy (s : Strategy) (o : t) : t :=
  mk (analyser o) (animationFrameId o) (dataArray o) (defaultColor o) (fftSize o) (dpr o) s.

End Vis.

Definition BlobPart := string.

(** The fields of [Soniq]; [options.onRecorded] and
    [options.onPermissionsFailed] are the two callback events of the log. *)
Module Session.

Record t := mk {
  recorder : option nat;
  context : option nat;
  analyser : option nat;
  chunks : list BlobPart;
  isRecording : bool;
  stream : option (list nat);
  fftSize : Z;
  defaultColor : string;
  visualizer : nat
}.

Definition set_recorder (r : option nat) (s : t) : t :=
  mk r (context s) (analyser s) (chunks s) (isRecording s) (stream s)
     (fftSize s) (defaultColor s) (visualizer s).

Definition set_context (c : option nat) (s : t) : t :=
  mk (recorder s) c (analyser s) (chunks s) (isRecording s) (stream s)
     (fftSize s) (defaultColor s) (visualizer s).

Definition set_analyser (a : option nat) (s : t) : t :=
  mk (recorder s) (context s) a (chunks s) (isRecording s) (stream s)
     (fftSize s) (defaultColor s) (visualizer s).

Definition set_chunks (c : list BlobPart) (s : t) : t :=
  mk (recorder s) (context s) (analyser s) c (isRecording s) (stream s)
     (fftSize s) (defaultColor s) (visualizer s).

Definition set_isRecording (b : bool) (s : t) : t :=
  mk (recorder s) (context s) (analyser s) (chunks s) b (stream s)
     (fftSize s) (defaultColor s) (visualizer s).

Definition set_stream (m : option (list nat)) (s : t) : t :=
  mk (recorder s) (context s) (analyser s) (chunks s) (isRecording s) m
     (fftSize s) (defaultColor s) (visualizer s).

Definition set_visualizer (v : nat) (s : t) : t :=
  mk (recorder s) (context s) (analyser s) (chunks s) (isRecording s) (stream s)
     (fftSize s) (defaultColor s) v.

End Session.

(** ** The world *)

Inductive DrawOp :=
| DefaultBars | BarFrame | WaveFrame | SpectrumFrame | ParticleFrame | Background.

Inductive Event :=
| EvRequestAnimationFrame (handle : Z) (visualizer canvas : nat)
| EvCancelAnimationFrame (handle : Z)
| EvDraw (visualizer canvas : nat) (op : DrawOp)
| EvTrackStop (track : nat)
| EvContextClose (context : nat)
| EvRecorderStart (recorder : nat)
| EvRecorderStop (recorder : nat)
| EvOnRecorded (parts : list BlobPart) (type : string)
| EvOnPermissionsFailed (error : Error)
| EvConsoleError (message : string) (error : Error).

(** A scheduled animation-frame callback: the arrow function closes over the
    visualizer ([this]) and the canvas. *)
Record Callback := mkCallback { cb_visualizer : nat; cb_canvas : nat }.

Record World := mkWorld {
  visualizers : gmap nat Vis.t;
  (** [fftSize] of each analyser node *)
  analysers : gmap nat Z;
  canvases : gmap nat Canvas;
  (** the browser's list of animation frame callbacks *)
  pending : list (Z * Callback);
  next_handle : Z;
  (** how many times [Math.random] and [getByteFrequencyData] were called *)
  randoms : nat;
  reads : nat;
  log : list Event;
  soniq : Session.t
}.

Definition set_visualizers (m : gmap nat Vis.t) (w : World) : World :=
  mkWorld m (analysers w) (canvases w) (pending w) (next_handle w) (randoms w)
          (reads w) (log w) (soniq w).

Definition set_analysers (m : gmap nat Z) (w : World) : World :=
  mkWorld (visualizers w) m (canvases w) (pending w) (next_handle w) (randoms w)
          (reads w) (log w) (soniq w).

Definition set_canvases (m : gmap nat Canvas) (w : World) : World :=
  mkWorld (visualizers w) (analysers w) m (pending w) (next_handle w) (randoms w)
          (reads w) (log w) (soniq w).

Definition set_pending (p : list (Z * Callback)) (w : World) : World :=
  mkWorld (visualizers w) (analysers w) (canvases w) p (next_handle w) (randoms w)
          (reads w) (log w) (soniq w).

Definition set_next_handle (h : Z) (w : World) : World :=
  mkWorld (visualizers w) (analysers w) (canvases w) (pending w) h (randoms w)
          (reads w) (log w) (soniq w).

Definition set_randoms (n : nat) (w : World) : World :=
  mkWorld (visualizers w) (analysers w) (canvases w) (pending w) (next_handle w) n
          (reads w) (log w) (soniq w).

Definition set_reads (n : nat) (w : World) : World :=
  mkWorld (visualizers w) (analysers w) (canvases w) (pending w) (next_handle w)
          (randoms w) n (log w) (soniq w).

Definition set_log (l : list Event) (w : World) : World :=
  mkWorld (visualizers w) (analysers w) (canvases w) (pending w) (next_handle w)
          (randoms w) (reads w) l (soniq w).

Definition set_soniq (s : Session.t) (w : World) : World :=
  mkWorld (visualizers w) (analysers w) (canvases w) (pending w) (next_handle w)
          (randoms w) (reads w) (log w) s.

Definition emit (e : Event) (w : World) : World := set_log (log w ++ [e]) w.

Definition put_visualizer (v : nat) (o : Vis.t) (w : World) : World :=
  set_visualizers (<[v := o]> (visualizers w)) w.

Definition update_soniq (f : Session.t → Session.t) (w : World) : World :=
  set_soniq (f (soniq w)) w.

(** [requestAnimationFrame(callback)]: the handles are 1, 2, 3, ... *)
Definition requestAnimationFrame (cb : Callback) (w : World) : Z * World :=
  let h := next_handle w in
  (h, emit (EvRequestAnimationFrame h (cb_visualizer cb) (cb_canvas cb))
        (set_next_handle (h + 1) (set_pending (pending w ++ [(h, cb)]) w))).

Definition cancelAnimationFrame (h : Z) (w : World) : World :=
  emit (EvCancelAnimationFrame h)
    (set_pending (filter (λ e, e.1 ≠ h) (pending w)) w).

(** [frequencyBinCount] of an analyser node. *)
Definition frequencyBinCount (a : nat) (w : World) : Z :=
  match analysers w !! a with
  | Some n => n / 2
  | None => 0
  end.

(** Computations that may throw. *)
Inductive Result (A : Type) :=
| Ok (a : A)
| Throw (e : Error).
Arguments Ok {A} a.
Arguments Throw {A} e.

Definition JS (A : Type) : Type := World → Result A * World.

Definition ret {A} (a : A) : JS A := λ w, (Ok a, w).

Definition throw {A} (e : Error) : JS A := λ w, (Throw e, w).

Definition bind {A B} (m : JS A) (k : A → JS B) : JS B :=
  λ w, match m w with
       | (Ok a, w') => k a w'
       | (Throw e, w') => (Throw e, w')
       end.

Definition modify (f : World → World) : JS unit := λ w, (Ok tt, f w).

Definition gets {A} (f : World → A) : JS A := λ w, (Ok (f w), w).

Notation "'let*' x := m 'in' k" := (bind m (λ x, k))
  (at level 10, x name, m at level 100, k at level 200, only parsing).
Notation "'run' m 'in' k" := (bind m (λ _, k))
  (at level 10, m at level 100, k at level 200, only parsing).

(** [for (let i = 0; i < n; i++) body] and
    [for (let i = n - 1; i >= 0; i--) body], on a state [S]. *)
Fixpoint for_up {S : Type} (i n : nat) (body : nat → S → S) (s : S) : S :=
  match n with
  | O => s
  | Datatypes.S n' => for_up (Datatypes.S i) n' body (body i s)
  end.

Fixpoint for_down {S : Type} (n : nat) (body : nat → S → S) (s : S) : S :=
  match n with
  | O => s
  | Datatypes.S i => for_down i body (body i s)
  end.

(** ** BaseVisualizer *)

Module BaseVisualizer.

Record Options := mkOptions {
  opt_defaultColor : option string;
  opt_fftSize : option Z
}.

(** The constructor; [s] is what the subclass constructor adds. *)
Definition new (options : Options) (s : Strategy) : Vis.t :=
  Vis.mk None None []
    (string_or (opt_defaultColor options) "rgb(208, 213, 221)")
    (Z_or (opt_fftSize options) 64)
    1 s.

Section methods.
Context (P : Platform).

Definition setAnalyser (v a : nat) : JS unit := λ w,
  match visualizers w !! v with
  | None => (Throw "TypeError", w)
  | Some o =>
    (* this.analyser = analyser *)
    let o1 := Vis.set_analyser (Some a) o in
    let w1 := put_visualizer v o1 w in
    (* this.analyser.fftSize = this.options.fftSize *)
    if fftSize_ok P (Vis.fftSize o) then
      let w2 := set_analysers (<[a := Vis.fftSize o]> (analysers w1)) w1 in
      (* this.dataArray = new Uint8Array(this.analyser.frequencyBinCount) *)
      let n := Z.to_nat (frequencyBinCount a w2) in
      (Ok tt, put_visualizer v (Vis.set_dataArray (replicate n 0) o1) w2)
    else (Throw "IndexSizeError", w1)
  end.

Definition cleanup (v : nat) (w : World) : World :=
  match visualizers w !! v with
  | None => w
  | Some o =>
    match Vis.animationFrameId o with
    | None => w
    | Some h =>
      (* if (this.animationFrameId): the number 0 is falsy *)
      if h =? 0 then w
      else put_visualizer v (Vis.set_animationFrameId None o)
             (cancelAnimationFrame h w)
    end
  end.

Definition setupHighDPICanvas (v c : nat) (w : World) : World :=
  match visualizers w !! v, canvases w !! c with
  | Some o, Some cv =>
    let d := Q_or (Some (devicePixelRatio P)) 1 in
    let cv' := mkCanvas (rect_width cv) (rect_height cv)
                 (unsigned_long 300 (double (rect_width cv * d)))
                 (unsigned_long 150 (double (rect_height cv * d)))
                 (context2d cv) in
    set_canvases (<[c := cv']> (canvases w))
      (put_visualizer v (Vis.set_dpr d o) w)
  | _, _ => w
  end.

(** [canvas.width / this.dpr] and [canvas.height / this.dpr] *)
Definition displayWidth (o : Vis.t) (c : nat) (w : World) : Q :=
  match canvases w !! c with
  | Some cv => width cv / Vis.dpr o
  | None => 0
  end.

Definition displayHeight (o : Vis.t) (c : nat) (w : World) : Q :=
  match canvases w !! c with
  | Some cv => height cv / Vis.dpr o
  | None => 0
  end.

(** [this.analyser.getByteFrequencyData(this.dataArray)] *)
Definition readFrequencyData (o : Vis.t) (w : World) : Vis.t * World :=
  (Vis.set_dataArray (getByteFrequencyData (byteFrequencyData P (reads w)) (Vis.dataArray o)) o,
   set_reads (Datatypes.S (reads w)) w).

(** The two guards every [visualize] starts with:
    [if (!this.analyser || !canvas) return false] and
    [if (!canvas.getContext("2d")) return false]. *)
Definition can_visualize (v : nat) (canvas : option nat) (w : World) : option nat :=
  match visualizers w !! v, canvas with
  | Some o, Some c =>
    match Vis.analyser o, canvases w !! c with
    | Some _, Some cv => if context2d cv then Some c else None
    | _, _ => None
    end
  | _, _ => None
  end.

End methods.
End BaseVisualizer.

(** ** BarVisualizer *)

Module BarVisualizer.

Definition new (options : BaseVisualizer.Options) (barWidth : option Q) : Vis.t :=
  BaseVisualizer.new options (Bar (mkBar 0 0 (Q_or barWidth 2))).

Section methods.
Context (P : Platform).

(** Draws the row of default bars; no field changes. *)
Definition initializeDefaultBars (v c : nat) (w : World) : World :=
  emit (EvDraw v c DefaultBars) w.

Definition updateBars (v c : nat) (w : World) : World :=
  match visualizers w !! v with
  | None => w
  | Some o =>
    match Vis.analyser o, Vis.strategy o with
    | Some _, Bar f =>
      let '(h, w1) := requestAnimationFrame (mkCallback v c) w in
      let o1 := Vis.set_animationFrameId (Some h) o in
      let skip := Z.rem (frameSkipTracker f + 1) 10 in
      let f1 := mkBar (xPosition f) skip (bar_barWidth f) in
      if negb (Z.rem skip 2 =? 0) then
        put_visualizer v (Vis.set_strategy (Bar f1) o1) w1
      else
        let '(o2, w2) := BaseVisualizer.readFrequencyData P o1 w1 in
        let w3 := emit (EvDraw v c BarFrame) w2 in
        let x1 := (xPosition f + 2 * bar_barWidth f)%Q in
        let x2 := if Qle_bool (BaseVisualizer.displayWidth o2 c w3) x1 then 0%Q else x1 in
        put_visualizer v (Vis.set_strategy (Bar (mkBar x2 skip (bar_barWidth f))) o2) w3
    | _, _ => w
    end
  end.

Definition visualize (v : nat) (canvas : option nat) (w : World) : bool * World :=
  match BaseVisualizer.can_visualize v canvas w with
  | None => (false, w)
  | Some c =>
    let w1 := BaseVisualizer.cleanup v w in
    let w2 := BaseVisualizer.setupHighDPICanvas P v c w1 in
    (* this.xPosition = 0 *)
    let w3 := match visualizers w2 !! v with
              | Some o =>
                match Vis.strategy o with
                | Bar f => put_visualizer v
                    (Vis.set_strategy (Bar (mkBar 0 (frameSkipTracker f) (bar_barWidth f))) o) w2
                | _ => w2
                end
              | None => w2
              end in
    (true, updateBars v c (initializeDefaultBars v c w3))
  end.

End methods.
End BarVisualizer.

(** ** WaveVisualizer *)

Module WaveVisualizer.

Definition new (options : BaseVisualizer.Options) : Vis.t :=
  BaseVisualizer.new options Wave.

Section methods.
Context (P : Platform).

(** The time-domain samples go to a local array and to the canvas only. *)
Definition drawWave (v c : nat) (w : World) : World :=
  match visualizers w !! v with
  | None => w
  | Some o =>
    match Vis.analyser o with
    | None => w
    | Some _ =>
      let '(h, w1) := requestAnimationFrame (mkCallback v c) w in
      emit (EvDraw v c WaveFrame)
        (put_visualizer v (Vis.set_animationFrameId (Some h) o) w1)
    end
  end.

Definition visualize (v : nat) (canvas : option nat) (w : World) : bool * World :=
  match BaseVisualizer.can_visualize v canvas w with
  | None => (false, w)
  | Some c =>
    let w1 := BaseVisualizer.cleanup v w in
    let w2 := BaseVisualizer.setupHighDPICanvas P v c w1 in
    (true, drawWave v c w2)
  end.

End methods.
End WaveVisualizer.

(** ** SpectrumVisualizer *)

Module SpectrumVisualizer.

Record Options := mkOptions {
  base : BaseVisualizer.Options;
  opt_barWidth : option Q;
  opt_barSpacing : option Q;
  opt_colorMode : option ColorMode;
  opt_gradientStart : option string;
  opt_gradientEnd : option string
}.

Definition new (options : Options) : Vis.t :=
  BaseVisualizer.new (base options)
    (Spectrum (mkSpectrum
       (Q_or (opt_barWidth options) 4)
       (Q_or (opt_barSpacing options) 1)
       (default rainbow (opt_colorMode options))
       (string_or (opt_gradientStart options) "#00FFFF")
       (string_or (opt_gradientEnd options) "#FF00FF")
       [])).

(** [this.smoothedArray[i] * 0.8 + this.dataArray[i] * 0.2], without the
    rounding of the store into the [Float32Array]: what is stated of the
    smoothed values are ranges and order relations, which that rounding
    keeps. *)
Definition smooth_bin (smoothed : Q) (raw : Z) : Q :=
  (smoothed * 0.8 + inject_Z raw * 0.2)%Q.

(** The block "Apply smoothing to the data" of [drawSpectrum]: the new
    [smoothedArray]. A fresh [Float32Array] is filled with zeros. *)
Definition smoothing (smoothedArray : list Q) (dataArray : list Z) : list Q :=
  if negb (length smoothedArray =? length dataArray)%nat then
    for_up 0 (length dataArray)
      (λ i s, match dataArray !! i with
              | Some d => <[i := inject_Z d]> s
              | None => s
              end)
      (replicate (length dataArray) 0%Q)
  else
    for_up 0 (length dataArray)
      (λ i s, match s !! i, dataArray !! i with
              | Some si, Some d => <[i := smooth_bin si d]> s
              | _, _ => s
              end)
      smoothedArray.

Section methods.
Context (P : Platform).

Definition drawSpectrum (v c : nat) (w : World) : World :=
  match visualizers w !! v with
  | None => w
  | Some o =>
    match Vis.analyser o, Vis.strategy o with
    | Some _, Spectrum f =>
      let '(h, w1) := requestAnimationFrame (mkCallback v c) w in
      let o1 := Vis.set_animationFrameId (Some h) o in
      let '(o2, w2) := BaseVisualizer.readFrequencyData P o1 w1 in
      let f1 := mkSpectrum (barWidth f) (barSpacing f) (colorMode f)
                  (gradientStart f) (gradientEnd f)
                  (smoothing (smoothedArray f) (Vis.dataArray o2)) in
      emit (EvDraw v c SpectrumFrame)
        (put_visualizer v (Vis.set_strategy (Spectrum f1) o2) w2)
    | _, _ => w
    end
  end.

Definition visualize (v : nat) (canvas : option nat) (w : World) : bool * World :=
  match BaseVisualizer.can_visualize v canvas w with
  | None => (false, w)
  | Some c =>
    let w1 := BaseVisualizer.cleanup v w in
    let w2 := BaseVisualizer.setupHighDPICanvas P v c w1 in
    (* this.smoothedArray = new Float32Array(this.analyser.frequencyBinCount) *)
    let w3 := match visualizers w2 !! v with
              | Some o =>
                match Vis.analyser o, Vis.strategy o with
                | Some a, Spectrum f =>
                  let n := Z.to_nat (frequencyBinCount a w2) in
                  put_visualizer v
                    (Vis.set_strategy
                       (Spectrum (mkSpectrum (barWidth f) (barSpacing f) (colorMode f)
                                    (gradientStart f) (gradientEnd f) (replicate n 0%Q))) o) w2
                | _, _ => w2
                end
              | None => w2
              end in
    (true, drawSpectrum v c w3)
  end.

End methods.
End SpectrumVisualizer.

(** ** ParticleVisualizer *)

Module ParticleVisualizer.

Record Options := mkOptions {
  base : BaseVisualizer.Options;
  opt_particleCount : option Q;
  opt_particleMaxSize : option Q;
  opt_particleMinSize : option Q;
  opt_particleLifespan : option Q;
  opt_particleBaseSpeed : option Q;
  opt_colorMode : option ColorMode
}.

Definition new (options : Options) : Vis.t :=
  BaseVisualizer.new (base options)
    (Particles (mkParticles []
       (Q_or (opt_particleCount options) 100)
       (Q_or (opt_particleMaxSize options) 8)
       (Q_or (opt_particleMinSize options) 2)
       (Q_or (opt_particleLifespan options) 100)
       (Q_or (opt_particleBaseSpeed options) 1)
       (default rainbow (opt_colorMode options))
       0 0 0 0)).

(** "Remove if out of bounds or expired", on the particle already moved and
    aged. *)
Definition out_of_bounds (displayWidth displayHeight : Q) (p : Particle) : bool :=
  negb (Qle_bool (- size p) (x p))
  || negb (Qle_bool (x p) (displayWidth + size p))
  || negb (Qle_bool (- size p) (y p))
  || negb (Qle_bool (y p) (displayHeight + size p)).

Definition expired (p : Particle) : bool :=
  negb (Qle_bool (inject_Z (life p)) (maxLife p)).

Section methods.
Context (P : Platform).
Local Open Scope Q_scope.

(** "Update position" and "Update life" *)
Definition advance (p : Particle) : Particle :=
  mkParticle (x p + Math_cos P (angle p) * speed p)
             (y p + Math_sin P (angle p) * speed p)
             (size p) (color p) (speed p) (angle p)
             (life p + 1) (maxLife p).

(** The body of the loop "Update existing particles", at index [i]. *)
Definition update_at (displayWidth displayHeight : Q) (i : nat)
    (ps : list Particle) : list Particle :=
  match ps !! i with
  | None => ps
  | Some p =>
    let p' := advance p in
    if out_of_bounds displayWidth displayHeight p' || expired p'
    then delete i (<[i := p']> ps)        (* this.particles.splice(i, 1) *)
    else <[i := p']> ps
  end.

Definition createParticle (f : ParticleFields) (o : Vis.t)
    (displayWidth displayHeight intensity : Q) (n : nat) : Particle * nat :=
  let centerX := displayWidth / 2 in
  let centerY := displayHeight / 2 in
  let angle := Math_random P n * Math_PI P * 2 in
  let distance :=
    Math_random P (n + 1) * Math_random P (n + 2) * (displayWidth / 3) in
  let x := centerX + Math_cos P angle * distance in
  let y := centerY + Math_sin P angle * distance in
  let size := particleMinSize f + (particleMaxSize f - particleMinSize f) * intensity in
  let speed := particleBaseSpeed f * (1 + intensity) * (1 + distance / (displayWidth / 2)) in
  let '(color, n') :=
    match particle_colorMode f with
    | rainbow =>
      (Hsla (js_rem (hue f + Math_random P (n + 3) * 60) 360)
            (80 + intensity * 20) (50 + intensity * 30) 0.8, n + 4)%nat
    | gradient =>
      if negb (Qle_bool 0.33 (Math_random P (n + 3))) then
        (Rgba 255 (Math_floor (100 + bassValue f * 155)) 50 0.8, n + 4)%nat
      else if negb (Qle_bool 0.66 (Math_random P (n + 4))) then
        (Rgba (Math_floor (100 + midValue f * 155)) 255 50 0.8, n + 5)%nat
      else
        (Rgba 50 (Math_floor (100 + trebleValue f * 155)) 255 0.8, n + 5)%nat
    | single =>
      (DefaultColorAlpha (Vis.defaultColor o) (0.3 + intensity * 0.7), n + 3)%nat
    end in
  (mkParticle x y size color speed angle 0
     (particleLifespan f + Math_random P n' * particleLifespan f * 0.5),
   Datatypes.S n').

Definition with_particles (ps : list Particle) (f : ParticleFields) : ParticleFields :=
  mkParticles ps (particleCount f) (particleMaxSize f) (particleMinSize f)
    (particleLifespan f) (particleBaseSpeed f) (particle_colorMode f)
    (hue f) (bassValue f) (midValue f) (trebleValue f).

(** [updateParticles]: the new fields and the new count of [Math.random]
    calls. *)
Definition updateParticles (f : ParticleFields) (o : Vis.t)
    (displayWidth displayHeight intensity : Q) (n : nat) : ParticleFields * nat :=
  let ps := for_down (length (particles f))
              (update_at displayWidth displayHeight) (particles f) in
  let particlesToAdd := Math_floor (particleCount f * intensity * 0.2) in
  let '(ps', n') :=
    for_up 0 (Z.to_nat particlesToAdd)
      (λ _ '(ps, n),
         if negb (Qle_bool (particleCount f) (inject_Z (Z.of_nat (length ps))))
         then let '(p, n') := createParticle (with_particles ps f) o
                                displayWidth displayHeight intensity n in
              (ps ++ [p], n')
         else (ps, n))
      (ps, n) in
  (with_particles ps' f, n').

(** The sum of [dataArray[i]] for [from <= i < from + count]. *)
Definition range_sum (dataArray : list Z) (from count : nat) : Z :=
  for_up from count (λ i acc, acc + default 0 (dataArray !! i))%Z 0%Z.

Definition analyzeFrequencyRanges (dataArray : list Z) (f : ParticleFields) : ParticleFields :=
  let len := Z.of_nat (length dataArray) in
  let bassEnd := Math_floor (inject_Z len * 0.1) in
  let midEnd := Math_floor (inject_Z len * 0.5) in
  let bassSum := range_sum dataArray 0 (Z.to_nat bassEnd) in
  let midSum := range_sum dataArray (Z.to_nat bassEnd) (Z.to_nat (midEnd - bassEnd)) in
  let trebleSum := range_sum dataArray (Z.to_nat midEnd) (Z.to_nat (len - midEnd)) in
  mkParticles (particles f) (particleCount f) (particleMaxSize f) (particleMinSize f)
    (particleLifespan f) (particleBaseSpeed f) (particle_colorMode f) (hue f)
    (inject_Z bassSum / inject_Z (bassEnd * 255))
    (inject_Z midSum / inject_Z ((midEnd - bassEnd) * 255))
    (inject_Z trebleSum / inject_Z ((len - midEnd) * 255)).

Definition with_hue (h : Q) (f : ParticleFields) : ParticleFields :=
  mkParticles (particles f) (particleCount f) (particleMaxSize f) (particleMinSize f)
    (particleLifespan f) (particleBaseSpeed f) (particle_colorMode f)
    h (bassValue f) (midValue f) (trebleValue f).

Definition animateParticles (v c : nat) (w : World) : World :=
  match visualizers w !! v with
  | None => w
  | Some o =>
    match Vis.analyser o, Vis.strategy o with
    | Some _, Particles f =>
      let '(h, w1) := requestAnimationFrame (mkCallback v c) w in
      let o1 := Vis.set_animationFrameId (Some h) o in
      let '(o2, w2) := BaseVisualizer.readFrequencyData P o1 w1 in
      let f1 := analyzeFrequencyRanges (Vis.dataArray o2) f in
      let average :=
        inject_Z (foldl Z.add 0%Z (Vis.dataArray o2))
        / inject_Z (Z.of_nat (length (Vis.dataArray o2))) in
      let intensity := average / 255 in
      let f2 := with_hue (js_rem (hue f1 + 1) 360) f1 in
      let '(f3, n) :=
        updateParticles f2 o2 (BaseVisualizer.displayWidth o2 c w2)
          (BaseVisualizer.displayHeight o2 c w2) intensity (randoms w2) in
      (* drawParticles *)
      emit (EvDraw v c ParticleFrame)
        (put_visualizer v (Vis.set_strategy (Particles f3) o2) (set_randoms n w2))
    | _, _ => w
    end
  end.

Definition visualize (v : nat) (canvas : option nat) (w : World) : bool * World :=
  match BaseVisualizer.can_visualize v canvas w with
  | None => (false, w)
  | Some c =>
    let w1 := BaseVisualizer.cleanup v w in
    let w2 := BaseVisualizer.setupHighDPICanvas P v c w1 in
    (* this.particles = []; this.hue = 0 *)
    let w3 := match visualizers w2 !! v with
              | Some o =>
                match Vis.strategy o with
                | Particles f =>
                  put_visualizer v
                    (Vis.set_strategy (Particles (with_hue 0 (with_particles [] f))) o) w2
                | _ => w2
                end
              | None => w2
              end in
    (true, animateParticles v c (emit (EvDraw v c Background) w3))
  end.

End methods.
End ParticleVisualizer.

(** ** Dynamic dispatch and the animation frame *)

Module Visualizer.
Section methods.
Context (P : Platform).

(** [visualizer.visualize(canvas)], on the class of the object. *)
Definition visualize (v : nat) (canvas : option nat) (w : World) : bool * World :=
  match visualizers w !! v with
  | None => (false, w)
  | Some o =>
    match Vis.strategy o with
    | Bar _ => BarVisualizer.visualize P v canvas w
    | Wave => WaveVisualizer.visualize P v canvas w
    | Spectrum _ => SpectrumVisualizer.visualize P v canvas w
    | Particles _ => ParticleVisualizer.visualize P v canvas w
    end
  end.

End methods.
End Visualizer.

Section frames.
Context (P : Platform).

(** The arrow function that each draw method hands to
    [requestAnimationFrame]: it calls the same draw method again. *)
Definition invoke (cb : Callback) (w : World) : World :=
  match visualizers w !! cb_visualizer cb with
  | None => w
  | Some o =>
    match Vis.strategy o with
    | Bar _ => BarVisualizer.updateBars P (cb_visualizer cb) (cb_canvas cb) w
    | Wave => WaveVisualizer.drawWave (cb_visualizer cb) (cb_canvas cb) w
    | Spectrum _ => SpectrumVisualizer.drawSpectrum P (cb_visualizer cb) (cb_canvas cb) w
    | Particles _ => ParticleVisualizer.animateParticles P (cb_visualizer cb) (cb_canvas cb) w
    end
  end.

(** The browser runs one callback of its list: the entry is removed, then
    the callback is called. A handle that was cancelled in between is
    skipped. *)
Definition run_callback (h : Z) (w : World) : World :=
  match list_find (λ e, e.1 = h) (pending w) with
  | Some (_, (_, cb)) =>
    invoke cb (set_pending (filter (λ e, e.1 ≠ h) (pending w)) w)
  | None => w
  end.

(** One display frame: the callbacks that are in the list when the frame
    starts are run in order; those they schedule wait for the next frame. *)
Definition run_frame (w : World) : World :=
  foldl (λ w h, run_callback h w) w (pending w).*1.

End frames.

(** ** Soniq *)

Module Soniq.

Record Options := mkOptions {
  opt_fftSize : option Z;
  opt_defaultColor : option string
}.

(** The world after [new Soniq(options)]: the visualizer given in the
    options, or else a new [BarVisualizer], is object 0. (The constructor
    throws when the browser has no [AudioContext]; then there is no
    object.) *)
Definition new (options : Options) (visualizer : option Vis.t) : World :=
  let v := default
             (BarVisualizer.new
                (BaseVisualizer.mkOptions (opt_defaultColor options) (opt_fftSize options))
                None)
             visualizer in
  mkWorld {[ 0%nat := v ]} ∅ ∅ [] 1 0 0 []
    (Session.mk None None None [] false None
       (Z_or (opt_fftSize options) 64)
       (string_or (opt_defaultColor options) "rgb(208, 213, 221)")
       0%nat).

(** What the browser answers during one run of [setup]. *)
Inductive GetUserMedia :=
| gum_throws (e : Error)          (* the call itself throws *)
| gum_rejects (e : Error)         (* the promise is rejected *)
| gum_resolves (tracks : list nat).

Record SetupEnv := mkSetupEnv {
  getUserMedia : GetUserMedia;
  new_AudioContext : Error + nat;
  createAnalyser : Error + nat;
  createMediaStreamSource : option Error;
  connect : option Error;
  new_MediaRecorder : Error + nat
}.

Definition lift_sum {A} (r : Error + A) : JS A :=
  match r with
  | inl e => throw e
  | inr a => ret a
  end.

Definition lift_opt (r : option Error) : JS unit :=
  match r with
  | Some e => throw e
  | None => ret tt
  end.

Section methods.
Context (P : Platform).

Definition cleanup (w : World) : World :=
  let w1 := BaseVisualizer.cleanup (Session.visualizer (soniq w)) w in
  let w2 := match Session.stream (soniq w1) with
            | Some tracks => foldl (λ w t, emit (EvTrackStop t) w) w1 tracks
            | None => w1
            end in
  let w3 := match Session.context (soniq w2) with
            | Some c => emit (EvContextClose c) w2
            | None => w2
            end in
  update_soniq
    (λ s, Session.set_isRecording false
            (Session.set_chunks []
               (Session.set_analyser None
                  (Session.set_recorder None
                     (Session.set_stream None s))))) w3.

(** The [catch] block of [setup]. *)
Definition setup_failed (e : Error) (w : World) : World :=
  cleanup (emit (EvOnPermissionsFailed e) w).

(** The [try] block of [setup] from the point where the promise of
    [getUserMedia] is settled. *)
Definition setup_body (env : SetupEnv) : JS unit :=
  let* tracks := match getUserMedia env with
                 | gum_resolves t => ret t
                 | gum_rejects e => throw e
                 | gum_throws e => throw e
                 end in
  run modify (update_soniq (Session.set_stream (Some tracks))) in
  let* c := lift_sum (new_AudioContext env) in
  run modify (update_soniq (Session.set_context (Some c))) in
  let* a := lift_sum (createAnalyser env) in
  run modify (λ w, update_soniq (Session.set_analyser (Some a))
                     (set_analysers (<[a := 2048]> (analysers w)) w)) in
  (* this.analyser.fftSize = this.options.fftSize *)
  let* n := gets (λ w, Session.fftSize (soniq w)) in
  run (if fftSize_ok P n
       then modify (λ w, set_analysers (<[a := n]> (analysers w)) w)
       else throw "IndexSizeError") in
  run lift_opt (createMediaStreamSource env) in
  run lift_opt (connect env) in
  let* v := gets (λ w, Session.visualizer (soniq w)) in
  run BaseVisualizer.setAnalyser P v a in
  let* r := lift_sum (new_MediaRecorder env) in
  modify (update_soniq (Session.set_recorder (Some r))).

(** [setup] up to its [await]: [None] when it is suspended there, the
    result when the call of [getUserMedia] threw. *)
Definition setup_begin (env : SetupEnv) (w : World) : option bool * World :=
  let w1 := cleanup w in
  match getUserMedia env with
  | gum_throws e => (Some false, setup_failed e w1)
  | _ => (None, w1)
  end.

(** [setup] from its [await] on. *)
Definition setup_resume (env : SetupEnv) (w : World) : bool * World :=
  match setup_body env w with
  | (Ok _, w') => (true, w')
  | (Throw e, w') => (false, setup_failed e w')
  end.

(** A run of [setup] with nothing else happening during the [await]. *)
Definition setup (env : SetupEnv) (w : World) : bool * World :=
  match setup_begin env w with
  | (Some b, w') => (b, w')
  | (None, w') => setup_resume env w'
  end.

(** [record()]; [start] says whether [this.recorder.start()] throws. *)
Definition record (start : option Error) (w : World) : bool * World :=
  match Session.recorder (soniq w) with
  | None => (false, w)
  | Some r =>
    match start with
    | None =>
      (true, update_soniq (Session.set_isRecording true) (emit (EvRecorderStart r) w))
    | Some e => (false, emit (EvConsoleError "Failed to start recording:" e) w)
    end
  end.

(** [stop()]; [stop_] says whether [this.recorder.stop()] throws. *)
Definition stop (stop_ : option Error) (w : World) : bool * World :=
  match Session.recorder (soniq w) with
  | None => (false, w)
  | Some r =>
    if negb (Session.isRecording (soniq w)) then (false, w)
    else
      match stop_ with
      | None => (true, emit (EvRecorderStop r) w)
      | Some e => (false, emit (EvConsoleError "Failed to stop recording:" e) w)
      end
  end.

Definition cancel (stop_ : option Error) (w : World) : bool * World :=
  match Session.recorder (soniq w) with
  | None => (false, w)
  | Some r =>
    if negb (Session.isRecording (soniq w)) then (false, w)
    else
      let w1 := update_soniq (Session.set_isRecording false) w in
      match stop_ with
      | None => (true, cleanup (emit (EvRecorderStop r) w1))
      | Some e => (false, emit (EvConsoleError "Failed to cancel recording:" e) w1)
      end
  end.

(** The handler [recorder.ondataavailable]. *)
Definition ondataavailable (data : BlobPart) (w : World) : World :=
  if Session.isRecording (soniq w)
  then update_soniq (λ s, Session.set_chunks (Session.chunks s ++ [data]) s) w
  else w.

(** The handler [recorder.onstop]. *)
Definition onstop (w : World) : World :=
  if negb (Session.isRecording (soniq w)) then w
  else cleanup (emit (EvOnRecorded (Session.chunks (soniq w)) "audio/mp3") w).

Definition visualize (canvas : option nat) (w : World) : bool * World :=
  Visualizer.visualize P (Session.visualizer (soniq w)) canvas w.

Definition setVisualizer (visualizer : nat) : JS unit :=
  let* old := gets (λ w, Session.visualizer (soniq w)) in
  run modify (BaseVisualizer.cleanup old) in
  run modify (update_soniq (Session.set_visualizer visualizer)) in
  let* a := gets (λ w, Session.analyser (soniq w)) in
  match a with
  | Some a => BaseVisualizer.setAnalyser P visualizer a
  | None => ret tt
  end.

Definition isCurrentlyRecording (w : World) : bool :=
  Session.isRecording (soniq w).

Definition destroy (w : World) : World := cleanup w.

End methods.
End Soniq.

(** * Vocabulary of the statements *)

(** ** Spectrum smoothing *)

Definition in_byte_range (q : Q) : Prop := (0 <= q <= 255)%Q.

Definition is_byte (z : Z) : Prop := 0 ≤ z ≤ 255.

(** [n] frames in which every magnitude is [V]. *)
Definition constant_frames (V : Z) (n : nat) (s : list Q) : list Q :=
  Nat.iter n (λ s, SpectrumVisualizer.smoothing s (replicate (length s) V)) s.

(** ** Particle lifecycle *)

(** What one frame does to one particle on a surface of display size
    [W] x [H]: [None] when the particle is removed. *)
Definition tick (P : Platform) (W H : Q) (p : Particle) : option Particle :=
  let p' := ParticleVisualizer.advance P p in
  if ParticleVisualizer.out_of_bounds W H p' || ParticleVisualizer.expired p'
  then None else Some p'.

(** The particle after [k] frames. *)
Fixpoint ticks (P : Platform) (W H : Q) (k : nat) (p : Particle) : option Particle :=
  match k with
  | O => Some p
  | S k' => ticks P W H k' p ≫= tick P W H
  end.

(** Where the particle is after [k] frames, if it is still there. *)
Definition aged (P : Platform) (k : nat) (p : Particle) : Particle :=
  Nat.iter k (ParticleVisualizer.advance P) p.

(** ** Histories *)

Inductive Constructor :=
| NewBar (options : BaseVisualizer.Options) (barWidth : option Q)
| NewWave (options : BaseVisualizer.Options)
| NewSpectrum (options : SpectrumVisualizer.Options)
| NewParticle (options : ParticleVisualizer.Options).

Definition construct (c : Constructor) : Vis.t :=
  match c with
  | NewBar options barWidth => BarVisualizer.new options barWidth
  | NewWave options => WaveVisualizer.new options
  | NewSpectrum options => SpectrumVisualizer.new options
  | NewParticle options => ParticleVisualizer.new options
  end.

(** What the page and the browser can do, one step at a time: the public
    methods of the visualizers and of [Soniq], the handlers of the recorder,
    and the display frame. *)
Inductive Op :=
| OpNew (c : Constructor)
| OpCanvas (c : nat) (cv : Canvas)
| OpSetAnalyser (v a : nat)
| OpVisualize (v : nat) (canvas : option nat)
| OpCleanup (v : nat)
| OpFrame
| OpSetupBegin (env : Soniq.SetupEnv)
| OpSetupResume (env : Soniq.SetupEnv)
| OpRecord (start : option Error)
| OpStop (stop_ : option Error)
| OpCancel (stop_ : option Error)
| OpDataAvailable (data : BlobPart)
| OpOnStop
| OpSoniqVisualize (canvas : option nat)
| OpSetVisualizer (v : nat)
| OpDestroy.

Definition exec (P : Platform) (op : Op) (w : World) : World :=
  match op with
  | OpNew c => put_visualizer (fresh (dom (visualizers w))) (construct c) w
  | OpCanvas c cv => set_canvases (<[c := cv]> (canvases w)) w
  | OpSetAnalyser v a => (BaseVisualizer.setAnalyser P v a w).2
  | OpVisualize v canvas => (Visualizer.visualize P v canvas w).2
  | OpCleanup v => BaseVisualizer.cleanup v w
  | OpFrame => run_frame P w
  | OpSetupBegin env => (Soniq.setup_begin env w).2
  | OpSetupResume env => (Soniq.setup_resume P env w).2
  | OpRecord start => (Soniq.record start w).2
  | OpStop stop_ => (Soniq.stop stop_ w).2
  | OpCancel stop_ => (Soniq.cancel stop_ w).2
  | OpDataAvailable data => Soniq.ondataavailable data w
  | OpOnStop => Soniq.onstop w
  | OpSoniqVisualize canvas => (Soniq.visualize P canvas w).2
  | OpSetVisualizer v =>
    if decide (is_Some (visualizers w !! v)) then (Soniq.setVisualizer P v w).2 else w
  | OpDestroy => Soniq.destroy w
  end.

(** The worlds that a page can reach from [new Soniq(options)]. *)
Inductive reachable (P : Platform) : World → Prop :=
| reachable_new options c :
    reachable P (Soniq.new options (construct <$> c))
| reachable_exec op w :
    reachable P w → reachable P (exec P op w).

(** A history: the world after [new Soniq()] and the given steps. *)
Definition history (P : Platform) (ops : list Op) : World :=
  foldl (λ w op, exec P op w) (Soniq.new (Soniq.mkOptions None None) None) ops.

(** ** The animation loop *)

(** The callbacks of visualizer [v] that are scheduled. *)
Definition scheduled (v : nat) (w : World) : list (Z * Callback) :=
  filter (λ e, cb_visualizer e.2 = v) (pending w).

(** Every scheduled callback carries a handle the browser has given out and
    is the one its visualizer remembers in [animationFrameId]. *)
Definition frame_loop_invariant (w : World) : Prop :=
  0 < next_handle w
  ∧ NoDup (pending w).*1
  ∧ ∀ h cb, (h, cb) ∈ pending w →
      0 < h < next_handle w
      ∧ ∃ o, visualizers w !! cb_visualizer cb = Some o
             ∧ Vis.animationFrameId o = Some h.

Definition is_frame_draw (v : nat) (e : Event) : bool :=
  match e with
  | EvDraw v' _ (BarFrame | WaveFrame | SpectrumFrame | ParticleFrame) =>
    bool_decide (v' = v)
  | _ => false
  end.

(** How many frames visualizer [v] has drawn. *)
Definition frames_drawn (v : nat) (l : list Event) : nat :=
  length (filter (λ e, is_frame_draw v e = true) l).

(** Visualizer [v] has no callback scheduled. *)
Definition idle (v : nat) (w : World) : Prop :=
  ∀ h cb, (h, cb) ∈ pending w → cb_visualizer cb ≠ v.

(** What a draw method does to the loop when it gets past its guard: it
    schedules itself once, remembers the handle, and draws at most one
    frame. *)
Definition frame_step (v c : nat) (w w' : World) : Prop :=
  ∃ o' draws,
    pending w' = pending w ++ [(next_handle w, mkCallback v c)]
    ∧ next_handle w' = next_handle w + 1
    ∧ visualizers w' = <[v := o']> (visualizers w)
    ∧ Vis.animationFrameId o' = Some (next_handle w)
    ∧ soniq w' = soniq w
    ∧ log w' = log w ++ EvRequestAnimationFrame (next_handle w) v c :: draws
    ∧ (draws = [] ∨ ∃ op, draws = [EvDraw v c op]).

(** ** Teardown *)

(** The release calls that [cleanup] makes for the stream and the context
    the session holds. *)
Definition release_events (s : Session.t) : list Event :=
  (EvTrackStop <$> default [] (Session.stream s))
  ++ match Session.context s with
     | Some c => [EvContextClose c]
     | None => []
     end.

(** Nothing of a session is held: no stream, recorder or analyser, no
    chunks, not recording. *)
Definition torn_down (s : Session.t) : Prop :=
  Session.stream s = None ∧ Session.recorder s = None
  ∧ Session.analyser s = None ∧ Session.chunks s = []
  ∧ Session.isRecording s = false.

Definition is_release (e : Event) : Prop :=
  match e with
  | EvCancelAnimationFrame _ | EvTrackStop _ | EvContextClose _ => True
  | _ => False
  end.

(** The drawing [visualize] does before it starts the loop. *)
Definition is_init_draw (e : Event) : Prop :=
  match e with
  | EvDraw _ _ (DefaultBars | Background) => True
  | _ => False
  end.

(** What [visualize] does between [cleanup] and the first call of the draw
    method: the canvas is sized and the fields of the strategy are reset;
    the loop, the session and the analysers are left alone. *)
Definition prepared (v : nat) (w w_mid : World) : Prop :=
  pending w_mid = pending (BaseVisualizer.cleanup v w)
  ∧ next_handle w_mid = next_handle w
  ∧ soniq w_mid = soniq w
  ∧ analysers w_mid = analysers w
  ∧ ∃ inits, log w_mid = log (BaseVisualizer.cleanup v w) ++ inits
             ∧ Forall is_init_draw inits.

Definition has_log (l : list Event) (w : World) : Prop := log w = l.

(** ** The claims as the specification words them, where the code differs *)

(** The teardown comes before the report: the tracks of the stream are
    stopped before [onPermissionsFailed] is called. *)
Definition teardown_before_report (tracks : list nat) (events : list Event) : Prop :=
  ∃ before e after,
    events = before ++ EvOnPermissionsFailed e :: after
    ∧ ∀ t, t ∈ tracks → EvTrackStop t ∈ before.

(** [Ready]: there is a recorder and no recording is in progress. *)
Definition Ready (s : Session.t) : Prop :=
  is_Some (Session.recorder s) ∧ Session.isRecording s = false.

(** [record()] outside [Ready] returns false and changes nothing. *)
Definition record_refused_unless_Ready (start : option Error) (w : World) : Prop :=
  ¬ Ready (soniq w) → Soniq.record start w = (false, w).

(** After [stop()] the flag is cleared, so a chunk that arrives is
    dropped. *)
Definition late_chunk_dropped (w : World) (data : BlobPart) : Prop :=
  ∀ w1, Soniq.stop None w = (true, w1) →
    Session.isRecording (soniq w1) = false
    ∧ Soniq.ondataavailable data w1 = w1.

(** [setVisualizer] restarts the new visualizer when the old one was
    running. *)
Definition restarts_when_active (P : Platform) (new_v : nat) (w : World) : Prop :=
  ¬ idle (Session.visualizer (soniq w)) w →
  ¬ idle new_v (Soniq.setVisualizer P new_v w).2.


(** ** Byte magnitudes *)

(** The magnitudes of a visualizer are bytes and, for a spectrum
    visualizer, the smoothed values are between 0 and 255. *)
Definition within_bytes (o : Vis.t) : Prop :=
  Forall is_byte (Vis.dataArray o)
  ∧ ∀ f, Vis.strategy o = Spectrum f → Forall in_byte_range (smoothedArray f).

Definition bytes_invariant (w : World) : Prop :=
  ∀ v o, visualizers w !! v = Some o → within_bytes o.

(** ** The recorder of the browser *)

(** The [state] attribute of a [MediaRecorder] and the rule of the
    MediaStream Recording API for [start()]: it throws unless the recorder
    is inactive. [stop()] makes the recorder inactive at once; its
    [dataavailable] and [stop] events are fired later, from a task. *)
Inductive RecordingState := inactive | recording.

Definition conforming_start (state : RecordingState) : option Error :=
  match state with
  | inactive => None
  | recording => Some "InvalidStateError"
  end.

(** ** Examples *)

Definition power_of_two_in_range (n : Z) : bool :=
  (32 <=? n) && (n <=? 32768) && (Z.land n (n - 1) =? 0).

(** A platform to run the model on: the [fftSize] check of the Web Audio
    API, a device pixel ratio of 2, [Math.random] stuck at one half, every
    magnitude at 100, and the cosine and sine of the angle 0. *)
Definition test_platform : Platform :=
  mkPlatform power_of_two_in_range 2 (λ _, 1%Q) (λ _, 0%Q) (355 # 113)
    (λ _, (1 # 2)%Q) (λ _, replicate 32 100).

(** The microphone is granted; stream with track 7, context 3, analyser 5,
    recorder 9. *)
Definition env_granted : Soniq.SetupEnv :=
  Soniq.mkSetupEnv (Soniq.gum_resolves [7%nat]) (inr 3%nat) (inr 5%nat)
    None None (inr 9%nat).

(** The microphone is granted but [new AudioContext()] throws. *)
Definition env_no_context : Soniq.SetupEnv :=
  Soniq.mkSetupEnv (Soniq.gum_resolves [7%nat]) (inl "NotSupportedError")
    (inr 5%nat) None None (inr 9%nat).

Definition w_new : World := history test_platform [].

(** [setup()] succeeds, and the page has a canvas of 300 x 150 CSS
    pixels. *)
Definition ready : list Op :=
  [OpSetupBegin env_granted; OpSetupResume env_granted;
   OpCanvas 0 (mkCanvas 300 150 300 150 true)].

Definition w_ready : World := history test_platform ready.

Definition w_visualizing : World :=
  history test_platform (ready ++ [OpSoniqVisualize (Some 0%nat)]).

Definition w_recording : World :=
  history test_platform (ready ++ [OpRecord None]).

(** [record()], then [stop()]: the recorder is inactive again, its stop
    event has not been fired yet. *)
Definition w_stopping : World :=
  history test_platform
    (ready ++ [OpRecord (conforming_start inactive); OpStop None]).

(** A spectrum visualizer is created next to the one that is running. *)
Definition two_visualizers : list Op :=
  ready ++ [OpSoniqVisualize (Some 0%nat);
            OpNew (NewSpectrum
                     (SpectrumVisualizer.mkOptions (BaseVisualizer.mkOptions None None)
                        None None None None None))].

Definition w_two_visualizers : World := history test_platform two_visualizers.


(** A particle in the middle of a 300 x 150 surface, heading right at one
    pixel per frame, with a lifetime of two and a half frames. *)
Definition slow_particle : Particle :=
  mkParticle 150 75 2 (Hsla 0 80 50 0.8) 1 0 0 2.5.

(** The spectrum visualizer is started and two display frames pass. *)
Definition w_spectrum_running : World :=
  history test_platform
    (two_visualizers
     ++ [OpSetVisualizer 1; OpSoniqVisualize (Some 0%nat); OpFrame; OpFrame]).

(** * What the draw methods put on the canvas

    The draw methods of the visualizers are recorded in the log as one
    [EvDraw] event for each frame. The definitions below give what a frame
    computes before it calls the canvas: the colours, the rectangles and
    the path. The canvas calls themselves ([fill], [stroke], ...) change no
    state of the program. *)

From Stdlib Require Import Ascii Qminmax.

(** A value of [fillStyle]: a string taken from the options, or one built by
    a template literal from the numbers shown. *)
Inductive FillStyle :=
| Literal (s : string)
| Hsl (hue saturation lightness : Q)
| Rgb (r g b : Q).

(** The arguments of one call of [drawRoundedRect], with the [fillStyle] in
    force. *)
Record Rect := mkRect {
  fillStyle : FillStyle;
  at_x : Q;
  at_y : Q;
  wide : Q;
  high : Q;
  radius : Q
}.

(** [Math.round]: to the nearest integer, a half goes up. *)
Definition Math_round (q : Q) : Z := Qfloor (q + (1 # 2)).

(** ** SpectrumVisualizer: colours *)

(** The class [[a-f\d]] under the flag [i], with the value of the digit in
    base 16. *)
Definition hex_digit (c : ascii) : option Z :=
  let n := Z.of_nat (nat_of_ascii c) in
  if (48 <=? n) && (n <=? 57) then Some (n - 48)
  else if (97 <=? n) && (n <=? 102) then Some (n - 87)
  else if (65 <=? n) && (n <=? 70) then Some (n - 55)
  else None.

Definition is_hex (c : ascii) : bool :=
  match hex_digit c with
  | Some _ => true
  | None => false
  end.

(** [parseInt(digits, 16)] on a string of hexadecimal digits, which is all
    that the regular expression lets through. *)
Definition parseInt16 (digits : list ascii) : Z :=
  foldl (λ n c, 16 * n + default 0 (hex_digit c)) 0 digits.

(** [/^#?([a-f\d])([a-f\d])([a-f\d])$/i]: the three groups of a match. A
    ["#"] is no digit, so the string matches in one way at most. *)
Definition shorthandRegex (hex : list ascii) : option (ascii * ascii * ascii) :=
  let groups (r g b : ascii) :=
    if is_hex r && is_hex g && is_hex b then Some (r, g, b) else None in
  match hex with
  | [r; g; b] => groups r g b
  | [c; r; g; b] => if Ascii.eqb c "#" then groups r g b else None
  | _ => None
  end.

(** [/^#?([a-f\d]{2})([a-f\d]{2})([a-f\d]{2})$/i]: the three groups of a
    match. *)
Definition hexRegex (hex : list ascii)
    : option (list ascii * list ascii * list ascii) :=
  let groups (r1 r2 g1 g2 b1 b2 : ascii) :=
    if forallb is_hex [r1; r2; g1; g2; b1; b2]
    then Some ([r1; r2], [g1; g2], [b1; b2]) else None in
  match hex with
  | [r1; r2; g1; g2; b1; b2] => groups r1 r2 g1 g2 b1 b2
  | [c; r1; r2; g1; g2; b1; b2] =>
    if Ascii.eqb c "#" then groups r1 r2 g1 g2 b1 b2 else None
  | _ => None
  end.

Definition hexToRgb (hex : string) : option (Z * Z * Z) :=
  let hex0 := String.list_ascii_of_string hex in
  (* hex = hex.replace(shorthandRegex, (m, r, g, b) => r + r + g + g + b + b) *)
  let hex1 := match shorthandRegex hex0 with
              | Some (r, g, b) => [r; r; g; g; b; b]
              | None => hex0
              end in
  match hexRegex hex1 with
  | Some (r, g, b) => Some (parseInt16 r, parseInt16 g, parseInt16 b)
  | None => None
  end.

Definition interpolateColor (startColor endColor : string) (factor : Q) : FillStyle :=
  match hexToRgb startColor, hexToRgb endColor with
  | Some (sr, sg, sb), Some (er, eg, eb) =>
    let mix (s e : Z) : Q :=
      inject_Z (Math_round (inject_Z s + factor * (inject_Z e - inject_Z s))) in
    Rgb (mix sr er) (mix sg eg) (mix sb eb)
  | _, _ => Literal startColor
  end.

Definition getColor (f : SpectrumFields) (defaultColor : string)
    (index total intensity : Q) : FillStyle :=
  match colorMode f with
  | rainbow =>
    Hsl (index / total * 360) (80 + intensity * 20) (40 + intensity * 30)
  | gradient =>
    interpolateColor (gradientStart f) (gradientEnd f) (index / total)
  | single => Literal defaultColor
  end.

(** ** SpectrumVisualizer: the bars of a frame *)

(** "Calculate how many bars we can fit". The quotient is rounded before
    [Math.floor] sees it. A pitch of zero divides by zero: a positive width
    gives [Infinity], and the smaller of [Infinity] and the length is the
    length; a width of zero gives [NaN] and a negative one [-Infinity],
    with which [i < totalBars] is false at once, as it is with [0]. *)
Definition totalBars (f : SpectrumFields) (displayWidth : Q) (dataArray : list Z) : Z :=
  let pitch := double (barWidth f + barSpacing f) in
  if Qeq_bool pitch 0 then
    if Qle_bool displayWidth 0 then 0 else Z.of_nat (length dataArray)
  else
    Z.min (Math_floor (double (displayWidth / pitch)))
          (Z.of_nat (length dataArray)).

(** "Map the data index to the available bars": the quotient is rounded,
    and so is the product. *)
Definition dataIndex (dataArray : list Z) (totalBars : Z) (i : nat) : Z :=
  Math_floor (double (inject_Z (Z.of_nat i)
                      * double (inject_Z (Z.of_nat (length dataArray))
                                / inject_Z totalBars))).

(** The body of the loop "Draw each bar": the bar and its reflection;
    [None] when [smoothedArray[dataIndex]] is not a cell of the array. *)
Definition spectrum_bar (f : SpectrumFields) (defaultColor : string)
    (dataArray : list Z) (displayHeight : Q) (total : Z) (i : nat)
    : option (Rect * Rect) :=
  let ix := dataIndex dataArray total i in
  match (if ix <? 0 then None else smoothedArray f !! Z.to_nat ix) with
  | None => None
  | Some value =>
    let normalizedValue := (value / 255)%Q in
    let barHeight := (normalizedValue * displayHeight)%Q in
    let x := (inject_Z (Z.of_nat i) * (barWidth f + barSpacing f))%Q in
    Some (mkRect (getColor f defaultColor (inject_Z (Z.of_nat i)) (inject_Z total)
                    normalizedValue)
                 x (displayHeight - barHeight) (barWidth f) barHeight
                 (barWidth f / 2),
          mkRect (getColor f defaultColor (inject_Z (Z.of_nat i)) (inject_Z total)
                    (normalizedValue * 0.3))
                 x displayHeight (barWidth f) (barHeight * 0.2)
                 (barWidth f / 2))
  end.

(** The loop "Draw each bar", on the fields as the smoothing has left
    them. *)
Definition spectrum_bars (f : SpectrumFields) (defaultColor : string)
    (dataArray : list Z) (displayWidth displayHeight : Q)
    : list (option (Rect * Rect)) :=
  let total := totalBars f displayWidth dataArray in
  for_up 0 (Z.to_nat total)
    (λ i drawn, drawn ++ [spectrum_bar f defaultColor dataArray displayHeight total i])
    [].

(** ** WaveVisualizer: the path of a frame *)



(** ** ParticleVisualizer: the opacity of a particle *)

(** [drawParticles]: [1 - (p.life / p.maxLife)] *)
Definition opacity (p : Particle) : Q := (1 - inject_Z (life p) / maxLife p)%Q.

(** * Vocabulary of the further properties *)

(** The steps of [setup] that the browser decides all succeed, with these
    tracks, context, analyser node and recorder. *)
Definition granted (env : Soniq.SetupEnv) (tracks : list nat) (c a r : nat) : Prop :=
  Soniq.getUserMedia env = Soniq.gum_resolves tracks
  ∧ Soniq.new_AudioContext env = inr c
  ∧ Soniq.createAnalyser env = inr a
  ∧ Soniq.createMediaStreamSource env = None
  ∧ Soniq.connect env = None
  ∧ Soniq.new_MediaRecorder env = inr r.

(** The session holds what a successful [setup] has acquired. *)
Definition live (s : Session.t) : Prop :=
  is_Some (Session.stream s) ∧ is_Some (Session.context s)
  ∧ is_Some (Session.analyser s).

(** What holds of the session in every world a page can reach. *)
Definition session_consistent (s : Session.t) : Prop :=
  (Session.isRecording s = true → is_Some (Session.recorder s))
  ∧ (is_Some (Session.recorder s) → live s).

(** A string of hexadecimal digits. *)
Definition hex_digits (l : list ascii) : Prop := Forall (λ c, is_hex c = true) l.



(** [k] display frames. *)
Definition frames (P : Platform) (k : nat) (w : World) : World :=
  Nat.iter k (run_frame P) w.

(** A wave visualizer whose [fftSize] of 100 is not a power of two is
    created next to the bar visualizer of the session. *)
Definition w_odd_fftSize : World :=
  history test_platform
    (ready ++ [OpNew (NewWave (BaseVisualizer.mkOptions None (Some 100)))]).

Definition is_bar (s : Strategy) : bool :=
  match s with
  | Bar _ => true
  | _ => false
  end.

(** The animation loop of visualizer [v] is running on canvas [c]: one
    callback of [v] is scheduled, for that canvas, and the analyser node [a]
    is attached; [bar] tells whether [v] is a bar visualizer. *)
Definition running (v c a : nat) (bar : bool) (w : World) : Prop :=
  ∃ h o,
    scheduled v w = [(h, mkCallback v c)]
    ∧ visualizers w !! v = Some o
    ∧ Vis.analyser o = Some a
    ∧ is_bar (Vis.strategy o) = bar.

(** The spectrum visualizer has been made the current one and started. *)
Definition w_spectrum_started : World :=
  history test_platform
    (two_visualizers ++ [OpSetVisualizer 1; OpSoniqVisualize (Some 0%nat)]).

(** A handle that a visualizer holds in [animationFrameId] was given out by
    the browser, and if a callback is scheduled under that handle, it is a
    callback of that visualizer. *)
Definition handles_owned (w : World) : Prop :=
  ∀ v o h,
    visualizers w !! v = Some o → Vis.animationFrameId o = Some h →
    h < next_handle w
    ∧ ∀ cb, (h, cb) ∈ pending w → cb_visualizer cb = v.

(** The bar visualizer of the session is running, and a spectrum
    visualizer has been given the analyser node and started by its own
    methods: two animation loops run side by side. *)
Definition w_both_running : World :=
  history test_platform
    (two_visualizers ++ [OpSetAnalyser 1 5; OpVisualize 1 (Some 0%nat)]).

(** * Properties *)

(** ** Loops *)

Lemma for_up_invariant {S : Type} (I : S → Prop) (body : nat → S → S) n :
  ∀ i s, I s → (∀ j t, I t → I (body j t)) → I (for_up i n body s).
Proof.
  induction n as [|n IH]; intros i s Hs Hbody; simpl; [done|].
  apply IH; auto.
Qed.

(** ** Spectrum smoothing *)

Section spectrum_smoothing.
Import SpectrumVisualizer.
Local Open Scope Q_scope.

Lemma inject_Z_byte z : is_byte z → in_byte_range (inject_Z z).
Proof.
  intros [H0 H1]. split.
  - change 0 with (inject_Z 0). by rewrite <- Zle_Qle.
  - change 255 with (inject_Z 255). by rewrite <- Zle_Qle.
Qed.

Lemma smooth_bin_in_range s d :
  in_byte_range s → is_byte d → in_byte_range (smooth_bin s d).
Proof.
  intros [Hs0 Hs1] Hd. apply inject_Z_byte in Hd as [Hd0 Hd1].
  unfold in_byte_range, smooth_bin. split; lra.
Qed.

Lemma smoothing_in_range s d :
  Forall in_byte_range s → Forall is_byte d → Forall in_byte_range (smoothing s d).
Proof.
  intros Hs Hd. unfold smoothing.
  destruct (negb _).
  - apply for_up_invariant.
    + apply Forall_replicate. split; lra.
    + intros j t Ht. destruct (d !! j) as [x|] eqn:E; [|done].
      apply Forall_insert; [done|]. apply inject_Z_byte.
      eapply Forall_lookup_1 in Hd; eauto.
  - apply for_up_invariant; [done|].
    intros j t Ht. destruct (t !! j) as [si|] eqn:E1; [|done].
    destruct (d !! j) as [x|] eqn:E2; [|done].
    apply Forall_insert; [done|]. apply smooth_bin_in_range.
    + eapply Forall_lookup_1 in Ht; eauto.
    + eapply Forall_lookup_1 in Hd; eauto.
Qed.

Lemma smooth_loop_lookup (d : list Z) n : ∀ i (s : list Q) j,
  length s = length d → (i + n ≤ length d)%nat →
  for_up i n (λ i s, match s !! i, d !! i with
                     | Some si, Some x => <[i := smooth_bin si x]> s
                     | _, _ => s
                     end) s !! j
  = if bool_decide (i ≤ j < i + n)%nat
    then match s !! j, d !! j with
         | Some a, Some b => Some (smooth_bin a b)
         | _, _ => None
         end
    else s !! j.
Proof.
  induction n as [|n IH]; intros i s j Hlen Hn; simpl.
  - case_bool_decide; [lia|done].
  - destruct (lookup_lt_is_Some_2 s i) as [si Hsi]; [lia|].
    destruct (lookup_lt_is_Some_2 d i) as [x Hx]; [lia|].
    rewrite Hsi, Hx. rewrite IH; [|by rewrite length_insert|lia].
    destruct (decide (j = i)) as [->|Hne].
    + rewrite list_lookup_insert_eq by lia.
      rewrite (bool_decide_eq_false_2 (S i ≤ i < _)%nat) by lia.
      rewrite bool_decide_eq_true_2 by lia. by rewrite Hsi, Hx.
    + rewrite list_lookup_insert_ne by done.
      repeat case_bool_decide; try lia; done.
Qed.

Lemma copy_loop_lookup (d : list Z) n : ∀ i (s : list Q) j,
  length s = length d → (i + n ≤ length d)%nat →
  for_up i n (λ i s, match d !! i with
                     | Some x => <[i := inject_Z x]> s
                     | None => s
                     end) s !! j
  = if bool_decide (i ≤ j < i + n)%nat then inject_Z <$> d !! j else s !! j.
Proof.
  induction n as [|n IH]; intros i s j Hlen Hn; simpl.
  - case_bool_decide; [lia|done].
  - destruct (lookup_lt_is_Some_2 d i) as [x Hx]; [lia|].
    rewrite Hx. rewrite IH; [|by rewrite length_insert|lia].
    destruct (decide (j = i)) as [->|Hne].
    + rewrite list_lookup_insert_eq by lia.
      rewrite (bool_decide_eq_false_2 (S i ≤ i < _)%nat) by lia.
      rewrite bool_decide_eq_true_2 by lia. by rewrite Hx.
    + rewrite list_lookup_insert_ne by done.
      repeat case_bool_decide; try lia; done.
Qed.

(** What the block computes: the raw values when the lengths differ, the
    recurrence on every bin otherwise. *)
Lemma smoothing_spec s d :
  smoothing s d =
  if (length s =? length d)%nat then zip_with smooth_bin s d else inject_Z <$> d.
Proof.
  unfold smoothing. destruct (length s =? length d)%nat eqn:E; simpl.
  - apply Nat.eqb_eq in E. apply list_eq. intros j.
    rewrite smooth_loop_lookup by (done || lia).
    rewrite lookup_zip_with. case_bool_decide as Hj.
    + destruct (s !! j), (d !! j); done.
    + rewrite (lookup_ge_None_2 s j) by lia. done.
  - apply list_eq. intros j.
    rewrite copy_loop_lookup; [|by rewrite length_replicate|lia].
    rewrite list_lookup_fmap. case_bool_decide as Hj; [done|].
    rewrite (proj1 (lookup_replicate_None _ _ _)) by lia.
    rewrite (lookup_ge_None_2 d j) by lia. done.
Qed.

Lemma constant_frames_length V n s : length (constant_frames V n s) = length s.
Proof.
  induction n as [|n IH]; [done|].
  unfold constant_frames in *. simpl. rewrite smoothing_spec.
  rewrite length_replicate, Nat.eqb_refl.
  rewrite length_zip_with, length_replicate. lia.
Qed.


End spectrum_smoothing.

(** ** Particle lifecycle *)

Section particle_lifecycle.
Import ParticleVisualizer.
Context (P : Platform) (W H : Q).

Lemma update_loop_omap (pre post : list Particle) :
  for_down (length pre) (update_at P W H) (pre ++ post)
  = omap (tick P W H) pre ++ post.
Proof.
  revert post. induction pre as [|p pre IH] using rev_ind; intros post; [done|].
  rewrite length_app, Nat.add_1_r. simpl.
  rewrite omap_app. simpl. rewrite <- !app_assoc. simpl.
  unfold update_at at 2. rewrite list_lookup_middle by done.
  unfold tick. simpl.
  assert (<[length pre := advance P p]> (pre ++ p :: post)
          = pre ++ advance P p :: post) as ->.
  { rewrite insert_app_r_alt by lia. by rewrite Nat.sub_diag. }
  destruct (out_of_bounds W H (advance P p) || expired (advance P p)); simpl.
  - rewrite delete_middle. apply IH.
  - rewrite IH. done.
Qed.

Lemma aged_life k p : life (aged P k p) = (life p + Z.of_nat k)%Z.
Proof.
  induction k as [|k IH]; simpl; [lia|].
  unfold aged in *. simpl. rewrite IH. lia.
Qed.

Lemma aged_maxLife k p : maxLife (aged P k p) = maxLife p.
Proof. induction k as [|k IH]; [done|]. unfold aged in *. simpl. done. Qed.

Lemma expired_false p : expired p = false ↔ (inject_Z (life p) <= maxLife p)%Q.
Proof.
  unfold expired. rewrite negb_false_iff. apply Qle_bool_iff.
Qed.

Lemma ticks_Some k p q : ticks P W H k p = Some q → q = aged P k p.
Proof.
  revert q. induction k as [|k IH]; intros q; simpl; [congruence|].
  destruct (ticks P W H k p) as [r|]; [|done]. simpl.
  unfold tick. destruct (_ || _); [done|].
  intros [= <-]. rewrite (IH r eq_refl). done.
Qed.

(** A particle is still there after [k] frames exactly when none of the
    [k] frames found it out of bounds or expired. *)
Lemma ticks_survives k p :
  is_Some (ticks P W H k p) ↔
  ∀ j, (1 ≤ j ≤ k)%nat →
       out_of_bounds W H (aged P j p) = false ∧ expired (aged P j p) = false.
Proof.
  induction k as [|k IH]; simpl.
  - split; [intros _ j Hj; lia|intros _; by eexists].
  - split.
    + intros [q Hq]. destruct (ticks P W H k p) as [r|] eqn:E; [|done].
      simpl in Hq. pose proof (ticks_Some _ _ _ E) as ->.
      unfold tick in Hq.
      destruct (out_of_bounds _ _ _) eqn:E1; [done|].
      destruct (expired _) eqn:E2; [done|].
      intros j Hj. destruct (decide (j = S k)) as [->|Hne]; [done|].
      apply IH; [by eexists|lia].
    + intros Hall. destruct IH as [_ IH].
      destruct IH as [r Hr]; [intros j Hj; apply Hall; lia|].
      rewrite Hr. simpl. pose proof (ticks_Some _ _ _ Hr) as ->.
      unfold tick. destruct (Hall (S k)) as [E1 E2]; [lia|].
      change (advance P (aged P k p)) with (aged P (S k) p).
      rewrite E1, E2. by eexists.
Qed.

Lemma expired_aged k p :
  life p = 0 →
  expired (aged P k p) = false ↔ (inject_Z (Z.of_nat k) <= maxLife p)%Q.
Proof.
  intros H0. rewrite expired_false, aged_life, aged_maxLife, H0. done.
Qed.

Lemma ticks_None_in_time k p :
  life p = 0 →
  ticks P W H k p = None →
  (inject_Z (Z.of_nat k) <= maxLife p)%Q →
  ∃ j, (1 ≤ j ≤ k)%nat ∧ out_of_bounds W H (aged P j p) = true.
Proof.
  intros H0. induction k as [|k IH]; simpl; [done|].
  intros HN Hk. destruct (ticks P W H k p) as [r|] eqn:E.
  - pose proof (ticks_Some _ _ _ E) as ->. simpl in HN. unfold tick in HN.
    change (advance P (aged P k p)) with (aged P (S k) p) in HN.
    rewrite (proj2 (expired_aged (S k) p H0) Hk), orb_false_r in HN.
    exists (S k). split; [lia|]. by destruct (out_of_bounds _ _ _).
  - destruct IH as (j & Hj & Hoob); [done| |].
    + eapply Qle_trans; [|exact Hk]. rewrite <- Zle_Qle. lia.
    + exists j. split; [lia|done].
Qed.

Lemma createParticle_life f o i n :
  life (createParticle P f o W H i n).1 = 0.
Proof.
  unfold createParticle. destruct (particle_colorMode f); simpl; [done| |done].
  repeat (destruct (negb _); simpl; try done).
Qed.

(** [updateParticles] keeps the particles that [tick] keeps, in order, and
    appends the new ones, which start at age 0. *)
Lemma updateParticles_particles f o i n :
  ∃ spawned,
    particles (updateParticles P f o W H i n).1
    = omap (tick P W H) (particles f) ++ spawned
    ∧ Forall (λ q, life q = 0) spawned.
Proof.
  unfold updateParticles.
  pose proof (update_loop_omap (particles f) []) as Hloop.
  rewrite !app_nil_r in Hloop. rewrite Hloop.
  set (base := omap (tick P W H) (particles f)).
  set (body := λ (_ : nat) '(ps, n), _).
  assert (∃ sp, (for_up 0 (Z.to_nat (Math_floor (particleCount f * i * 0.2))) body (base, n)).1
                = base ++ sp ∧ Forall (λ q, life q = 0) sp) as (sp & Hsp & Hall).
  { apply (for_up_invariant
             (λ st : list Particle * nat,
                ∃ sp, st.1 = base ++ sp ∧ Forall (λ q, life q = 0) sp)).
    - exists []. by rewrite app_nil_r.
    - intros j [ps m] (sp & Heq & Hall). simpl in Heq. subst ps.
      unfold body. simpl.
      destruct (negb _); [|by exists sp].
      destruct (createParticle P _ o W H i m) as [p m'] eqn:E. simpl.
      exists (sp ++ [p]). split; [by rewrite app_assoc|].
      apply Forall_app. split; [done|]. constructor; [|done].
      pose proof (createParticle_life (with_particles (base ++ sp) f) o i m) as Hl.
      by rewrite E in Hl. }
  destruct (for_up _ _ _ _) as [ps' n']. simpl in *. by exists sp.
Qed.

End particle_lifecycle.

(** C9. A particle created at age 0 is removed by the first frame in which
    its age exceeds [maxLife], and not before unless it has left the
    surface by more than its size: (1) the loop of [updateParticles] keeps
    exactly the particles that [tick] keeps; (2) new particles start at age
    0; (3) while the particle stays within bounds, it is still there after
    [k] frames exactly when [k <= maxLife], so it is present at age
    [maxLife] and gone at age [maxLife + 1]; (4) if it is gone after
    [k <= maxLife] frames, one of these frames found it out of bounds. *)
Theorem particle_removed_when_age_exceeds_maxLife
    (P : Platform) (W H : Q) (p : Particle) (k : nat) :
  life p = 0 → (1 ≤ k)%nat →
  (∀ ps, for_down (length ps) (ParticleVisualizer.update_at P W H) ps
         = omap (tick P W H) ps)
  ∧ (∀ f o i n, ∃ spawned,
       particles (ParticleVisualizer.updateParticles P f o W H i n).1
       = omap (tick P W H) (particles f) ++ spawned
       ∧ Forall (λ q, life q = 0) spawned)
  ∧ ((∀ j, (1 ≤ j ≤ k)%nat →
           ParticleVisualizer.out_of_bounds W H (aged P j p) = false) →
     (is_Some (ticks P W H k p) ↔ (inject_Z (Z.of_nat k) <= maxLife p)%Q))
  ∧ (ticks P W H k p = None → (inject_Z (Z.of_nat k) <= maxLife p)%Q →
     ∃ j, (1 ≤ j ≤ k)%nat ∧ ParticleVisualizer.out_of_bounds W H (aged P j p) = true).
Proof.
  intros H0 Hk. split; [|split; [|split]].
  - intros ps. pose proof (update_loop_omap P W H ps []) as Hl.
    by rewrite !app_nil_r in Hl.
  - intros f o i n. apply updateParticles_particles.
  - intros Hin. rewrite ticks_survives. split.
    + intros Hall. apply (expired_aged P k p H0). apply Hall. lia.
    + intros Hle j Hj. split; [by apply Hin|].
      apply (expired_aged P j p H0). eapply Qle_trans; [|exact Hle].
      rewrite <- Zle_Qle. lia.
  - by apply ticks_None_in_time.
Qed.

(** ** The animation loop *)

Ltac frame_step_with draws :=
  eexists _, draws; simpl; rewrite <- ?app_assoc; simpl;
  repeat split; eauto.

Section frame_loop.
Context (P : Platform).

Lemma drawWave_step v c w :
  WaveVisualizer.drawWave v c w = w
  ∨ frame_step v c w (WaveVisualizer.drawWave v c w).
Proof.
  unfold WaveVisualizer.drawWave.
  destruct (visualizers w !! v) as [o|]; [|by left].
  destruct (Vis.analyser o); [|by left].
  right. frame_step_with [EvDraw v c WaveFrame].
Qed.

Lemma updateBars_step v c w :
  BarVisualizer.updateBars P v c w = w
  ∨ frame_step v c w (BarVisualizer.updateBars P v c w).
Proof.
  unfold BarVisualizer.updateBars.
  destruct (visualizers w !! v) as [o|]; [|by left].
  destruct (Vis.analyser o); [|by left].
  destruct (Vis.strategy o) as [f| | |]; try by left.
  right. simpl. destruct (negb _).
  - frame_step_with (@nil Event).
  - frame_step_with [EvDraw v c BarFrame].
Qed.

Lemma drawSpectrum_step v c w :
  SpectrumVisualizer.drawSpectrum P v c w = w
  ∨ frame_step v c w (SpectrumVisualizer.drawSpectrum P v c w).
Proof.
  unfold SpectrumVisualizer.drawSpectrum.
  destruct (visualizers w !! v) as [o|]; [|by left].
  destruct (Vis.analyser o); [|by left].
  destruct (Vis.strategy o) as [| |f|]; try by left.
  right. frame_step_with [EvDraw v c SpectrumFrame].
Qed.

Lemma animateParticles_step v c w :
  ParticleVisualizer.animateParticles P v c w = w
  ∨ frame_step v c w (ParticleVisualizer.animateParticles P v c w).
Proof.
  unfold ParticleVisualizer.animateParticles.
  destruct (visualizers w !! v) as [o|]; [|by left].
  destruct (Vis.analyser o); [|by left].
  destruct (Vis.strategy o) as [| | |f]; try by left.
  right. simpl.
  destruct (ParticleVisualizer.updateParticles _ _ _ _ _ _ _) as [f3 m].
  frame_step_with [EvDraw v c ParticleFrame].
Qed.

Lemma invoke_step cb w :
  invoke P cb w = w
  ∨ frame_step (cb_visualizer cb) (cb_canvas cb) w (invoke P cb w).
Proof.
  unfold invoke. destruct (visualizers w !! cb_visualizer cb) as [o|]; [|by left].
  destruct (Vis.strategy o).
  - apply updateBars_step.
  - apply drawWave_step.
  - apply drawSpectrum_step.
  - apply animateParticles_step.
Qed.

Lemma NoDup_handles_filter (Q : Z * Callback → Prop) `{!∀ e, Decision (Q e)}
    (l : list (Z * Callback)) :
  NoDup l.*1 → NoDup (filter Q l).*1.
Proof.
  intros Hnd. eapply sublist_NoDup; [exact Hnd|].
  apply fmap_sublist, sublist_filter.
Qed.

Lemma invariant_same_loop w w' :
  frame_loop_invariant w →
  visualizers w' = visualizers w → pending w' = pending w →
  next_handle w' = next_handle w →
  frame_loop_invariant w'.
Proof.
  unfold frame_loop_invariant. intros Hinv -> -> ->. exact Hinv.
Qed.

Lemma idle_same_pending v w w' : idle v w → pending w' = pending w → idle v w'.
Proof. unfold idle. by intros H ->. Qed.

Lemma invariant_put_same v o o' w :
  frame_loop_invariant w →
  visualizers w !! v = Some o →
  Vis.animationFrameId o' = Vis.animationFrameId o →
  frame_loop_invariant (put_visualizer v o' w).
Proof.
  intros (Hpos & Hnd & Hall) Ho Hid. split; [done|]. split; [done|].
  intros h cb Hin. destruct (Hall h cb Hin) as [Hr (o1 & Ho1 & Hid1)].
  split; [done|]. simpl.
  destruct (decide (cb_visualizer cb = v)) as [Heq|Hne].
  - rewrite Heq in *. rewrite lookup_insert_eq. exists o'. split; [done|]. congruence.
  - rewrite lookup_insert_ne by done. eauto.
Qed.

Lemma invariant_put_idle v o' w :
  frame_loop_invariant w → idle v w →
  frame_loop_invariant (put_visualizer v o' w).
Proof.
  intros (Hpos & Hnd & Hall) Hidle. split; [done|]. split; [done|].
  intros h cb Hin. destruct (Hall h cb Hin) as [Hr (o1 & Ho1 & Hid1)].
  split; [done|]. simpl.
  rewrite lookup_insert_ne by (intros Heq; by eapply (Hidle _ _ Hin)). eauto.
Qed.

Lemma invariant_not_scheduled v w :
  frame_loop_invariant w →
  (∀ o h, visualizers w !! v = Some o → Vis.animationFrameId o = Some h → h = 0) →
  idle v w.
Proof.
  intros (Hpos & Hnd & Hall) Hno h cb Hin <-.
  destruct (Hall h cb Hin) as [Hr (o & Ho & Hid)].
  specialize (Hno o h Ho Hid). lia.
Qed.

(** Taking handle [h] out of the list leaves its visualizer idle. *)
Lemma invariant_remove h cb w :
  frame_loop_invariant w → (h, cb) ∈ pending w →
  frame_loop_invariant (set_pending (filter (λ e, e.1 ≠ h) (pending w)) w)
  ∧ idle (cb_visualizer cb) (set_pending (filter (λ e, e.1 ≠ h) (pending w)) w).
Proof.
  intros (Hpos & Hnd & Hall) Hin. split.
  - split; [done|]. split; [by apply NoDup_handles_filter|].
    intros h' cb' [_ Hin']%list_elem_of_filter. by apply Hall.
  - intros h' cb' [Hne Hin']%list_elem_of_filter Heq. simpl in Hne.
    destruct (Hall h cb Hin) as [_ (o & Ho & Hid)].
    destruct (Hall h' cb' Hin') as [_ (o' & Ho' & Hid')].
    rewrite Heq in Ho'. congruence.
Qed.

Lemma cleanup_invariant v w :
  frame_loop_invariant w →
  frame_loop_invariant (BaseVisualizer.cleanup v w)
  ∧ idle v (BaseVisualizer.cleanup v w).
Proof.
  intros Hinv. unfold BaseVisualizer.cleanup.
  destruct (visualizers w !! v) as [o|] eqn:Ho.
  2:{ split; [done|]. apply invariant_not_scheduled; [done|]. congruence. }
  destruct (Vis.animationFrameId o) as [h|] eqn:Hid.
  2:{ split; [done|]. apply invariant_not_scheduled; [done|]. congruence. }
  destruct (h =? 0) eqn:Hz.
  { split; [done|]. apply invariant_not_scheduled; [done|].
    intros o' h' ??. apply Z.eqb_eq in Hz. congruence. }
  assert (idle v (set_pending (filter (λ e, e.1 ≠ h) (pending w)) w)) as Hidle.
  { destruct Hinv as (Hpos & Hnd & Hall).
    intros h' cb' [Hne Hin']%list_elem_of_filter Heq. simpl in Hne.
    destruct (Hall h' cb' Hin') as [_ (o' & Ho' & Hid')].
    rewrite Heq in Ho'. congruence. }
  assert (frame_loop_invariant (set_pending (filter (λ e, e.1 ≠ h) (pending w)) w))
    as Hinv'.
  { destruct Hinv as (Hpos & Hnd & Hall).
    split; [done|]. split; [by apply NoDup_handles_filter|].
    intros h' cb' [_ Hin']%list_elem_of_filter. by apply Hall. }
  split.
  - eapply invariant_same_loop; [eapply (invariant_put_idle v _ _ Hinv' Hidle)|done..].
  - eapply idle_same_pending; [exact Hidle|done].
Qed.

Lemma frame_step_invariant v c w w' :
  frame_loop_invariant w → idle v w → frame_step v c w w' →
  frame_loop_invariant w'.
Proof.
  intros (Hpos & Hnd & Hall) Hidle (o' & draws & Hp & Hn & Hv & Hid & _).
  split; [lia|]. split.
  - rewrite Hp, fmap_app. simpl. apply NoDup_app. split; [done|].
    split; [|apply NoDup_singleton].
    intros h [[h' cb] [Heq Hin]]%list_elem_of_fmap Hh%list_elem_of_singleton.
    simpl in Heq. subst. destruct (Hall _ _ Hin) as [Hr _]. lia.
  - intros h cb Hin. rewrite Hp in Hin. rewrite Hn, Hv.
    apply elem_of_app in Hin as [Hin|Hin%list_elem_of_singleton].
    + destruct (Hall h cb Hin) as [Hr (o & Ho & Hoid)]. split; [lia|].
      rewrite lookup_insert_ne by (intros Heq; by eapply (Hidle _ _ Hin)). eauto.
    + injection Hin as -> ->. split; [lia|]. simpl.
      rewrite lookup_insert_eq. eauto.
Qed.

Lemma draw_invariant v c w w' :
  frame_loop_invariant w → idle v w →
  w' = w ∨ frame_step v c w w' →
  frame_loop_invariant w'.
Proof.
  intros Hinv Hidle [->|Hstep]; [done|]. by eapply frame_step_invariant.
Qed.

Lemma run_callback_invariant h w :
  frame_loop_invariant w → frame_loop_invariant (run_callback P h w).
Proof.
  intros Hinv. unfold run_callback.
  destruct (list_find _ _) as [[i [h' cb]]|] eqn:Hfind; [|done].
  apply list_find_Some in Hfind as (Hi & Hh & _). simpl in Hh. subst h'.
  apply list_elem_of_lookup_2 in Hi.
  destruct (invariant_remove h cb w Hinv Hi) as [Hinv' Hidle].
  eapply draw_invariant; [exact Hinv'|exact Hidle|apply invoke_step].
Qed.

Lemma run_frame_invariant w :
  frame_loop_invariant w → frame_loop_invariant (run_frame P w).
Proof.
  unfold run_frame. generalize (pending w).*1 as hs. intros hs. revert w.
  induction hs as [|h hs IH]; intros w Hinv; simpl; [done|].
  apply IH. by apply run_callback_invariant.
Qed.

(** Steps that leave an idle visualizer idle. *)
Lemma quiet_put v o' w :
  frame_loop_invariant w ∧ idle v w →
  frame_loop_invariant (put_visualizer v o' w) ∧ idle v (put_visualizer v o' w).
Proof. intros [Hinv Hidle]. split; [by apply invariant_put_idle|done]. Qed.

Lemma quiet_setupHighDPICanvas v c w :
  frame_loop_invariant w ∧ idle v w →
  frame_loop_invariant (BaseVisualizer.setupHighDPICanvas P v c w)
  ∧ idle v (BaseVisualizer.setupHighDPICanvas P v c w).
Proof.
  intros Hq. unfold BaseVisualizer.setupHighDPICanvas.
  destruct (visualizers w !! v) as [o|]; [|done].
  destruct (canvases w !! c) as [cv|]; [|done].
  apply (quiet_put v (Vis.set_dpr (Q_or (Some (devicePixelRatio P)) 1) o)) in Hq.
  exact Hq.
Qed.

Lemma BarVisualizer_visualize_invariant v canvas w :
  frame_loop_invariant w →
  frame_loop_invariant (BarVisualizer.visualize P v canvas w).2.
Proof.
  intros Hinv. unfold BarVisualizer.visualize.
  destruct (BaseVisualizer.can_visualize v canvas w) as [c|]; [|done]. simpl.
  pose proof (quiet_setupHighDPICanvas v c _ (cleanup_invariant v w Hinv)) as Hq.
  set (w2 := BaseVisualizer.setupHighDPICanvas P v c (BaseVisualizer.cleanup v w)) in *.
  eapply draw_invariant; [| |apply updateBars_step];
    destruct (visualizers w2 !! v) as [o|]; try apply Hq;
    destruct (Vis.strategy o); try apply Hq;
    by apply (quiet_put v _ w2).
Qed.

Lemma WaveVisualizer_visualize_invariant v canvas w :
  frame_loop_invariant w →
  frame_loop_invariant (WaveVisualizer.visualize P v canvas w).2.
Proof.
  intros Hinv. unfold WaveVisualizer.visualize.
  destruct (BaseVisualizer.can_visualize v canvas w) as [c|]; [|done]. simpl.
  pose proof (quiet_setupHighDPICanvas v c _ (cleanup_invariant v w Hinv)) as Hq.
  eapply draw_invariant; [apply Hq|apply Hq|apply drawWave_step].
Qed.

Lemma SpectrumVisualizer_visualize_invariant v canvas w :
  frame_loop_invariant w →
  frame_loop_invariant (SpectrumVisualizer.visualize P v canvas w).2.
Proof.
  intros Hinv. unfold SpectrumVisualizer.visualize.
  destruct (BaseVisualizer.can_visualize v canvas w) as [c|]; [|done]. simpl.
  pose proof (quiet_setupHighDPICanvas v c _ (cleanup_invariant v w Hinv)) as Hq.
  set (w2 := BaseVisualizer.setupHighDPICanvas P v c (BaseVisualizer.cleanup v w)) in *.
  eapply draw_invariant; [| |apply drawSpectrum_step];
    destruct (visualizers w2 !! v) as [o|]; try apply Hq;
    destruct (Vis.analyser o); try apply Hq;
    destruct (Vis.strategy o); try apply Hq;
    by apply (quiet_put v _ w2).
Qed.

Lemma ParticleVisualizer_visualize_invariant v canvas w :
  frame_loop_invariant w →
  frame_loop_invariant (ParticleVisualizer.visualize P v canvas w).2.
Proof.
  intros Hinv. unfold ParticleVisualizer.visualize.
  destruct (BaseVisualizer.can_visualize v canvas w) as [c|]; [|done]. simpl.
  pose proof (quiet_setupHighDPICanvas v c _ (cleanup_invariant v w Hinv)) as Hq.
  set (w2 := BaseVisualizer.setupHighDPICanvas P v c (BaseVisualizer.cleanup v w)) in *.
  eapply draw_invariant; [| |apply animateParticles_step];
    destruct (visualizers w2 !! v) as [o|]; try apply Hq;
    destruct (Vis.strategy o); try apply Hq;
    by apply (quiet_put v _ w2).
Qed.

Lemma visualize_invariant v canvas w :
  frame_loop_invariant w →
  frame_loop_invariant (Visualizer.visualize P v canvas w).2.
Proof.
  intros Hinv. unfold Visualizer.visualize.
  destruct (visualizers w !! v) as [o|]; [|done].
  destruct (Vis.strategy o).
  - by apply BarVisualizer_visualize_invariant.
  - by apply WaveVisualizer_visualize_invariant.
  - by apply SpectrumVisualizer_visualize_invariant.
  - by apply ParticleVisualizer_visualize_invariant.
Qed.

Lemma setAnalyser_invariant v a w :
  frame_loop_invariant w →
  frame_loop_invariant (BaseVisualizer.setAnalyser P v a w).2.
Proof.
  intros Hinv. unfold BaseVisualizer.setAnalyser.
  destruct (visualizers w !! v) as [o|] eqn:Ho; [|done].
  pose proof (invariant_put_same v o (Vis.set_analyser (Some a) o) w Hinv Ho eq_refl)
    as Hinv1.
  destruct (fftSize_ok P (Vis.fftSize o)); [|done]. simpl.
  eapply (invariant_put_same v (Vis.set_analyser (Some a) o)); [| |done].
  - eapply invariant_same_loop; [exact Hinv1|done..].
  - simpl. apply lookup_insert_eq.
Qed.

End frame_loop.

(** ** Computations that may throw *)

Lemma bind_preserves {A B} (I : World → Prop) (m : JS A) (k : A → JS B) :
  (∀ w, I w → I (m w).2) → (∀ a w, I w → I (k a w).2) →
  ∀ w, I w → I (bind m k w).2.
Proof.
  intros Hm Hk w Hw. unfold bind. specialize (Hm w Hw).
  destruct (m w) as [[a|e] w1]; simpl in *; [by apply Hk|done].
Qed.

Ltac split_bind :=
  lazymatch goal with
  | |- ∀ w, _ → _ (bind _ _ w).2 => apply bind_preserves; [|intros ?]
  end.

Lemma lift_sum_preserves {A} (I : World → Prop) (r : Error + A) w :
  I w → I (Soniq.lift_sum r w).2.
Proof. by destruct r. Qed.

Lemma lift_opt_preserves (I : World → Prop) (r : option Error) w :
  I w → I (Soniq.lift_opt r w).2.
Proof. by destruct r. Qed.

(** ** Teardown *)

Section teardown.
Context (P : Platform).

Lemma stop_tracks_spec tracks w :
  foldl (λ w t, emit (EvTrackStop t) w) w tracks
  = set_log (log w ++ (EvTrackStop <$> tracks)) w.
Proof.
  revert w. induction tracks as [|t tracks IH]; intros w; simpl.
  - rewrite app_nil_r. by destruct w.
  - rewrite IH. unfold emit, set_log. simpl. by rewrite <- app_assoc.
Qed.

(** [BaseVisualizer.cleanup] touches the loop and the log only. *)
Lemma BaseVisualizer_cleanup_frame v w :
  soniq (BaseVisualizer.cleanup v w) = soniq w
  ∧ analysers (BaseVisualizer.cleanup v w) = analysers w
  ∧ canvases (BaseVisualizer.cleanup v w) = canvases w
  ∧ next_handle (BaseVisualizer.cleanup v w) = next_handle w
  ∧ ∃ cancelled, log (BaseVisualizer.cleanup v w) = log w ++ cancelled
       ∧ Forall is_release cancelled.
Proof.
  unfold BaseVisualizer.cleanup.
  destruct (visualizers w !! v) as [o|];
    [|repeat split; exists []; by rewrite app_nil_r].
  destruct (Vis.animationFrameId o) as [h|];
    [|repeat split; exists []; by rewrite app_nil_r].
  destruct (h =? 0); [repeat split; exists []; by rewrite app_nil_r|].
  repeat split. exists [EvCancelAnimationFrame h]. split; [done|].
  by repeat constructor.
Qed.

Lemma Soniq_cleanup_spec w :
  Soniq.cleanup w
  = update_soniq
      (λ s, Session.mk None (Session.context s) None [] false None
              (Session.fftSize s) (Session.defaultColor s) (Session.visualizer s))
      (set_log (log (BaseVisualizer.cleanup (Session.visualizer (soniq w)) w)
                ++ release_events (soniq w))
         (BaseVisualizer.cleanup (Session.visualizer (soniq w)) w)).
Proof.
  unfold Soniq.cleanup, release_events.
  destruct (BaseVisualizer_cleanup_frame (Session.visualizer (soniq w)) w)
    as (Hs & _).
  set (w1 := BaseVisualizer.cleanup (Session.visualizer (soniq w)) w) in *.
  rewrite Hs.
  destruct (Session.stream (soniq w)) as [tracks|]; simpl.
  - rewrite stop_tracks_spec. simpl. rewrite Hs.
    destruct (Session.context (soniq w)) as [c|]; simpl.
    + unfold emit, update_soniq, set_log, set_soniq. simpl.
      by rewrite Hs, <- app_assoc.
    + unfold update_soniq, set_log, set_soniq. simpl.
      by rewrite Hs, app_nil_r.
  - rewrite Hs. destruct (Session.context (soniq w)) as [c|]; simpl.
    + unfold emit, update_soniq, set_log, set_soniq. simpl. by rewrite Hs.
    + unfold update_soniq, set_log, set_soniq. simpl.
      rewrite Hs, app_nil_r. by destruct w1.
Qed.

Lemma Soniq_cleanup_torn_down w : torn_down (soniq (Soniq.cleanup w)).
Proof. rewrite Soniq_cleanup_spec. by repeat split. Qed.

Lemma Soniq_cleanup_invariant w :
  frame_loop_invariant w → frame_loop_invariant (Soniq.cleanup w).
Proof.
  intros Hinv. rewrite Soniq_cleanup_spec.
  eapply invariant_same_loop;
    [apply (cleanup_invariant (Session.visualizer (soniq w)) w Hinv)|done..].
Qed.

End teardown.

(** ** Every step keeps the loop invariant *)

Section steps.
Context (P : Platform).

Lemma setup_failed_invariant e w :
  frame_loop_invariant w → frame_loop_invariant (Soniq.setup_failed e w).
Proof. intros Hinv. by apply Soniq_cleanup_invariant. Qed.

Lemma setup_body_invariant env :
  ∀ w, frame_loop_invariant w → frame_loop_invariant (Soniq.setup_body P env w).2.
Proof.
  unfold Soniq.setup_body.
  repeat split_bind;
    intros w Hinv;
    first [ by apply lift_sum_preserves
          | by apply lift_opt_preserves
          | by apply setAnalyser_invariant
          | exact Hinv
          | idtac ].
  - by destruct (Soniq.getUserMedia env).
  - by destruct (fftSize_ok P _).
Qed.

Lemma setVisualizer_invariant v :
  ∀ w, frame_loop_invariant w → frame_loop_invariant (Soniq.setVisualizer P v w).2.
Proof.
  unfold Soniq.setVisualizer.
  repeat split_bind;
    intros w Hinv;
    first [ by apply cleanup_invariant | exact Hinv | idtac ].
  match goal with a : option nat |- _ => destruct a end;
    [by apply setAnalyser_invariant|done].
Qed.

Lemma exec_invariant op w :
  frame_loop_invariant w → frame_loop_invariant (exec P op w).
Proof.
  intros Hinv. destruct op; simpl.
  - (* OpNew *)
    destruct Hinv as (Hpos & Hnd & Hall). split; [done|]. split; [done|].
    intros h cb Hin. destruct (Hall h cb Hin) as [Hr (o & Ho & Hid)].
    split; [done|]. exists o. split; [|done]. simpl.
    rewrite lookup_insert_ne; [done|]. intros Heq.
    pose proof (is_fresh (dom (visualizers w))) as Hfresh.
    apply Hfresh. rewrite Heq. apply elem_of_dom. eauto.
  - done.
  - by apply setAnalyser_invariant.
  - by apply visualize_invariant.
  - by apply cleanup_invariant.
  - by apply run_frame_invariant.
  - unfold Soniq.setup_begin. apply Soniq_cleanup_invariant in Hinv.
    destruct (Soniq.getUserMedia env); simpl; [|done..].
    by apply setup_failed_invariant.
  - unfold Soniq.setup_resume.
    pose proof (setup_body_invariant env w Hinv) as Hb.
    destruct (Soniq.setup_body P env w) as [[[]|e] w']; simpl in *; [done|].
    by apply setup_failed_invariant.
  - unfold Soniq.record. destruct (Session.recorder _); [|done].
    by destruct start.
  - unfold Soniq.stop. destruct (Session.recorder _); [|done].
    destruct (negb _); [done|]. by destruct stop_.
  - unfold Soniq.cancel. destruct (Session.recorder _); [|done].
    destruct (negb _); [done|]. destruct stop_; [done|].
    by apply Soniq_cleanup_invariant.
  - unfold Soniq.ondataavailable. by destruct (Session.isRecording _).
  - unfold Soniq.onstop. destruct (negb _); [done|].
    by apply Soniq_cleanup_invariant.
  - by apply visualize_invariant.
  - case_decide; [|done]. by apply setVisualizer_invariant.
  - by apply Soniq_cleanup_invariant.
Qed.

Lemma reachable_invariant w : reachable P w → frame_loop_invariant w.
Proof.
  induction 1 as [options c|op w _ IH]; [|by apply exec_invariant].
  split; [done|]. split; [constructor|]. intros h cb Hin. inversion Hin.
Qed.

Lemma reachable_foldl ops :
  ∀ w, reachable P w → reachable P (foldl (λ w op, exec P op w) w ops).
Proof.
  induction ops as [|op ops IH]; intros w Hw; simpl; [done|].
  apply IH. by constructor.
Qed.

Lemma reachable_history ops : reachable P (history P ops).
Proof.
  apply reachable_foldl.
  apply (reachable_new P (Soniq.mkOptions None None) None).
Qed.

End steps.

(** ** One loop, one draw per frame *)

Section one_loop.
Context (P : Platform).
Local Open Scope nat_scope.

Lemma filter_length_mono {A} (Q1 Q2 : A → Prop)
    `{!∀ x, Decision (Q1 x)} `{!∀ x, Decision (Q2 x)} (l : list A) :
  (∀ x, x ∈ l → Q1 x → Q2 x) → length (filter Q1 l) ≤ length (filter Q2 l).
Proof.
  induction l as [|a l IH]; intros Himp; [done|].
  rewrite !filter_cons.
  assert (length (filter Q1 l) ≤ length (filter Q2 l)) as Hl.
  { apply IH. intros x Hx. apply Himp. by right. }
  destruct (decide (Q1 a)) as [H1|H1]; destruct (decide (Q2 a)) as [H2|H2];
    simpl; try lia.
  destruct H2. apply Himp; [by left|done].
Qed.

Lemma filter_length_strict {A} (Q1 Q2 : A → Prop)
    `{!∀ x, Decision (Q1 x)} `{!∀ x, Decision (Q2 x)} (l : list A) (a : A) :
  (∀ x, x ∈ l → Q1 x → Q2 x) → a ∈ l → Q2 a → ¬ Q1 a →
  length (filter Q1 l) < length (filter Q2 l).
Proof.
  induction l as [|b l IH]; intros Himp Hin H2 H1; [by inversion Hin|].
  rewrite !filter_cons.
  assert (length (filter Q1 l) ≤ length (filter Q2 l)) as Hl.
  { apply filter_length_mono. intros x Hx. apply Himp. by right. }
  apply elem_of_cons in Hin as [Heq|Hin].
  - subst b. rewrite (decide_False (P := Q1 a)) by done.
    rewrite (decide_True (P := Q2 a)) by done. simpl. lia.
  - assert (length (filter Q1 l) < length (filter Q2 l)) as Hlt.
    { apply IH; [|done..]. intros x Hx. apply Himp. by right. }
    destruct (decide (Q1 b)) as [Hb1|Hb1]; destruct (decide (Q2 b)) as [Hb2|Hb2];
      simpl; try lia.
    destruct Hb2. apply Himp; [by left|done].
Qed.

Lemma frames_drawn_app v l1 l2 :
  frames_drawn v (l1 ++ l2) = (frames_drawn v l1 + frames_drawn v l2)%nat.
Proof. unfold frames_drawn. by rewrite filter_app, length_app. Qed.

Lemma scheduled_at_most_one v w :
  frame_loop_invariant w → (length (scheduled v w) ≤ 1)%nat.
Proof.
  intros (Hpos & Hnd & Hall).
  assert (NoDup (scheduled v w).*1) as Hnd' by by apply NoDup_handles_filter.
  assert (∀ e, e ∈ scheduled v w →
            ∃ o, visualizers w !! v = Some o ∧ Vis.animationFrameId o = Some e.1)
    as Hsame.
  { intros [h cb] [Hv Hin]%list_elem_of_filter. simpl in Hv. subst v.
    by destruct (Hall h cb Hin) as [_ ?]. }
  destruct (scheduled v w) as [|a [|b l]]; simpl; [lia..|].
  destruct (Hsame a) as (o1 & Ho1 & Hid1); [by left|].
  destruct (Hsame b) as (o2 & Ho2 & Hid2); [right; by left|].
  simpl in Hnd'. inversion Hnd' as [|? ? Hnotin _]; subst.
  destruct Hnotin. assert (a.1 = b.1) as -> by congruence. by left.
Qed.

Lemma frames_drawn_other v v' c op :
  v' ≠ v → frames_drawn v [EvDraw v' c op] = 0.
Proof.
  intros Hne. unfold frames_drawn. rewrite filter_cons, filter_nil.
  rewrite decide_False; [done|]. simpl.
  destruct op; try done; by rewrite bool_decide_eq_false_2.
Qed.

Lemma frames_drawn_one v e : frames_drawn v [e] ≤ 1.
Proof.
  unfold frames_drawn. rewrite filter_cons, filter_nil.
  destruct (decide _); simpl; lia.
Qed.

(** Running the callback of handle [h]: what visualizer [v] draws is paid
    for by a callback of [v] that leaves the list. *)
Lemma run_callback_frames_drawn v h hs w :
  frame_loop_invariant w → h ∉ hs →
  (∀ h', h' ∈ hs → (h' < next_handle w)%Z) →
  (next_handle w ≤ next_handle (run_callback P h w))%Z
  ∧ frames_drawn v (log (run_callback P h w))
    + length (filter (λ e, e.1 ∈ hs ∧ cb_visualizer e.2 = v)
                (pending (run_callback P h w)))
    ≤ frames_drawn v (log w)
      + length (filter (λ e, e.1 ∈ h :: hs ∧ cb_visualizer e.2 = v) (pending w)).
Proof.
  intros Hinv Hh Hlt. unfold run_callback.
  destruct (list_find _ _) as [[i [h' cb]]|] eqn:Hfind.
  2:{ split; [lia|]. apply Nat.add_le_mono_l, filter_length_mono.
      intros x _ [H1 H2]. split; [by right|done]. }
  apply list_find_Some in Hfind as (Hi & Heq & _). simpl in Heq. subst h'.
  apply list_elem_of_lookup_2 in Hi.
  set (w_rem := set_pending (filter (λ e, e.1 ≠ h) (pending w)) w).
  assert (length (filter (λ e, e.1 ∈ hs ∧ cb_visualizer e.2 = v) (pending w_rem))
          ≤ length (filter (λ e, e.1 ∈ h :: hs ∧ cb_visualizer e.2 = v) (pending w)))
    as Hmono.
  { simpl. rewrite list_filter_filter. apply filter_length_mono.
    intros x _ [[H1 H2] _]. split; [by right|done]. }
  destruct (invoke_step P cb w_rem) as [Hsame|Hstep].
  { rewrite Hsame. split; [simpl; lia|]. by apply Nat.add_le_mono_l. }
  destruct Hstep as (o' & draws & Hp & Hn & Hv & Hid & Hs & Hlog & Hdraws).
  rewrite Hp, Hlog, Hn. simpl next_handle. split; [lia|].
  rewrite frames_drawn_app, filter_app.
  rewrite (filter_cons_False _ (next_handle w, _)).
  2:{ simpl. intros [Hin _]. specialize (Hlt _ Hin). lia. }
  rewrite filter_nil, app_nil_r.
  change (EvRequestAnimationFrame (next_handle w) (cb_visualizer cb) (cb_canvas cb) :: draws)
    with ([EvRequestAnimationFrame (next_handle w) (cb_visualizer cb) (cb_canvas cb)] ++ draws).
  rewrite frames_drawn_app.
  assert (frames_drawn v [EvRequestAnimationFrame (next_handle w)
                            (cb_visualizer cb) (cb_canvas cb)] = 0) as -> by done.
  simpl log. simpl Nat.add.
  destruct (decide (cb_visualizer cb = v)) as [Hv'|Hv'].
  - assert (frames_drawn v draws ≤ 1) as Hd.
    { destruct Hdraws as [->|[op ->]]; [by apply Nat.le_0_l|apply frames_drawn_one]. }
    assert (length (filter (λ e, e.1 ∈ hs ∧ cb_visualizer e.2 = v) (pending w_rem))
            < length (filter (λ e, e.1 ∈ h :: hs ∧ cb_visualizer e.2 = v) (pending w)))
      as Hstrict.
    { simpl. rewrite list_filter_filter.
      apply (filter_length_strict _ _ _ (h, cb)); [|done| |].
      - intros x _ [[H1 H2] _]. split; [by right|done].
      - split; [by left|done].
      - intros [_ Hne]. by apply Hne. }
    unfold w_rem in Hstrict. simpl in Hstrict. lia.
  - assert (frames_drawn v draws = 0) as ->.
    { destruct Hdraws as [->|[op ->]]; [done|by apply frames_drawn_other]. }
    unfold w_rem in Hmono. simpl in Hmono. lia.
Qed.

Lemma run_callbacks_frames_drawn v hs :
  ∀ w, frame_loop_invariant w → NoDup hs →
  (∀ h, h ∈ hs → (h < next_handle w)%Z) →
  frames_drawn v (log (foldl (λ w h, run_callback P h w) w hs))
  ≤ frames_drawn v (log w)
    + length (filter (λ e, e.1 ∈ hs ∧ cb_visualizer e.2 = v) (pending w)).
Proof.
  induction hs as [|h hs IH]; intros w Hinv Hnd Hlt; simpl; [lia|].
  apply NoDup_cons in Hnd as [Hh Hnd].
  destruct (run_callback_frames_drawn v h hs w Hinv Hh) as [Hnext Hstep].
  { intros h' Hh'. apply Hlt. by right. }
  etrans; [apply IH|exact Hstep]; [by apply run_callback_invariant|done|].
  intros h' Hh'. assert (h' < next_handle w)%Z; [apply Hlt; by right|lia].
Qed.

Lemma run_frame_frames_drawn v w :
  frame_loop_invariant w →
  frames_drawn v (log (run_frame P w)) ≤ frames_drawn v (log w) + 1.
Proof.
  intros Hinv. unfold run_frame.
  etrans; [apply run_callbacks_frames_drawn|]; [done|apply Hinv| |].
  - intros h [[h' cb] [-> Hin]]%list_elem_of_fmap.
    destruct Hinv as (_ & _ & Hall). destruct (Hall _ _ Hin) as [Hr _].
    simpl. lia.
  - apply Nat.add_le_mono_l. etrans; [|apply (scheduled_at_most_one v w Hinv)].
    apply filter_length_mono. by intros x _ [_ ?].
Qed.

End one_loop.

(** ** visualize *)

Section visualize.
Context (P : Platform).

Lemma setupHighDPICanvas_frame v c w :
  pending (BaseVisualizer.setupHighDPICanvas P v c w) = pending w
  ∧ next_handle (BaseVisualizer.setupHighDPICanvas P v c w) = next_handle w
  ∧ soniq (BaseVisualizer.setupHighDPICanvas P v c w) = soniq w
  ∧ analysers (BaseVisualizer.setupHighDPICanvas P v c w) = analysers w
  ∧ log (BaseVisualizer.setupHighDPICanvas P v c w) = log w.
Proof.
  unfold BaseVisualizer.setupHighDPICanvas.
  destruct (visualizers w !! v); [|done]. by destruct (canvases w !! c).
Qed.

Ltac prepared_with c inits :=
  match goal with
  | |- prepared ?v ?w _ =>
    destruct (setupHighDPICanvas_frame v c (BaseVisualizer.cleanup v w))
      as (Hp & Hn & Hs & Ha & Hl);
    destruct (BaseVisualizer_cleanup_frame v w) as (Hs' & Ha' & _ & Hn' & _);
    repeat match goal with x := _ |- _ => subst x end;
    unfold prepared; split_and!; simpl; try congruence;
    exists inits; simpl; rewrite ?app_nil_r; split;
    [congruence|repeat constructor]
  end.

Lemma BarVisualizer_visualize_spec v canvas w :
  match BaseVisualizer.can_visualize v canvas w with
  | None => BarVisualizer.visualize P v canvas w = (false, w)
  | Some c =>
    ∃ w_mid, prepared v w w_mid
      ∧ BarVisualizer.visualize P v canvas w
        = (true, BarVisualizer.updateBars P v c w_mid)
  end.
Proof.
  unfold BarVisualizer.visualize.
  destruct (BaseVisualizer.can_visualize v canvas w) as [c|]; [|done].
  eexists. split; [|reflexivity].
  unfold BarVisualizer.initializeDefaultBars.
  set (w2 := BaseVisualizer.setupHighDPICanvas P v c (BaseVisualizer.cleanup v w)).
  destruct (visualizers w2 !! v) as [o|];
    [destruct (Vis.strategy o)|];
    prepared_with c [EvDraw v c DefaultBars].
Qed.

Lemma WaveVisualizer_visualize_spec v canvas w :
  match BaseVisualizer.can_visualize v canvas w with
  | None => WaveVisualizer.visualize P v canvas w = (false, w)
  | Some c =>
    ∃ w_mid, prepared v w w_mid
      ∧ WaveVisualizer.visualize P v canvas w
        = (true, WaveVisualizer.drawWave v c w_mid)
  end.
Proof.
  unfold WaveVisualizer.visualize.
  destruct (BaseVisualizer.can_visualize v canvas w) as [c|]; [|done].
  eexists. split; [|reflexivity]. prepared_with c (@nil Event).
Qed.

Lemma SpectrumVisualizer_visualize_spec v canvas w :
  match BaseVisualizer.can_visualize v canvas w with
  | None => SpectrumVisualizer.visualize P v canvas w = (false, w)
  | Some c =>
    ∃ w_mid, prepared v w w_mid
      ∧ SpectrumVisualizer.visualize P v canvas w
        = (true, SpectrumVisualizer.drawSpectrum P v c w_mid)
  end.
Proof.
  unfold SpectrumVisualizer.visualize.
  destruct (BaseVisualizer.can_visualize v canvas w) as [c|]; [|done].
  eexists. split; [|reflexivity].
  set (w2 := BaseVisualizer.setupHighDPICanvas P v c (BaseVisualizer.cleanup v w)).
  destruct (visualizers w2 !! v) as [o|];
    [destruct (Vis.analyser o); [destruct (Vis.strategy o)|]|];
    prepared_with c (@nil Event).
Qed.

Lemma ParticleVisualizer_visualize_spec v canvas w :
  match BaseVisualizer.can_visualize v canvas w with
  | None => ParticleVisualizer.visualize P v canvas w = (false, w)
  | Some c =>
    ∃ w_mid, prepared v w w_mid
      ∧ ParticleVisualizer.visualize P v canvas w
        = (true, ParticleVisualizer.animateParticles P v c w_mid)
  end.
Proof.
  unfold ParticleVisualizer.visualize.
  destruct (BaseVisualizer.can_visualize v canvas w) as [c|]; [|done].
  eexists. split; [|reflexivity].
  set (w2 := BaseVisualizer.setupHighDPICanvas P v c (BaseVisualizer.cleanup v w)).
  destruct (visualizers w2 !! v) as [o|];
    [destruct (Vis.strategy o)|];
    prepared_with c [EvDraw v c Background].
Qed.

(** [visualize], whatever the strategy: it refuses and changes nothing, or
    it cleans up, prepares, and calls the draw method once. *)
Lemma visualize_spec v canvas w :
  match BaseVisualizer.can_visualize v canvas w with
  | None => Visualizer.visualize P v canvas w = (false, w)
  | Some c =>
    ∃ w_mid w', prepared v w w_mid
      ∧ Visualizer.visualize P v canvas w = (true, w')
      ∧ (w' = w_mid ∨ frame_step v c w_mid w')
  end.
Proof.
  unfold Visualizer.visualize.
  destruct (visualizers w !! v) as [o|] eqn:Ho.
  2:{ unfold BaseVisualizer.can_visualize. by rewrite Ho. }
  destruct (Vis.strategy o).
  - pose proof (BarVisualizer_visualize_spec v canvas w) as H.
    destruct (BaseVisualizer.can_visualize v canvas w) as [c|]; [|done].
    destruct H as (w_mid & Hprep & ->). eexists _, _.
    split; [done|]. split; [done|]. apply updateBars_step.
  - pose proof (WaveVisualizer_visualize_spec v canvas w) as H.
    destruct (BaseVisualizer.can_visualize v canvas w) as [c|]; [|done].
    destruct H as (w_mid & Hprep & ->). eexists _, _.
    split; [done|]. split; [done|]. apply drawWave_step.
  - pose proof (SpectrumVisualizer_visualize_spec v canvas w) as H.
    destruct (BaseVisualizer.can_visualize v canvas w) as [c|]; [|done].
    destruct H as (w_mid & Hprep & ->). eexists _, _.
    split; [done|]. split; [done|]. apply drawSpectrum_step.
  - pose proof (ParticleVisualizer_visualize_spec v canvas w) as H.
    destruct (BaseVisualizer.can_visualize v canvas w) as [c|]; [|done].
    destruct H as (w_mid & Hprep & ->). eexists _, _.
    split; [done|]. split; [done|]. apply animateParticles_step.
Qed.

End visualize.

Lemma can_visualize_Some v canvas w c :
  BaseVisualizer.can_visualize v canvas w = Some c ↔
  canvas = Some c
  ∧ (∃ o, visualizers w !! v = Some o ∧ is_Some (Vis.analyser o))
  ∧ ∃ cv, canvases w !! c = Some cv ∧ context2d cv = true.
Proof.
  unfold BaseVisualizer.can_visualize. split.
  - destruct (visualizers w !! v) as [o|]; [|done].
    destruct canvas as [c'|]; [|done].
    destruct (Vis.analyser o) as [a|] eqn:Ha; [|done].
    destruct (canvases w !! c') as [cv|] eqn:Hc; [|done].
    destruct (context2d cv) eqn:Hctx; [|done].
    intros [= ->]. split; [done|]. split; [|by eauto].
    exists o. split; [done|]. rewrite Ha. by eexists.
  - intros (-> & (o & -> & [a ->]) & (cv & -> & ->)). done.
Qed.

(** C7. For every visualizer strategy, [visualize(canvas)] returns true
    exactly when an analyser is attached and the canvas gives a 2D context;
    when it returns false nothing has changed: no callback is scheduled and
    no field of the visualizer is written. *)
Theorem visualize_true_iff_analyser_and_context
    (P : Platform) (v : nat) (canvas : option nat) (w : World) (o : Vis.t) :
  visualizers w !! v = Some o →
  ((Visualizer.visualize P v canvas w).1 = true ↔
     is_Some (Vis.analyser o)
     ∧ ∃ c cv, canvas = Some c ∧ canvases w !! c = Some cv ∧ context2d cv = true)
  ∧ ((Visualizer.visualize P v canvas w).1 = false →
     (Visualizer.visualize P v canvas w).2 = w).
Proof.
  intros Ho. pose proof (visualize_spec P v canvas w) as Hspec.
  destruct (BaseVisualizer.can_visualize v canvas w) as [c|] eqn:Hcan.
  - destruct Hspec as (w_mid & w' & _ & -> & _). simpl.
    apply can_visualize_Some in Hcan as (-> & (o' & Ho' & Ha) & (cv & Hcv & Hctx)).
    rewrite Ho in Ho'. injection Ho' as <-.
    split; [|done]. split; [|done]. intros _. split; [done|]. by exists c, cv.
  - rewrite Hspec. simpl. split; [|done]. split; [done|].
    intros (Ha & c & cv & -> & Hcv & Hctx).
    assert (BaseVisualizer.can_visualize v (Some c) w = Some c) as Hc.
    { apply can_visualize_Some. split; [done|]. split; [by exists o|by exists cv]. }
    congruence.
Qed.

(** C6. In every world a page can reach, a visualizer has at most one
    animation-frame callback scheduled; a display frame makes it draw at
    most one frame; and when [visualize] is called while a callback is
    scheduled, the first thing it does is cancel that callback, before any
    new one is requested. *)
Theorem one_animation_loop_per_visualizer (P : Platform) (w : World) (v : nat) :
  reachable P w →
  (length (scheduled v w) ≤ 1)%nat
  ∧ (frames_drawn v (log (run_frame P w)) ≤ frames_drawn v (log w) + 1)%nat
  ∧ ∀ canvas h cb w',
      (h, cb) ∈ scheduled v w →
      Visualizer.visualize P v canvas w = (true, w') →
      (∃ rest, log w' = log w ++ EvCancelAnimationFrame h :: rest)
      ∧ ((h, cb) ∉ pending w')
      ∧ (length (scheduled v w') ≤ 1)%nat.
Proof.
  intros Hreach. pose proof (reachable_invariant P w Hreach) as Hinv.
  split; [by apply scheduled_at_most_one|].
  split; [by apply run_frame_frames_drawn|].
  intros canvas h cb w' [Hv Hin]%list_elem_of_filter Hvis. simpl in Hv.
  assert (frame_loop_invariant w') as Hinv'.
  { change w' with (snd (true, w')). rewrite <- Hvis. by apply visualize_invariant. }
  destruct Hinv as (Hpos & Hnd & Hall).
  destruct (Hall h cb Hin) as [Hr (o & Ho & Hid)]. rewrite Hv in Ho.
  pose proof (visualize_spec P v canvas w) as Hspec.
  destruct (BaseVisualizer.can_visualize v canvas w) as [c|]; [|congruence].
  destruct Hspec as (w_mid & w'' & Hprep & Hvis' & Hstep).
  rewrite Hvis in Hvis'. injection Hvis' as <-.
  destruct Hprep as (Hp & Hn & _ & _ & inits & Hl & _).
  unfold BaseVisualizer.cleanup in Hp, Hl. rewrite Ho, Hid in Hp, Hl.
  rewrite (proj2 (Z.eqb_neq h 0)) in Hp, Hl by lia. simpl in Hp, Hl.
  split; [|split; [|by apply scheduled_at_most_one]].
  - destruct Hstep as [->|(o' & draws & _ & _ & _ & _ & _ & Hlog & _)].
    + exists inits. by rewrite Hl, <- app_assoc.
    + eexists. rewrite Hlog, Hl, <- !app_assoc. simpl. reflexivity.
  - destruct Hstep as [->|(o' & draws & Hp' & _)].
    + rewrite Hp. intros [Hne _]%list_elem_of_filter. by apply Hne.
    + rewrite Hp', Hp. intros [Hf|Hf]%elem_of_app.
      * apply list_elem_of_filter in Hf as [Hne _]. by apply Hne.
      * apply list_elem_of_singleton in Hf. injection Hf as Hh _. lia.
Qed.

(** ** The session coordinator *)

Section coordinator.
Context (P : Platform).

Lemma log_emit e w : log (emit e w) = log w ++ [e].
Proof. done. Qed.

Lemma soniq_emit e w : soniq (emit e w) = soniq w.
Proof. done. Qed.

Lemma release_events_are_releases s : Forall is_release (release_events s).
Proof.
  unfold release_events. apply Forall_app. split.
  - apply Forall_fmap, Forall_true. by intros t.
  - destruct (Session.context s); by repeat constructor.
Qed.

Lemma Soniq_cleanup_log w :
  ∃ cancelled,
    log (Soniq.cleanup w) = log w ++ cancelled ++ release_events (soniq w)
    ∧ Forall is_release cancelled.
Proof.
  rewrite Soniq_cleanup_spec. simpl.
  destruct (BaseVisualizer_cleanup_frame (Session.visualizer (soniq w)) w)
    as (_ & _ & _ & _ & cancelled & -> & Hc).
  exists cancelled. by rewrite <- app_assoc.
Qed.

Lemma setAnalyser_frame v a w :
  soniq (BaseVisualizer.setAnalyser P v a w).2 = soniq w
  ∧ log (BaseVisualizer.setAnalyser P v a w).2 = log w
  ∧ pending (BaseVisualizer.setAnalyser P v a w).2 = pending w
  ∧ next_handle (BaseVisualizer.setAnalyser P v a w).2 = next_handle w.
Proof.
  unfold BaseVisualizer.setAnalyser.
  destruct (visualizers w !! v); [|done]. by destruct (fftSize_ok P _).
Qed.

Lemma setup_body_has_log env l :
  ∀ w, has_log l w → has_log l (Soniq.setup_body P env w).2.
Proof.
  unfold Soniq.setup_body.
  repeat split_bind;
    intros w Hl;
    first [ by apply lift_sum_preserves
          | by apply lift_opt_preserves
          | exact Hl
          | idtac ].
  - by destruct (Soniq.getUserMedia env).
  - by destruct (fftSize_ok P _).
  - unfold has_log. by rewrite (proj1 (proj2 (setAnalyser_frame _ _ _))).
Qed.

Lemma setup_body_log env w : log (Soniq.setup_body P env w).2 = log w.
Proof. by apply (setup_body_has_log env (log w) w). Qed.

(** The fields [setup] has written when one of its steps throws. *)
Lemma setup_body_throws env w e wf :
  Soniq.setup_body P env w = (Throw e, wf) →
  Session.visualizer (soniq wf) = Session.visualizer (soniq w)
  ∧ (∀ tracks, Soniq.getUserMedia env = Soniq.gum_resolves tracks →
       Session.stream (soniq wf) = Some tracks)
  ∧ (∀ tracks c, Soniq.getUserMedia env = Soniq.gum_resolves tracks →
       Soniq.new_AudioContext env = inr c →
       Session.context (soniq wf) = Some c).
Proof.
  destruct env as [gum ac ca cs cn mr].
  unfold Soniq.setup_body, bind, modify, gets, ret, throw; simpl.
  destruct gum as [e1|e1|tracks]; simpl; [by intros [= <- <-]..|].
  destruct ac as [e2|c]; simpl.
  { intros [= <- <-]. split; [done|]. split; [by intros ? [= <-]|done]. }
  destruct ca as [e3|a]; simpl.
  { intros [= <- <-]. split; [done|].
    split; [by intros ? [= <-]|by intros ? ? [= <-] [= <-]]. }
  destruct (fftSize_ok P (Session.fftSize (soniq w))); simpl.
  2:{ intros [= <- <-]. split; [done|].
      split; [by intros ? [= <-]|by intros ? ? [= <-] [= <-]]. }
  destruct cs as [e4|]; simpl.
  { intros [= <- <-]. split; [done|].
    split; [by intros ? [= <-]|by intros ? ? [= <-] [= <-]]. }
  destruct cn as [e5|]; simpl.
  { intros [= <- <-]. split; [done|].
    split; [by intros ? [= <-]|by intros ? ? [= <-] [= <-]]. }
  match goal with
  | |- context [BaseVisualizer.setAnalyser P ?v ?a ?w0] =>
    pose proof (setAnalyser_frame v a w0) as (Hs & _);
    destruct (BaseVisualizer.setAnalyser P v a w0) as [[[]|e6] w6]
  end; simpl in *.
  2:{ intros [= <- <-]. rewrite Hs. split; [done|].
      split; [by intros ? [= <-]|by intros ? ? [= <-] [= <-]]. }
  destruct mr as [e7|r]; simpl; [|done].
  intros [= <- <-]. rewrite Hs. split; [done|].
  split; [by intros ? [= <-]|by intros ? ? [= <-] [= <-]].
Qed.

End coordinator.

Section setup_failure.
Context (P : Platform).

Lemma setup_resume_failure env w w' :
  Soniq.setup_resume P env w = (false, w') →
  ∃ e teardown,
    log w' = log w ++ EvOnPermissionsFailed e :: teardown
    ∧ Forall is_release teardown
    ∧ torn_down (soniq w')
    ∧ (∀ tracks, Soniq.getUserMedia env = Soniq.gum_resolves tracks →
         ∀ t, t ∈ tracks → EvTrackStop t ∈ teardown)
    ∧ (∀ tracks c, Soniq.getUserMedia env = Soniq.gum_resolves tracks →
         Soniq.new_AudioContext env = inr c → EvContextClose c ∈ teardown).
Proof.
  unfold Soniq.setup_resume.
  pose proof (setup_body_log P env w) as Hlog.
  destruct (Soniq.setup_body P env w) as [[[]|e] wf] eqn:Hbody; [done|].
  simpl in Hlog. intros [= <-].
  destruct (setup_body_throws P env w e wf Hbody) as (_ & Hstream & Hctx).
  unfold Soniq.setup_failed.
  destruct (Soniq_cleanup_log (emit (EvOnPermissionsFailed e) wf))
    as (cancelled & Hl & Hc).
  exists e, (cancelled ++ release_events (soniq wf)). split_and!.
  - rewrite Hl, log_emit, Hlog, <- app_assoc. done.
  - apply Forall_app. split; [done|apply release_events_are_releases].
  - apply Soniq_cleanup_torn_down.
  - intros tracks Hg t Ht. apply elem_of_app. right.
    unfold release_events. rewrite (Hstream tracks Hg). simpl.
    apply elem_of_app. left. by apply list_elem_of_fmap_2.
  - intros tracks c Hg Hc'. apply elem_of_app. right.
    unfold release_events. rewrite (Hctx tracks c Hg Hc').
    apply elem_of_app. right. by left.
Qed.

End setup_failure.

(** C1, amended. When a run of [setup()] fails, be it in one go or resumed
    after its [await] in whatever world it finds then,
    [onPermissionsFailed] is called first and the full teardown follows:
    after the report the log holds release calls only, among them the stop
    of every track of the stream that was acquired and the close of the
    context that was created; [setup()] then returns false with no stream,
    recorder or analyser held, no chunks, and the flag false. Before the
    report there is only the teardown of the previous session, which
    [setup()] starts with. *)
Theorem setup_failure_reports_then_tears_down
    (P : Platform) (env : Soniq.SetupEnv) (w w' : World) :
  Soniq.setup P env w = (false, w') ∨ Soniq.setup_resume P env w = (false, w') →
  ∃ before e teardown,
    log w' = log w ++ before ++ EvOnPermissionsFailed e :: teardown
    ∧ Forall is_release before
    ∧ Forall is_release teardown
    ∧ torn_down (soniq w')
    ∧ (∀ tracks, Soniq.getUserMedia env = Soniq.gum_resolves tracks →
         ∀ t, t ∈ tracks → EvTrackStop t ∈ teardown)
    ∧ (∀ tracks c, Soniq.getUserMedia env = Soniq.gum_resolves tracks →
         Soniq.new_AudioContext env = inr c → EvContextClose c ∈ teardown).
Proof.
  intros [Hrun|Hres].
  2:{ destruct (setup_resume_failure P env _ _ Hres)
        as (e' & teardown & Hl' & Hrel & Htorn & Htracks & Hctx).
      exists [], e', teardown. split_and!; done. }
  revert Hrun. unfold Soniq.setup, Soniq.setup_begin.
  destruct (Soniq_cleanup_log w) as (cancelled & Hl & Hc).
  assert (Forall is_release (cancelled ++ release_events (soniq w))) as Hbefore.
  { apply Forall_app. split; [done|apply release_events_are_releases]. }
  destruct (Soniq.getUserMedia env) as [e|e|tracks] eqn:Hg.
  - intros [= <-]. unfold Soniq.setup_failed.
    destruct (Soniq_cleanup_log (emit (EvOnPermissionsFailed e) (Soniq.cleanup w)))
      as (cancelled' & Hl' & Hc').
    exists (cancelled ++ release_events (soniq w)), e,
      (cancelled' ++ release_events (soniq (Soniq.cleanup w))).
    split_and!; [|done| |apply Soniq_cleanup_torn_down|done..].
    + rewrite Hl', log_emit, Hl, <- !app_assoc. done.
    + apply Forall_app. split; [done|apply release_events_are_releases].
  - intros Hres. destruct (setup_resume_failure P env _ _ Hres)
      as (e' & teardown & Hl' & Hrel & Htorn & Htracks & Hctx).
    rewrite Hg in Htracks, Hctx.
    exists (cancelled ++ release_events (soniq w)), e', teardown.
    split_and!; [|done..]. rewrite Hl', Hl, <- !app_assoc. done.
  - intros Hres. destruct (setup_resume_failure P env _ _ Hres)
      as (e' & teardown & Hl' & Hrel & Htorn & Htracks & Hctx).
    rewrite Hg in Htracks, Hctx.
    exists (cancelled ++ release_events (soniq w)), e', teardown.
    split_and!; [|done..]. rewrite Hl', Hl, <- !app_assoc. done.
Qed.

Lemma setup_failure_reports_then_tears_down_witness :
  ∃ before e teardown,
    log (Soniq.setup test_platform env_no_context w_new).2
    = log w_new ++ before ++ EvOnPermissionsFailed e :: teardown
    ∧ Forall is_release before
    ∧ Forall is_release teardown
    ∧ torn_down (soniq (Soniq.setup test_platform env_no_context w_new).2)
    ∧ (∀ tracks, Soniq.getUserMedia env_no_context = Soniq.gum_resolves tracks →
         ∀ t, t ∈ tracks → EvTrackStop t ∈ teardown)
    ∧ (∀ tracks c, Soniq.getUserMedia env_no_context = Soniq.gum_resolves tracks →
         Soniq.new_AudioContext env_no_context = inr c →
         EvContextClose c ∈ teardown).
Proof.
  apply (setup_failure_reports_then_tears_down test_platform env_no_context w_new).
  left. vm_compute. reflexivity.
Defined.

(** C1 as worded fails: the microphone is granted (track 7), then
    [new AudioContext()] throws; [onPermissionsFailed] is called while the
    track is still live, and the track is stopped afterwards. *)
Lemma setup_reports_before_teardown :
  log (Soniq.setup test_platform env_no_context w_new).2
  = [EvOnPermissionsFailed "NotSupportedError"; EvTrackStop 7]
  ∧ ¬ teardown_before_report [7%nat]
        (log (Soniq.setup test_platform env_no_context w_new).2).
Proof.
  assert (log (Soniq.setup test_platform env_no_context w_new).2
          = [EvOnPermissionsFailed "NotSupportedError"; EvTrackStop 7]) as Hlog
    by (vm_compute; reflexivity).
  split; [done|]. rewrite Hlog.
  intros (before & e & after & Heq & Hall).
  specialize (Hall 7%nat). destruct before as [|b [|b' before]]; simpl in Heq.
  - assert (EvTrackStop 7 ∈ @nil Event) as Hin by (apply Hall; by left).
    inversion Hin.
  - injection Heq as _ Heq. discriminate.
  - injection Heq as _ _ Heq. by destruct before.
Qed.

(** ** Recording *)

Lemma chunks_delivered (late : list BlobPart) :
  ∀ w, Session.isRecording (soniq w) = true →
  foldl (λ w d, Soniq.ondataavailable d w) w late
  = update_soniq (λ s, Session.set_chunks (Session.chunks s ++ late) s) w.
Proof.
  induction late as [|d late IH]; intros w Hrec; simpl.
  - destruct w as [? ? ? ? ? ? ? ? s]. destruct s.
    unfold update_soniq, set_soniq, Session.set_chunks. simpl.
    by rewrite app_nil_r.
  - unfold Soniq.ondataavailable at 2. rewrite Hrec. rewrite IH by done.
    unfold update_soniq, set_soniq, Session.set_chunks. simpl.
    by rewrite <- app_assoc.
Qed.

(** C2, amended. [stop()] leaves the recording flag set: the chunks the
    encoder delivers after [stop()] and before its stop event are appended,
    in order, and are part of the artifact that the stop handler passes to
    [onRecorded]; the flag is cleared by the teardown at the end of that
    handler, and chunks delivered later are dropped. After [cancel()] the
    flag is already cleared: later chunks are dropped and the stop handler
    does nothing. *)
Theorem stop_keeps_flag_until_artifact_is_built
    (w w1 : World) (late : list BlobPart) :
  Soniq.stop None w = (true, w1) →
  Session.isRecording (soniq w1) = true
  ∧ Session.chunks
      (soniq (foldl (λ w d, Soniq.ondataavailable d w) w1 late))
    = Session.chunks (soniq w) ++ late
  ∧ (∃ teardown,
       log (Soniq.onstop (foldl (λ w d, Soniq.ondataavailable d w) w1 late))
       = log w1
         ++ EvOnRecorded (Session.chunks (soniq w) ++ late) "audio/mp3" :: teardown
       ∧ Forall is_release teardown)
  ∧ torn_down
      (soniq (Soniq.onstop (foldl (λ w d, Soniq.ondataavailable d w) w1 late)))
  ∧ (∀ d, Soniq.ondataavailable d
            (Soniq.onstop (foldl (λ w d, Soniq.ondataavailable d w) w1 late))
          = Soniq.onstop (foldl (λ w d, Soniq.ondataavailable d w) w1 late))
  ∧ (∀ wc, Soniq.cancel None w = (true, wc) →
       Session.isRecording (soniq wc) = false
       ∧ Soniq.onstop wc = wc
       ∧ ∀ d, Soniq.ondataavailable d wc = wc).
Proof.
  unfold Soniq.stop.
  destruct (Session.recorder (soniq w)) as [r|] eqn:Hr; [|done].
  destruct (Session.isRecording (soniq w)) eqn:Hrec; [|done]. simpl.
  intros [= <-].
  assert (Session.isRecording (soniq (emit (EvRecorderStop r) w)) = true) as Hrec1
    by done.
  rewrite (chunks_delivered late _ Hrec1).
  set (w2 := update_soniq _ _).
  assert (Soniq.onstop w2
          = Soniq.cleanup
              (emit (EvOnRecorded (Session.chunks (soniq w) ++ late) "audio/mp3") w2))
    as Honstop.
  { unfold Soniq.onstop. subst w2. simpl. by rewrite Hrec. }
  rewrite Honstop.
  pose proof (Soniq_cleanup_torn_down
                (emit (EvOnRecorded (Session.chunks (soniq w) ++ late) "audio/mp3") w2))
    as Htorn.
  split_and!; [done|done| |done| |].
  - destruct (Soniq_cleanup_log
                (emit (EvOnRecorded (Session.chunks (soniq w) ++ late) "audio/mp3") w2))
      as (cancelled & Hl & Hc).
    exists (cancelled ++ release_events (soniq w2)). split.
    + rewrite Hl, log_emit, <- app_assoc. done.
    + apply Forall_app. split; [done|apply release_events_are_releases].
  - intros d. unfold Soniq.ondataavailable.
    destruct Htorn as (_ & _ & _ & _ & ->). done.
  - intros wc. unfold Soniq.cancel. rewrite Hr, Hrec. simpl. intros [= <-].
    pose proof (Soniq_cleanup_torn_down
                  (emit (EvRecorderStop r)
                     (update_soniq (Session.set_isRecording false) w)))
      as (_ & _ & _ & _ & Hfalse).
    unfold Soniq.onstop, Soniq.ondataavailable. rewrite Hfalse. done.
Qed.

Lemma stop_keeps_flag_until_artifact_is_built_witness :
  Session.isRecording (soniq (Soniq.stop None w_recording).2) = true
  ∧ Session.chunks
      (soniq (foldl (λ w d, Soniq.ondataavailable d w)
                (Soniq.stop None w_recording).2 ["chunk 1"; "chunk 2"]))
    = ["chunk 1"; "chunk 2"].
Proof.
  destruct (stop_keeps_flag_until_artifact_is_built
              w_recording (Soniq.stop None w_recording).2 ["chunk 1"; "chunk 2"])
    as (H1 & H2 & _).
  - vm_compute. reflexivity.
  - split; [exact H1|exact H2].
Defined.

(** C2 as worded fails: after [record()] and [stop()] the flag is still
    set, and a chunk that arrives then is appended, not dropped. *)
Lemma late_chunk_is_kept :
  reachable test_platform w_stopping
  ∧ Soniq.stop None w_recording = (true, w_stopping)
  ∧ Session.isRecording (soniq w_stopping) = true
  ∧ Session.chunks (soniq (Soniq.ondataavailable "late" w_stopping)) = ["late"]
  ∧ ¬ late_chunk_dropped w_recording "late".
Proof.
  assert (Soniq.stop None w_recording = (true, w_stopping)) as Hstop
    by (vm_compute; reflexivity).
  split_and!; [apply reachable_history|done|by vm_compute..|].
  intros Hclaim. destruct (Hclaim w_stopping Hstop) as [Hflag _].
  vm_compute in Hflag. discriminate.
Qed.

(** C3, amended. [record()] returns false and changes no state when there
    is no recorder; when [recorder.start()] throws, as it does on a
    recorder that is recording, it returns false, logs the error and
    changes nothing else; otherwise, whatever the recording flag says, it
    has started the recorder, sets the flag and returns true. *)
Theorem record_depends_on_recorder_start (start : option Error) (w : World) :
  (Session.recorder (soniq w) = None → Soniq.record start w = (false, w))
  ∧ (∀ r e, Session.recorder (soniq w) = Some r → start = Some e →
       Soniq.record start w
       = (false, emit (EvConsoleError "Failed to start recording:" e) w))
  ∧ (∀ r, Session.recorder (soniq w) = Some r →
       (Soniq.record (conforming_start recording) w).1 = false
       ∧ soniq (Soniq.record (conforming_start recording) w).2 = soniq w)
  ∧ (∀ r, Session.recorder (soniq w) = Some r → start = None →
       (Soniq.record start w).1 = true
       ∧ soniq (Soniq.record start w).2 = Session.set_isRecording true (soniq w)
       ∧ log (Soniq.record start w).2 = log w ++ [EvRecorderStart r]
       ∧ visualizers (Soniq.record start w).2 = visualizers w
       ∧ pending (Soniq.record start w).2 = pending w).
Proof.
  unfold Soniq.record. split_and!.
  - by intros ->.
  - by intros r e -> ->.
  - by intros r ->.
  - by intros r -> ->.
Qed.

Lemma record_depends_on_recorder_start_witness :
  (Soniq.record None w_ready).1 = true
  ∧ soniq (Soniq.record None w_ready).2
    = Session.set_isRecording true (soniq w_ready)
  ∧ log (Soniq.record None w_ready).2 = log w_ready ++ [EvRecorderStart 9]
  ∧ visualizers (Soniq.record None w_ready).2 = visualizers w_ready
  ∧ pending (Soniq.record None w_ready).2 = pending w_ready.
Proof.
  destruct (record_depends_on_recorder_start None w_ready) as (_ & _ & _ & H).
  apply (H 9%nat); [vm_compute; reflexivity|reflexivity].
Defined.

(** C3 as worded fails: after [record()] and [stop()] the session is
    still recording by its flag, so it is not [Ready], while the recorder
    is inactive again and accepts [start()]: [record()] returns true. *)
Lemma record_accepted_while_recording :
  reachable test_platform w_stopping
  ∧ Session.isRecording (soniq w_stopping) = true
  ∧ (Soniq.record (conforming_start inactive) w_stopping).1 = true
  ∧ ¬ record_refused_unless_Ready (conforming_start inactive) w_stopping.
Proof.
  split_and!; [apply reachable_history|by vm_compute..|].
  intros Hclaim.
  assert (¬ Ready (soniq w_stopping)) as Hnot.
  { intros [_ Hflag]. vm_compute in Hflag. discriminate. }
  specialize (Hclaim Hnot). apply (f_equal fst) in Hclaim.
  vm_compute in Hclaim. discriminate.
Qed.

(** ** Teardown twice, and the swap of the visualizer *)

(** [BaseVisualizer.cleanup] writes [animationFrameId] only, and only of
    its own visualizer. *)
Lemma BaseVisualizer_cleanup_lookup v v' w o :
  visualizers w !! v' = Some o →
  ∃ o1, visualizers (BaseVisualizer.cleanup v w) !! v' = Some o1
        ∧ Vis.analyser o1 = Vis.analyser o
        ∧ Vis.dataArray o1 = Vis.dataArray o
        ∧ Vis.fftSize o1 = Vis.fftSize o
        ∧ Vis.strategy o1 = Vis.strategy o
        ∧ (v' ≠ v → o1 = o)
        ∧ (v' = v → Vis.animationFrameId o1 = None ∨ Vis.animationFrameId o1 = Some 0).
Proof.
  intros Ho'. unfold BaseVisualizer.cleanup.
  destruct (visualizers w !! v) as [o0|] eqn:Ho.
  2:{ exists o. split_and!; try done. intros ->. congruence. }
  destruct (Vis.animationFrameId o0) as [h|] eqn:Hid.
  2:{ exists o. split_and!; try done. intros ->. left. congruence. }
  destruct (h =? 0) eqn:Hz.
  { exists o. split_and!; try done. intros ->. right.
    apply Z.eqb_eq in Hz. congruence. }
  simpl. destruct (decide (v' = v)) as [->|Hne].
  - rewrite lookup_insert_eq. eexists. split; [done|].
    assert (o0 = o) as -> by congruence. split_and!; try done. by left.
  - rewrite lookup_insert_ne by done. exists o. split_and!; try done.
Qed.

Lemma BaseVisualizer_cleanup_idle v w :
  (∀ o, visualizers w !! v = Some o →
        Vis.animationFrameId o = None ∨ Vis.animationFrameId o = Some 0) →
  BaseVisualizer.cleanup v w = w.
Proof.
  intros Hid. unfold BaseVisualizer.cleanup.
  destruct (visualizers w !! v) as [o|]; [|done].
  destruct (Hid o eq_refl) as [->| ->]; done.
Qed.

Lemma BaseVisualizer_cleanup_twice v w :
  BaseVisualizer.cleanup v (BaseVisualizer.cleanup v w) = BaseVisualizer.cleanup v w.
Proof.
  apply BaseVisualizer_cleanup_idle. intros o1 Ho1.
  destruct (visualizers w !! v) as [o|] eqn:Ho.
  - destruct (BaseVisualizer_cleanup_lookup v v w o Ho) as (o2 & Ho2 & _ & _ & _ & _ & _ & Hid).
    rewrite Ho1 in Ho2. injection Ho2 as <-. by apply Hid.
  - unfold BaseVisualizer.cleanup in Ho1. rewrite Ho in Ho1. congruence.
Qed.

(** C5: where the code departs from the claim. The second of two
    teardowns in a row changes no field of the session, no visualizer and
    no scheduled callback, and stops no track, but it closes the audio
    context a second time: [cleanup] resets [stream] and leaves [context]
    set. *)
Theorem destroy_twice_closes_context_again (w : World) (c : nat) :
  Session.context (soniq w) = Some c →
  soniq (Soniq.destroy (Soniq.destroy w)) = soniq (Soniq.destroy w)
  ∧ visualizers (Soniq.destroy (Soniq.destroy w)) = visualizers (Soniq.destroy w)
  ∧ pending (Soniq.destroy (Soniq.destroy w)) = pending (Soniq.destroy w)
  ∧ log (Soniq.destroy (Soniq.destroy w))
    = log (Soniq.destroy w) ++ [EvContextClose c].
Proof.
  intros Hc. unfold Soniq.destroy.
  rewrite (Soniq_cleanup_spec (Soniq.cleanup w)).
  assert (Session.visualizer (soniq (Soniq.cleanup w)) = Session.visualizer (soniq w))
    as Hv.
  { rewrite Soniq_cleanup_spec. simpl.
    by rewrite (proj1 (BaseVisualizer_cleanup_frame _ _)). }
  assert (BaseVisualizer.cleanup (Session.visualizer (soniq w)) (Soniq.cleanup w)
          = Soniq.cleanup w) as Hidem.
  { apply BaseVisualizer_cleanup_idle. intros o Ho.
    rewrite Soniq_cleanup_spec in Ho. simpl in Ho.
    pose proof (BaseVisualizer_cleanup_twice (Session.visualizer (soniq w)) w) as Ht.
    unfold BaseVisualizer.cleanup at 1 in Ht. rewrite Ho in Ht.
    destruct (Vis.animationFrameId o) as [h|]; [|by left].
    destruct (h =? 0) eqn:Hz; [right; apply Z.eqb_eq in Hz; by subst|].
    exfalso. apply (f_equal log) in Ht. simpl in Ht.
    apply (f_equal length) in Ht. rewrite length_app in Ht. simpl in Ht. lia. }
  rewrite Hv, Hidem.
  assert (release_events (soniq (Soniq.cleanup w)) = [EvContextClose c]) as ->.
  { rewrite Soniq_cleanup_spec. unfold release_events. simpl.
    by rewrite (proj1 (BaseVisualizer_cleanup_frame _ _)), Hc. }
  split_and!; done.
Qed.

Lemma destroy_twice_closes_context_again_witness :
  log (Soniq.destroy w_ready) = [EvTrackStop 7; EvContextClose 3]
  ∧ log (Soniq.destroy (Soniq.destroy w_ready))
    = [EvTrackStop 7; EvContextClose 3; EvContextClose 3].
Proof.
  destruct (destroy_twice_closes_context_again w_ready 3%nat) as (_ & _ & _ & H).
  - vm_compute. reflexivity.
  - split; [vm_compute; reflexivity|]. rewrite H. vm_compute. reflexivity.
Defined.

Lemma BaseVisualizer_cleanup_pending v w e :
  e ∈ pending (BaseVisualizer.cleanup v w) → e ∈ pending w.
Proof.
  unfold BaseVisualizer.cleanup.
  destruct (visualizers w !! v) as [o|]; [|done].
  destruct (Vis.animationFrameId o) as [h|]; [|done].
  destruct (h =? 0); [done|]. simpl.
  by intros [_ ?]%list_elem_of_filter.
Qed.

(** C4, amended. [setVisualizer] cancels the animation loop of the
    previous visualizer, makes the new visualizer the current one, attaches
    the analyser to it when the session has one, and leaves the recorder,
    the chunks, the flag, the stream and the context as they are. It does
    not start the new visualizer: it requests no animation frame, whether
    or not the previous visualizer was running. *)
Theorem setVisualizer_swaps_without_restart
    (P : Platform) (new_v : nat) (w : World) (o_new : Vis.t) :
  frame_loop_invariant w →
  visualizers w !! new_v = Some o_new →
  (is_Some (Session.analyser (soniq w)) → fftSize_ok P (Vis.fftSize o_new) = true) →
  ∃ w', Soniq.setVisualizer P new_v w = (Ok tt, w')
    ∧ idle (Session.visualizer (soniq w)) w'
    ∧ soniq w' = Session.set_visualizer new_v (soniq w)
    ∧ (∀ a, Session.analyser (soniq w) = Some a →
         ∃ o', visualizers w' !! new_v = Some o'
               ∧ Vis.analyser o' = Some a
               ∧ analysers w' !! a = Some (Vis.fftSize o_new)
               ∧ Vis.dataArray o' = replicate (Z.to_nat (Vis.fftSize o_new / 2)) 0)
    ∧ next_handle w' = next_handle w
    ∧ (∀ e, e ∈ pending w' → e ∈ pending w)
    ∧ (∃ cancelled, log w' = log w ++ cancelled ∧ Forall is_release cancelled).
Proof.
  intros Hinv Hnew Hfft.
  unfold Soniq.setVisualizer, bind, modify, gets. simpl.
  set (old := Session.visualizer (soniq w)).
  destruct (cleanup_invariant old w Hinv) as [_ Hidle].
  destruct (BaseVisualizer_cleanup_frame old w)
    as (Hs & _ & _ & Hn & cancelled & Hl & Hc).
  destruct (BaseVisualizer_cleanup_lookup old new_v w o_new Hnew)
    as (o1 & Ho1 & _ & _ & Hfft1 & _).
  pose proof (BaseVisualizer_cleanup_pending old w) as Hpend.
  set (w1 := BaseVisualizer.cleanup old w) in *.
  rewrite Hs. destruct (Session.analyser (soniq w)) as [a|] eqn:Ha.
  - unfold BaseVisualizer.setAnalyser. simpl. rewrite Ho1, Hfft1.
    rewrite Hfft by by eexists. simpl.
    eexists. split; [reflexivity|]. split_and!; simpl; try done.
    + by rewrite Hs.
    + intros a' [= <-]. eexists. rewrite lookup_insert_eq. split; [done|].
      simpl. split; [done|]. rewrite lookup_insert_eq. split; [done|].
      unfold frequencyBinCount. simpl. by rewrite lookup_insert_eq.
    + by exists cancelled.
  - eexists. split; [reflexivity|]. split_and!; simpl; try done.
    + by rewrite Hs.
    + by exists cancelled.
Qed.

Lemma setVisualizer_swaps_without_restart_witness :
  ∃ w', Soniq.setVisualizer test_platform 1 w_two_visualizers = (Ok tt, w')
    ∧ idle 0%nat w'
    ∧ next_handle w' = next_handle w_two_visualizers.
Proof.
  destruct (setVisualizer_swaps_without_restart test_platform 1 w_two_visualizers
              (SpectrumVisualizer.new
                 (SpectrumVisualizer.mkOptions (BaseVisualizer.mkOptions None None)
                    None None None None None)))
    as (w' & Hw' & Hidle & _ & _ & Hn & _).
  - apply (reachable_invariant test_platform), reachable_history.
  - vm_compute. reflexivity.
  - intros _. vm_compute. reflexivity.
  - exists w'. split; [done|]. split; [exact Hidle|exact Hn].
Defined.

(** C4 as worded fails: the bar visualizer is running on the canvas;
    after [setVisualizer] with a new spectrum visualizer nothing is
    scheduled: the new visualizer has not been started. *)
Lemma setVisualizer_does_not_restart :
  reachable test_platform w_two_visualizers
  ∧ (1, mkCallback 0 0) ∈ pending w_two_visualizers
  ∧ pending (Soniq.setVisualizer test_platform 1 w_two_visualizers).2 = []
  ∧ ¬ restarts_when_active test_platform 1 w_two_visualizers.
Proof.
  assert ((1, mkCallback 0 0) ∈ pending w_two_visualizers) as Hin
    by (vm_compute; by left).
  assert (pending (Soniq.setVisualizer test_platform 1 w_two_visualizers).2 = [])
    as Hnil by (vm_compute; reflexivity).
  split_and!; [apply reachable_history|done..|].
  intros Hclaim. apply Hclaim.
  - intros Hidle. by apply (Hidle _ _ Hin).
  - intros h cb Hin'. rewrite Hnil in Hin'. inversion Hin'.
Qed.

(** ** Spectrum smoothing, on the visualizer *)

Section spectrum_visualize.
Context (P : Platform).
Import SpectrumVisualizer.




End spectrum_visualize.

Section constant_input.
Import SpectrumVisualizer.
Local Open Scope Q_scope.


End constant_input.




Lemma particle_removed_when_age_exceeds_maxLife_witness :
  is_Some (ticks test_platform 300 150 2 slow_particle)
  ∧ ticks test_platform 300 150 3 slow_particle = None.
Proof.
  assert (∀ k j, (k ≤ 3)%nat → (1 ≤ j ≤ k)%nat →
            ParticleVisualizer.out_of_bounds 300 150 (aged test_platform j slow_particle)
            = false) as Hin.
  { intros k j Hk Hj.
    assert (j = 1 ∨ j = 2 ∨ j = 3)%nat as [->|[->| ->]] by lia;
      vm_compute; reflexivity. }
  split.
  - destruct (particle_removed_when_age_exceeds_maxLife
                test_platform 300 150 slow_particle 2)
      as (_ & _ & Hiff & _); [reflexivity|lia|].
    apply Hiff; [intros j Hj; apply (Hin 2%nat); lia|].
    vm_compute. discriminate.
  - destruct (particle_removed_when_age_exceeds_maxLife
                test_platform 300 150 slow_particle 3)
      as (_ & _ & Hiff & _); [reflexivity|lia|].
    destruct (ticks test_platform 300 150 3 slow_particle) as [q|] eqn:E; [|done].
    exfalso. assert (inject_Z (Z.of_nat 3) <= maxLife slow_particle)%Q as Hle.
    { apply Hiff; [intros j Hj; apply (Hin 3%nat); lia|by eexists]. }
    vm_compute in Hle. by apply Hle.
Defined.

Lemma visualize_true_iff_analyser_and_context_witness :
  (Visualizer.visualize test_platform 0 (Some 0%nat) w_ready).1 = true
  ∧ (Visualizer.visualize test_platform 0 (Some 0%nat) w_new).1 = false
  ∧ (Visualizer.visualize test_platform 0 (Some 0%nat) w_new).2 = w_new.
Proof.
  split; [|split].
  - destruct (visualizers w_ready !! 0%nat) as [o|] eqn:Ho;
      [|vm_compute in Ho; discriminate].
    destruct (visualize_true_iff_analyser_and_context
                test_platform 0 (Some 0%nat) w_ready o Ho) as [Hiff _].
    apply Hiff. split.
    + vm_compute in Ho. injection Ho as <-. by eexists.
    + exists 0%nat, (mkCanvas 300 150 300 150 true). split; [done|].
      split; vm_compute; reflexivity.
  - vm_compute. reflexivity.
  - destruct (visualizers w_new !! 0%nat) as [o|] eqn:Ho;
      [|vm_compute in Ho; discriminate].
    destruct (visualize_true_iff_analyser_and_context
                test_platform 0 (Some 0%nat) w_new o Ho) as [_ Hsame].
    apply Hsame. vm_compute. reflexivity.
Defined.

Lemma one_animation_loop_per_visualizer_witness :
  (length (scheduled 0 w_visualizing) ≤ 1)%nat
  ∧ (frames_drawn 0 (log (run_frame test_platform w_visualizing))
     ≤ frames_drawn 0 (log w_visualizing) + 1)%nat.
Proof.
  destruct (one_animation_loop_per_visualizer test_platform w_visualizing 0)
    as (H1 & H2 & _).
  - apply reachable_history.
  - split; [exact H1|exact H2].
Defined.

(** ** Byte magnitudes *)

Section bytes.
Context (P : Platform).
Context (Hbytes : ∀ n, Forall is_byte (byteFrequencyData P n)).

Lemma getByteFrequencyData_bytes bins array :
  Forall is_byte bins → Forall is_byte array →
  Forall is_byte (getByteFrequencyData bins array).
Proof.
  intros Hb Ha. revert bins Hb.
  induction Ha as [|x array Hx Ha IH]; intros bins Hb; simpl; [done|].
  destruct Hb as [|b bins Hb Hbs]; constructor; auto.
Qed.

Lemma within_bytes_same o o' :
  Vis.dataArray o' = Vis.dataArray o → Vis.strategy o' = Vis.strategy o →
  within_bytes o → within_bytes o'.
Proof. unfold within_bytes. by intros -> ->. Qed.

Lemma bytes_put v o' w :
  bytes_invariant w → within_bytes o' → bytes_invariant (put_visualizer v o' w).
Proof.
  intros Hinv Ho' v' o. simpl. destruct (decide (v = v')) as [->|Hne].
  - rewrite lookup_insert_eq. by intros [= <-].
  - rewrite lookup_insert_ne by done. apply Hinv.
Qed.

Lemma bytes_same w w' :
  visualizers w' = visualizers w → bytes_invariant w → bytes_invariant w'.
Proof. unfold bytes_invariant. by intros ->. Qed.

Lemma bytes_cleanup v w :
  bytes_invariant w → bytes_invariant (BaseVisualizer.cleanup v w).
Proof.
  intros Hinv. unfold BaseVisualizer.cleanup.
  destruct (visualizers w !! v) as [o|] eqn:Ho; [|done].
  destruct (Vis.animationFrameId o) as [h|]; [|done].
  destruct (h =? 0); [done|].
  apply bytes_put; [done|]. by apply (within_bytes_same o), (Hinv v).
Qed.

Lemma bytes_setupHighDPICanvas v c w :
  bytes_invariant w → bytes_invariant (BaseVisualizer.setupHighDPICanvas P v c w).
Proof.
  intros Hinv. unfold BaseVisualizer.setupHighDPICanvas.
  destruct (visualizers w !! v) as [o|] eqn:Ho; [|done].
  destruct (canvases w !! c); [|done].
  apply (bytes_same (put_visualizer v (Vis.set_dpr (Q_or (Some (devicePixelRatio P)) 1) o) w));
    [done|].
  apply bytes_put; [done|]. by apply (within_bytes_same o), (Hinv v).
Qed.

Lemma bytes_setAnalyser v a w :
  bytes_invariant w → bytes_invariant (BaseVisualizer.setAnalyser P v a w).2.
Proof.
  intros Hinv. unfold BaseVisualizer.setAnalyser.
  destruct (visualizers w !! v) as [o|] eqn:Ho; [|done].
  destruct (Hinv v o Ho) as [Hd Hs].
  destruct (fftSize_ok P (Vis.fftSize o)); simpl.
  - apply bytes_put.
    + apply (bytes_same (put_visualizer v (Vis.set_analyser (Some a) o) w)); [done|].
      apply bytes_put; [done|]. by split.
    + split; [|done]. simpl. apply Forall_replicate. by split.
  - apply bytes_put; [done|]. by split.
Qed.

Lemma bytes_read o w :
  within_bytes o → within_bytes (BaseVisualizer.readFrequencyData P o w).1.
Proof.
  intros [Hd Hs]. split; [|done]. simpl.
  by apply getByteFrequencyData_bytes.
Qed.

Lemma bytes_put_any v o' w w' :
  bytes_invariant w → visualizers w' = <[v := o']> (visualizers w) →
  within_bytes o' → bytes_invariant w'.
Proof.
  intros Hinv Hv Ho'. apply (bytes_same (put_visualizer v o' w)); [done|].
  by apply bytes_put.
Qed.

Lemma bytes_updateBars v c w :
  bytes_invariant w → bytes_invariant (BarVisualizer.updateBars P v c w).
Proof.
  intros Hinv. unfold BarVisualizer.updateBars.
  destruct (visualizers w !! v) as [o|] eqn:Ho; [|done].
  destruct (Hinv v o Ho) as [Hd Hs].
  destruct (Vis.analyser o); [|done].
  destruct (Vis.strategy o) as [f| | |] eqn:Hf; try done.
  simpl. destruct (negb _).
  - apply bytes_put; [done|]. split; [done|]. by intros f' [=].
  - eapply (bytes_put_any v _ w); [done|simpl; reflexivity|].
    split; [|by intros f' [=]]. simpl. by apply getByteFrequencyData_bytes.
Qed.

Lemma bytes_drawWave v c w :
  bytes_invariant w → bytes_invariant (WaveVisualizer.drawWave v c w).
Proof.
  intros Hinv. unfold WaveVisualizer.drawWave.
  destruct (visualizers w !! v) as [o|] eqn:Ho; [|done].
  destruct (Vis.analyser o); [|done]. simpl.
  eapply (bytes_put_any v _ w); [done|simpl; reflexivity|].
  by apply (within_bytes_same o), (Hinv v).
Qed.

Lemma bytes_drawSpectrum v c w :
  bytes_invariant w → bytes_invariant (SpectrumVisualizer.drawSpectrum P v c w).
Proof.
  intros Hinv. unfold SpectrumVisualizer.drawSpectrum.
  destruct (visualizers w !! v) as [o|] eqn:Ho; [|done].
  destruct (Hinv v o Ho) as [Hd Hs].
  destruct (Vis.analyser o); [|done].
  destruct (Vis.strategy o) as [| |f|] eqn:Hf; try done.
  simpl. eapply (bytes_put_any v _ w); [done|simpl; reflexivity|].
  assert (Forall is_byte
            (getByteFrequencyData (byteFrequencyData P (reads w)) (Vis.dataArray o)))
    as Hd' by by apply getByteFrequencyData_bytes.
  split; [done|]. simpl. intros f' [= <-]. simpl.
  apply smoothing_in_range; [by apply Hs|done].
Qed.

Lemma bytes_animateParticles v c w :
  bytes_invariant w → bytes_invariant (ParticleVisualizer.animateParticles P v c w).
Proof.
  intros Hinv. unfold ParticleVisualizer.animateParticles.
  destruct (visualizers w !! v) as [o|] eqn:Ho; [|done].
  destruct (Hinv v o Ho) as [Hd Hs].
  destruct (Vis.analyser o); [|done].
  destruct (Vis.strategy o) as [| | |f] eqn:Hf; try done.
  simpl. destruct (ParticleVisualizer.updateParticles _ _ _ _ _ _ _) as [f3 m].
  eapply (bytes_put_any v _ w); [done|simpl; reflexivity|].
  split; [|by intros f' [=]]. simpl. by apply getByteFrequencyData_bytes.
Qed.

Lemma bytes_invoke cb w : bytes_invariant w → bytes_invariant (invoke P cb w).
Proof.
  intros Hinv. unfold invoke.
  destruct (visualizers w !! cb_visualizer cb) as [o|]; [|done].
  destruct (Vis.strategy o).
  - by apply bytes_updateBars.
  - by apply bytes_drawWave.
  - by apply bytes_drawSpectrum.
  - by apply bytes_animateParticles.
Qed.

Lemma bytes_run_frame w : bytes_invariant w → bytes_invariant (run_frame P w).
Proof.
  unfold run_frame. generalize (pending w).*1 as hs. intros hs. revert w.
  induction hs as [|h hs IH]; intros w Hinv; simpl; [done|].
  apply IH. unfold run_callback.
  destruct (list_find _ _) as [[i [h' cb]]|]; [|done].
  by apply bytes_invoke.
Qed.

Lemma bytes_visualize v canvas w :
  bytes_invariant w → bytes_invariant (Visualizer.visualize P v canvas w).2.
Proof.
  intros Hinv. unfold Visualizer.visualize.
  destruct (visualizers w !! v) as [o0|]; [|done].
  pose proof (bytes_setupHighDPICanvas v) as Hsetup.
  pose proof (bytes_cleanup v w Hinv) as Hclean.
  destruct (Vis.strategy o0) as [f0| |f0|f0].
  - unfold BarVisualizer.visualize.
    destruct (BaseVisualizer.can_visualize v canvas w) as [c|]; [|done]. simpl.
    apply bytes_updateBars.
    apply (bytes_same _ _ eq_refl).
    specialize (Hsetup c _ Hclean).
    destruct (visualizers _ !! v) as [o|] eqn:Ho; [|done].
    destruct (Vis.strategy o) as [f| | |] eqn:Hf; try done.
    apply bytes_put; [done|]. destruct (Hsetup v o Ho) as [Hd _].
    split; [done|]. by intros f' [=].
  - unfold WaveVisualizer.visualize.
    destruct (BaseVisualizer.can_visualize v canvas w) as [c|]; [|done]. simpl.
    by apply bytes_drawWave, Hsetup.
  - unfold SpectrumVisualizer.visualize.
    destruct (BaseVisualizer.can_visualize v canvas w) as [c|]; [|done]. simpl.
    apply bytes_drawSpectrum.
    specialize (Hsetup c _ Hclean).
    destruct (visualizers _ !! v) as [o|] eqn:Ho; [|done].
    destruct (Vis.analyser o); [|done].
    destruct (Vis.strategy o) as [| |f|] eqn:Hf; try done.
    apply bytes_put; [done|]. destruct (Hsetup v o Ho) as [Hd _].
    split; [done|]. simpl. intros f' [= <-]. simpl.
    apply Forall_replicate. split; lra.
  - unfold ParticleVisualizer.visualize.
    destruct (BaseVisualizer.can_visualize v canvas w) as [c|]; [|done]. simpl.
    apply bytes_animateParticles.
    apply (bytes_same _ _ eq_refl).
    specialize (Hsetup c _ Hclean).
    destruct (visualizers _ !! v) as [o|] eqn:Ho; [|done].
    destruct (Vis.strategy o) as [| | |f] eqn:Hf; try done.
    apply bytes_put; [done|]. destruct (Hsetup v o Ho) as [Hd _].
    split; [done|]. by intros f' [=].
Qed.

Lemma bytes_Soniq_cleanup w :
  bytes_invariant w → bytes_invariant (Soniq.cleanup w).
Proof.
  intros Hinv. rewrite Soniq_cleanup_spec.
  apply (bytes_same (BaseVisualizer.cleanup (Session.visualizer (soniq w)) w));
    [done|]. by apply bytes_cleanup.
Qed.

Lemma bytes_setup_body env :
  ∀ w, bytes_invariant w → bytes_invariant (Soniq.setup_body P env w).2.
Proof.
  unfold Soniq.setup_body.
  repeat split_bind;
    intros w Hinv;
    first [ by apply lift_sum_preserves
          | by apply lift_opt_preserves
          | by apply bytes_setAnalyser
          | exact Hinv
          | idtac ].
  - by destruct (Soniq.getUserMedia env).
  - by destruct (fftSize_ok P _).
Qed.

Lemma bytes_setVisualizer v :
  ∀ w, bytes_invariant w → bytes_invariant (Soniq.setVisualizer P v w).2.
Proof.
  unfold Soniq.setVisualizer.
  repeat split_bind;
    intros w Hinv;
    first [ by apply bytes_cleanup | exact Hinv | idtac ].
  match goal with a : option nat |- _ => destruct a end;
    [by apply bytes_setAnalyser|done].
Qed.

Lemma bytes_construct c : within_bytes (construct c).
Proof.
  destruct c; (split; [by constructor|]); simpl; try by intros f [=].
  intros f [= <-]. by constructor.
Qed.

Lemma bytes_exec op w : bytes_invariant w → bytes_invariant (exec P op w).
Proof.
  intros Hinv. destruct op; simpl.
  - apply bytes_put; [done|apply bytes_construct].
  - done.
  - by apply bytes_setAnalyser.
  - by apply bytes_visualize.
  - by apply bytes_cleanup.
  - by apply bytes_run_frame.
  - unfold Soniq.setup_begin. apply bytes_Soniq_cleanup in Hinv.
    destruct (Soniq.getUserMedia env); simpl; [|done..].
    by apply bytes_Soniq_cleanup.
  - unfold Soniq.setup_resume.
    pose proof (bytes_setup_body env w Hinv) as Hb.
    destruct (Soniq.setup_body P env w) as [[[]|e] w']; simpl in *; [done|].
    by apply bytes_Soniq_cleanup.
  - unfold Soniq.record. destruct (Session.recorder _); [|done].
    by destruct start.
  - unfold Soniq.stop. destruct (Session.recorder _); [|done].
    destruct (negb _); [done|]. by destruct stop_.
  - unfold Soniq.cancel. destruct (Session.recorder _); [|done].
    destruct (negb _); [done|]. destruct stop_; [done|].
    by apply bytes_Soniq_cleanup.
  - unfold Soniq.ondataavailable. by destruct (Session.isRecording _).
  - unfold Soniq.onstop. destruct (negb _); [done|].
    by apply bytes_Soniq_cleanup.
  - by apply bytes_visualize.
  - case_decide; [|done]. by apply bytes_setVisualizer.
  - by apply bytes_Soniq_cleanup.
Qed.

Lemma reachable_bytes w : reachable P w → bytes_invariant w.
Proof.
  induction 1 as [options c|op w _ IH]; [|by apply bytes_exec].
  intros v o. unfold Soniq.new. simpl.
  destruct (decide (v = 0%nat)) as [->|Hne].
  - rewrite lookup_singleton_eq. intros [= <-].
    destruct c as [c|]; simpl; [apply bytes_construct|].
    split; [by constructor|by intros f [=]].
  - by rewrite lookup_singleton_ne.
Qed.

End bytes.

(** C10. Whenever every magnitude the analyser delivers is a byte, the
    smoothed values stay between 0 and 255: one smoothing step keeps them
    there, so does any number of steps on any frames of bytes, and in every
    world a page can reach every entry of the [smoothedArray] of every
    spectrum visualizer is in that range. *)
Theorem smoothedArray_stays_in_byte_range (P : Platform) :
  (∀ n, Forall is_byte (byteFrequencyData P n)) →
  (∀ frames s,
     Forall in_byte_range s → Forall (Forall is_byte) frames →
     Forall in_byte_range (foldl SpectrumVisualizer.smoothing s frames))
  ∧ (∀ w v o f,
       reachable P w → visualizers w !! v = Some o →
       Vis.strategy o = Spectrum f →
       Forall in_byte_range (smoothedArray f)).
Proof.
  intros Hbytes. split.
  - intros frames. induction frames as [|d frames IH]; intros s Hs Hf; simpl; [done|].
    apply Forall_cons in Hf as [Hd Hf].
    apply IH; [|done]. by apply smoothing_in_range.
  - intros w v o f Hreach Ho Hf.
    by apply (reachable_bytes P Hbytes w Hreach v o Ho).
Qed.

Lemma smoothedArray_stays_in_byte_range_witness :
  Forall in_byte_range
    (foldl SpectrumVisualizer.smoothing [0%Q; 0%Q] [[255; 0]; [255; 255]; [7; 255]])
  ∧ ∀ o f,
      visualizers w_spectrum_running !! 1%nat = Some o →
      Vis.strategy o = Spectrum f →
      Forall in_byte_range (smoothedArray f).
Proof.
  destruct (smoothedArray_stays_in_byte_range test_platform) as [Hpure Hworld].
  - intros n. apply Forall_replicate. unfold is_byte. lia.
  - split.
    + apply Hpure.
      * repeat constructor; unfold in_byte_range; simpl; lra.
      * repeat constructor; unfold is_byte; lia.
    + intros o f Ho Hf.
      apply (Hworld w_spectrum_running 1%nat o f); [|done..].
      apply reachable_history.
Defined.

(** * Further properties of the session coordinator *)

Section session.
Context (P : Platform).

(** What [Soniq.cleanup] leaves alone. *)
Lemma Soniq_cleanup_frame w :
  visualizers (Soniq.cleanup w)
  = visualizers (BaseVisualizer.cleanup (Session.visualizer (soniq w)) w)
  ∧ pending (Soniq.cleanup w)
    = pending (BaseVisualizer.cleanup (Session.visualizer (soniq w)) w)
  ∧ analysers (Soniq.cleanup w) = analysers w
  ∧ canvases (Soniq.cleanup w) = canvases w
  ∧ next_handle (Soniq.cleanup w) = next_handle w
  ∧ Session.visualizer (soniq (Soniq.cleanup w)) = Session.visualizer (soniq w)
  ∧ Session.fftSize (soniq (Soniq.cleanup w)) = Session.fftSize (soniq w)
  ∧ Session.context (soniq (Soniq.cleanup w)) = Session.context (soniq w).
Proof.
  rewrite Soniq_cleanup_spec. simpl.
  destruct (BaseVisualizer_cleanup_frame (Session.visualizer (soniq w)) w)
    as (Hs & Ha & Hc & Hn & _).
  rewrite Hs. split_and!; done.
Qed.

Lemma setup_body_granted env w o tracks c a r :
  granted env tracks c a r →
  visualizers w !! Session.visualizer (soniq w) = Some o →
  fftSize_ok P (Session.fftSize (soniq w)) = true →
  fftSize_ok P (Vis.fftSize o) = true →
  ∃ w', Soniq.setup_body P env w = (Ok tt, w')
    ∧ soniq w'
      = Session.set_recorder (Some r)
          (Session.set_analyser (Some a)
             (Session.set_context (Some c)
                (Session.set_stream (Some tracks) (soniq w))))
    ∧ analysers w' !! a = Some (Vis.fftSize o)
    ∧ visualizers w'
      = <[Session.visualizer (soniq w) :=
            Vis.set_dataArray (replicate (Z.to_nat (Vis.fftSize o / 2)) 0)
              (Vis.set_analyser (Some a) o)]> (visualizers w)
    ∧ log w' = log w ∧ pending w' = pending w
    ∧ next_handle w' = next_handle w.
Proof.
  destruct env as [gum ac ca cs cn mr]. unfold granted. simpl.
  intros (-> & -> & -> & -> & -> & ->) Ho Hfft Hfft'.
  unfold Soniq.setup_body, bind, modify, gets, ret, throw. simpl.
  rewrite Hfft. simpl.
  unfold BaseVisualizer.setAnalyser. simpl. rewrite Ho, Hfft'. simpl.
  eexists. split; [reflexivity|]. simpl. split_and!; try done.
  - apply lookup_insert_eq.
  - unfold put_visualizer. simpl. rewrite insert_insert_eq.
    unfold frequencyBinCount. simpl. by rewrite lookup_insert_eq.
Qed.

Lemma setup_body_Ok env w o w' :
  visualizers w !! Session.visualizer (soniq w) = Some o →
  Soniq.setup_body P env w = (Ok tt, w') →
  (∃ tracks c a r, granted env tracks c a r)
  ∧ fftSize_ok P (Session.fftSize (soniq w)) = true
  ∧ fftSize_ok P (Vis.fftSize o) = true.
Proof.
  destruct env as [gum ac ca cs cn mr]. intros Ho.
  unfold Soniq.setup_body, bind, modify, gets, ret, throw, granted. simpl.
  destruct gum as [e1|e1|tracks]; simpl; [done..|].
  destruct ac as [e2|c]; simpl; [done|].
  destruct ca as [e3|a]; simpl; [done|].
  destruct (fftSize_ok P (Session.fftSize (soniq w))); simpl; [|done].
  destruct cs as [e4|]; simpl; [done|].
  destruct cn as [e5|]; simpl; [done|].
  unfold BaseVisualizer.setAnalyser. simpl. rewrite Ho.
  destruct (fftSize_ok P (Vis.fftSize o)); simpl; [|done].
  destruct mr as [e7|r]; simpl; [done|].
  intros _. split; [|done]. by exists tracks, c, a, r.
Qed.

End session.

(** [setup()] returns true exactly when the browser grants every step and
    both [fftSize] values are accepted by the analyser node: the one of the
    [Soniq] options and the one of the visualizer, which [setAnalyser]
    writes to the same node. *)
Theorem setup_returns_true_iff_every_step_succeeds
    (P : Platform) (env : Soniq.SetupEnv) (w : World) (o : Vis.t) :
  visualizers w !! Session.visualizer (soniq w) = Some o →
  (Soniq.setup P env w).1 = true ↔
    (∃ tracks c a r, granted env tracks c a r)
    ∧ fftSize_ok P (Session.fftSize (soniq w)) = true
    ∧ fftSize_ok P (Vis.fftSize o) = true.
Proof.
  intros Ho.
  destruct (Soniq_cleanup_frame w) as (Hv & _ & _ & _ & _ & Hsv & Hsf & _).
  destruct (BaseVisualizer_cleanup_lookup (Session.visualizer (soniq w))
              (Session.visualizer (soniq w)) w o Ho)
    as (o1 & Ho1 & _ & _ & Hf1 & _).
  rewrite <- Hv, <- Hsv in Ho1.
  unfold Soniq.setup, Soniq.setup_begin. split.
  - destruct (Soniq.getUserMedia env) as [e|e|tracks] eqn:Hg; [done| |];
      unfold Soniq.setup_resume;
      destruct (Soniq.setup_body P env (Soniq.cleanup w)) as [[[]|e'] w'] eqn:Hb;
      try done; intros _;
      destruct (setup_body_Ok P env _ o1 w' Ho1 Hb) as (Hgr & H1 & H2);
      rewrite Hsf in H1; rewrite Hf1 in H2; done.
  - intros ((tracks & c & a & r & Hgr) & H1 & H2).
    rewrite <- Hsf in H1. rewrite <- Hf1 in H2.
    destruct (setup_body_granted P env _ o1 tracks c a r Hgr Ho1 H1 H2)
      as (w' & Hb & _).
    destruct Hgr as (-> & _). unfold Soniq.setup_resume. by rewrite Hb.
Qed.

Lemma setup_returns_true_iff_every_step_succeeds_witness :
  (Soniq.setup test_platform env_granted w_new).1 = true.
Proof.
  apply (setup_returns_true_iff_every_step_succeeds test_platform env_granted w_new
           (BarVisualizer.new (BaseVisualizer.mkOptions None None) None)).
  - vm_compute. reflexivity.
  - split; [|split; vm_compute; reflexivity].
    exists [7%nat], 3%nat, 5%nat, 9%nat. by vm_compute.
Defined.

(** After a successful [setup()] the session holds the stream, the context,
    the analyser node and the recorder it was given, it is not recording
    and has no chunks; the visualizer holds the analyser node with a zeroed
    data array of half its own [fftSize]; and the [fftSize] of the node is
    the one of the visualizer, not the one of the [Soniq] options. Nothing
    but the release of the previous session is logged: no failure is
    reported. *)
Theorem setup_success_makes_session_live
    (P : Platform) (env : Soniq.SetupEnv) (w : World) (o : Vis.t)
    (tracks : list nat) (c a r : nat) :
  granted env tracks c a r →
  visualizers w !! Session.visualizer (soniq w) = Some o →
  fftSize_ok P (Session.fftSize (soniq w)) = true →
  fftSize_ok P (Vis.fftSize o) = true →
  ∃ w', Soniq.setup P env w = (true, w')
    ∧ Session.stream (soniq w') = Some tracks
    ∧ Session.context (soniq w') = Some c
    ∧ Session.analyser (soniq w') = Some a
    ∧ Session.recorder (soniq w') = Some r
    ∧ Session.isRecording (soniq w') = false
    ∧ Session.chunks (soniq w') = []
    ∧ analysers w' !! a = Some (Vis.fftSize o)
    ∧ (∃ o', visualizers w' !! Session.visualizer (soniq w) = Some o'
             ∧ Vis.analyser o' = Some a
             ∧ Vis.dataArray o' = replicate (Z.to_nat (Vis.fftSize o / 2)) 0)
    ∧ (∃ released, log w' = log w ++ released ∧ Forall is_release released).
Proof.
  intros Hgr Ho H1 H2.
  destruct (Soniq_cleanup_frame w) as (Hv & _ & _ & _ & _ & Hsv & Hsf & _).
  destruct (BaseVisualizer_cleanup_lookup (Session.visualizer (soniq w))
              (Session.visualizer (soniq w)) w o Ho)
    as (o1 & Ho1 & _ & _ & Hf1 & _).
  rewrite <- Hv, <- Hsv in Ho1. rewrite <- Hsf in H1. rewrite <- Hf1 in H2.
  destruct (setup_body_granted P env _ o1 tracks c a r Hgr Ho1 H1 H2)
    as (w' & Hb & Hs & Han & Hvis & Hl & _).
  pose proof (Soniq_cleanup_torn_down w) as (Ht1 & Ht2 & Ht3 & Ht4 & Ht5).
  destruct (Soniq_cleanup_log w) as (cancelled & Hlc & Hc).
  exists w'. unfold Soniq.setup, Soniq.setup_begin, Soniq.setup_resume.
  destruct Hgr as (-> & _). rewrite Hb. rewrite Hs. simpl.
  split_and!; try done.
  - by rewrite <- Hf1.
  - rewrite Hvis, Hsv, lookup_insert_eq. eexists. split; [done|].
    simpl. by rewrite Hf1.
  - exists (cancelled ++ release_events (soniq w)). rewrite Hl, Hlc.
    split; [done|]. apply Forall_app. split; [done|].
    apply release_events_are_releases.
Qed.

Lemma setup_success_makes_session_live_witness :
  ∃ w', Soniq.setup test_platform env_granted w_new = (true, w')
    ∧ Session.recorder (soniq w') = Some 9%nat
    ∧ analysers w' !! 5%nat = Some 64.
Proof.
  destruct (setup_success_makes_session_live test_platform env_granted w_new
              (BarVisualizer.new (BaseVisualizer.mkOptions None None) None)
              [7%nat] 3%nat 5%nat 9%nat)
    as (w' & Hw' & _ & _ & _ & Hr & _ & _ & Ha & _).
  - by vm_compute.
  - vm_compute. reflexivity.
  - vm_compute. reflexivity.
  - vm_compute. reflexivity.
  - exists w'. split; [exact Hw'|]. split; [exact Hr|exact Ha].
Defined.

(** [destroy()] at any moment, also in the middle of a recording, only
    releases: it cancels the animation frame, stops the tracks and closes
    the context, and it neither stops the recorder nor reports a
    recording. Afterwards [record()], [stop()] and [cancel()] return false
    and change nothing, and the events of the abandoned recorder are
    ignored, so [onRecorded] is not called for the recording that was in
    progress. *)
Theorem destroyed_session_is_inert
    (w : World) (start stop_ : option Error) (data : BlobPart) :
  (∃ released, log (Soniq.destroy w) = log w ++ released
               ∧ Forall is_release released)
  ∧ Soniq.isCurrentlyRecording (Soniq.destroy w) = false
  ∧ Soniq.record start (Soniq.destroy w) = (false, Soniq.destroy w)
  ∧ Soniq.stop stop_ (Soniq.destroy w) = (false, Soniq.destroy w)
  ∧ Soniq.cancel stop_ (Soniq.destroy w) = (false, Soniq.destroy w)
  ∧ Soniq.ondataavailable data (Soniq.destroy w) = Soniq.destroy w
  ∧ Soniq.onstop (Soniq.destroy w) = Soniq.destroy w.
Proof.
  unfold Soniq.destroy.
  pose proof (Soniq_cleanup_torn_down w) as (_ & Hr & _ & _ & Hf).
  destruct (Soniq_cleanup_log w) as (cancelled & Hl & Hc).
  unfold Soniq.isCurrentlyRecording, Soniq.record, Soniq.stop, Soniq.cancel,
    Soniq.ondataavailable, Soniq.onstop.
  rewrite Hr, Hf. split_and!; try done.
  exists (cancelled ++ release_events (soniq w)). split; [done|].
  apply Forall_app. split; [done|apply release_events_are_releases].
Qed.

(** When [recorder.stop()] throws inside [cancel()], the recording flag has
    already been cleared and nothing else is undone: [cancel()] returns
    false after logging the error, the recorder, the stream, the context
    and the chunks are still held, and no animation frame is cancelled.
    From then on [stop()] and [cancel()] refuse, and the stop event of the
    recorder reports nothing; a [record()] that the recorder accepts
    goes on with the chunks that were left in the buffer. *)
Theorem failed_cancel_clears_only_the_flag
    (w : World) (e : Error) (r : nat) :
  Session.recorder (soniq w) = Some r →
  Session.isRecording (soniq w) = true →
  ∃ w', Soniq.cancel (Some e) w = (false, w')
    ∧ soniq w' = Session.set_isRecording false (soniq w)
    ∧ log w' = log w ++ [EvConsoleError "Failed to cancel recording:" e]
    ∧ pending w' = pending w
    ∧ visualizers w' = visualizers w
    ∧ (∀ stop_, Soniq.stop stop_ w' = (false, w'))
    ∧ (∀ stop_, Soniq.cancel stop_ w' = (false, w'))
    ∧ Soniq.onstop w' = w'
    ∧ ∃ w'', Soniq.record None w' = (true, w'')
        ∧ Session.isRecording (soniq w'') = true
        ∧ Session.chunks (soniq w'') = Session.chunks (soniq w).
Proof.
  intros Hr Hrec. unfold Soniq.cancel at 1. rewrite Hr, Hrec. simpl.
  eexists. split; [reflexivity|].
  unfold Soniq.stop, Soniq.cancel, Soniq.onstop, Soniq.record. simpl. rewrite Hr.
  split_and!; try done. eexists. split; [reflexivity|]. done.
Qed.

Lemma failed_cancel_clears_only_the_flag_witness :
  ∃ w', Soniq.cancel (Some "InvalidStateError") w_recording = (false, w')
    ∧ Session.recorder (soniq w') = Some 9%nat
    ∧ Session.stream (soniq w') = Some [7%nat]
    ∧ Session.isRecording (soniq w') = false.
Proof.
  destruct (failed_cancel_clears_only_the_flag w_recording "InvalidStateError" 9%nat)
    as (w' & Hw' & Hs & _).
  - vm_compute. reflexivity.
  - vm_compute. reflexivity.
  - exists w'. split; [exact Hw'|]. rewrite Hs. vm_compute. done.
Defined.

(** ** The session in every reachable world *)

Section session_invariant.
Context (P : Platform).

Lemma consistent_same w w' :
  soniq w' = soniq w → session_consistent (soniq w) → session_consistent (soniq w').
Proof. by intros ->. Qed.

Lemma consistent_torn_down s : torn_down s → session_consistent s.
Proof.
  intros (_ & Hr & _ & _ & Hf). split.
  - rewrite Hf. done.
  - rewrite Hr. by intros [].
Qed.

Lemma frame_step_soniq v c w w' : w' = w ∨ frame_step v c w w' → soniq w' = soniq w.
Proof. intros [->|(? & ? & _ & _ & _ & _ & Hs & _)]; done. Qed.

Lemma run_callback_soniq h w : soniq (run_callback P h w) = soniq w.
Proof.
  unfold run_callback.
  destruct (list_find _ _) as [[i [h' cb]]|]; [|done].
  destruct (invoke_step P cb (set_pending (filter (λ e, e.1 ≠ h) (pending w)) w))
    as [->|Hstep]; [done|].
  by rewrite (frame_step_soniq _ _ _ _ (or_intror Hstep)).
Qed.

Lemma run_frame_soniq w : soniq (run_frame P w) = soniq w.
Proof.
  unfold run_frame. generalize (pending w).*1 as hs. intros hs. revert w.
  induction hs as [|h hs IH]; intros w; simpl; [done|].
  by rewrite IH, run_callback_soniq.
Qed.

Lemma visualize_soniq v canvas w :
  soniq (Visualizer.visualize P v canvas w).2 = soniq w.
Proof.
  pose proof (visualize_spec P v canvas w) as Hspec.
  destruct (BaseVisualizer.can_visualize v canvas w) as [c|]; [|by rewrite Hspec].
  destruct Hspec as (w_mid & w' & (_ & _ & Hs & _) & -> & Hstep). simpl.
  by rewrite (frame_step_soniq _ _ _ _ Hstep).
Qed.

Lemma setup_body_consistent env w :
  match Soniq.setup_body P env w with
  | (Ok _, w') => is_Some (Session.recorder (soniq w')) ∧ live (soniq w')
                  ∧ Session.isRecording (soniq w') = Session.isRecording (soniq w)
  | (Throw _, _) => True
  end.
Proof.
  destruct env as [gum ac ca cs cn mr].
  unfold Soniq.setup_body, bind, modify, gets, ret, throw. simpl.
  destruct gum as [e1|e1|tracks]; simpl; [done..|].
  destruct ac as [e2|c]; simpl; [done|].
  destruct ca as [e3|a]; simpl; [done|].
  destruct (fftSize_ok P (Session.fftSize (soniq w))); simpl; [|done].
  destruct cs as [e4|]; simpl; [done|].
  destruct cn as [e5|]; simpl; [done|].
  match goal with
  | |- context [BaseVisualizer.setAnalyser P ?v ?a ?w0] =>
    pose proof (setAnalyser_frame P v a w0) as (Hs & _);
    destruct (BaseVisualizer.setAnalyser P v a w0) as [[[]|e6] w6]
  end; simpl in *; [|done].
  destruct mr as [e7|r]; simpl; [done|]. rewrite Hs. simpl.
  unfold live. simpl. split_and!; by eauto.
Qed.

Lemma exec_consistent op w :
  session_consistent (soniq w) → session_consistent (soniq (exec P op w)).
Proof.
  intros Hc. destruct op; simpl; try done.
  - apply (consistent_same w); [|done].
    by destruct (setAnalyser_frame P v a w) as [-> _].
  - apply (consistent_same w); [|done]. apply visualize_soniq.
  - apply (consistent_same w); [|done].
    by destruct (BaseVisualizer_cleanup_frame v w) as [-> _].
  - apply (consistent_same w); [|done]. apply run_frame_soniq.
  - unfold Soniq.setup_begin. destruct (Soniq.getUserMedia env); cbn [snd];
      apply consistent_torn_down, Soniq_cleanup_torn_down.
  - unfold Soniq.setup_resume.
    pose proof (setup_body_consistent env w) as Hb.
    destruct (Soniq.setup_body P env w) as [[[]|e] w']; cbn [snd].
    + destruct Hb as (Hr & Hlive & _). split; done.
    + apply consistent_torn_down, Soniq_cleanup_torn_down.
  - unfold Soniq.record. destruct (Session.recorder (soniq w)) as [r|] eqn:Hr;
      [|done]. destruct start; simpl; [done|].
    destruct Hc as [_ Hlive]. split; simpl; rewrite ?Hr; [by eauto|].
    intros _. apply Hlive. rewrite Hr. by eexists.
  - unfold Soniq.stop. destruct (Session.recorder (soniq w)); [|done].
    destruct (negb _); [done|]. by destruct stop_.
  - unfold Soniq.cancel. destruct (Session.recorder (soniq w)) as [r|] eqn:Hr;
      [|done].
    destruct (negb _); [done|]. destruct stop_; cbn [snd].
    + destruct Hc as [_ Hlive]. split; simpl; [done|]. rewrite Hr.
      intros _. apply Hlive. rewrite Hr. by eexists.
    + apply consistent_torn_down, Soniq_cleanup_torn_down.
  - unfold Soniq.ondataavailable. by destruct (Session.isRecording (soniq w)).
  - unfold Soniq.onstop. destruct (negb _); [done|].
    apply consistent_torn_down, Soniq_cleanup_torn_down.
  - apply (consistent_same w); [|done]. apply visualize_soniq.
  - case_decide; [|done].
    unfold Soniq.setVisualizer, bind, modify, gets, ret. simpl.
    destruct (BaseVisualizer_cleanup_frame (Session.visualizer (soniq w)) w)
      as (Hs & _).
    rewrite Hs. destruct (Session.analyser (soniq w)) as [a|] eqn:Ha; simpl.
    + match goal with
      | |- context [BaseVisualizer.setAnalyser P ?v ?a ?w0] =>
        destruct (setAnalyser_frame P v a w0) as (-> & _)
      end. simpl. rewrite Hs. exact Hc.
    + rewrite Hs. exact Hc.
  - apply consistent_torn_down, Soniq_cleanup_torn_down.
Qed.

End session_invariant.

(** In every world a page can reach, whatever the order of the calls and of
    the events: while [isCurrentlyRecording()] is true the session has a
    recorder, and while it has a recorder it also has the stream, the
    context and the analyser node. *)
Theorem recording_implies_live_session (P : Platform) (w : World) :
  reachable P w →
  (Soniq.isCurrentlyRecording w = true → is_Some (Session.recorder (soniq w)))
  ∧ (is_Some (Session.recorder (soniq w)) →
     is_Some (Session.stream (soniq w))
     ∧ is_Some (Session.context (soniq w))
     ∧ is_Some (Session.analyser (soniq w))).
Proof.
  induction 1 as [options c|op w _ IH].
  - split; [done|]. by intros [].
  - by apply exec_consistent.
Qed.

Lemma recording_implies_live_session_witness :
  is_Some (Session.recorder (soniq w_stopping))
  ∧ is_Some (Session.stream (soniq w_stopping)).
Proof.
  destruct (recording_implies_live_session test_platform w_stopping) as [H1 H2].
  - apply reachable_history.
  - assert (is_Some (Session.recorder (soniq w_stopping))) as Hr.
    { apply H1. vm_compute. reflexivity. }
    split; [exact Hr|]. by destruct (H2 Hr) as [Hs _].
Defined.

(** * Further properties of the visualizers *)

(** ** BaseVisualizer *)

(** [setAnalyser] attaches the analyser node before it writes [fftSize] to
    it. When the node accepts the value, the data array is a fresh array of
    zeros, half of [fftSize] long. When the node refuses it, the call
    throws, the data array and the node are as before, but the analyser is
    attached all the same: [visualize] on a canvas with a 2D context
    returns true afterwards. *)
Theorem setAnalyser_attaches_before_it_validates
    (P : Platform) (v a : nat) (w : World) (o : Vis.t) :
  visualizers w !! v = Some o →
  (fftSize_ok P (Vis.fftSize o) = true →
   ∃ w', BaseVisualizer.setAnalyser P v a w = (Ok tt, w')
     ∧ visualizers w' !! v
       = Some (Vis.set_dataArray (replicate (Z.to_nat (Vis.fftSize o / 2)) 0)
                 (Vis.set_analyser (Some a) o))
     ∧ analysers w' !! a = Some (Vis.fftSize o))
  ∧ (fftSize_ok P (Vis.fftSize o) = false →
     ∃ w', BaseVisualizer.setAnalyser P v a w = (Throw "IndexSizeError", w')
       ∧ visualizers w' !! v = Some (Vis.set_analyser (Some a) o)
       ∧ analysers w' = analysers w
       ∧ ∀ c cv, canvases w !! c = Some cv → context2d cv = true →
           (Visualizer.visualize P v (Some c) w').1 = true).
Proof.
  intros Ho. unfold BaseVisualizer.setAnalyser. rewrite Ho. split; intros ->.
  - eexists. split; [reflexivity|]. simpl. rewrite lookup_insert_eq.
    unfold frequencyBinCount. simpl. rewrite !lookup_insert_eq. done.
  - eexists. split; [reflexivity|]. simpl. rewrite lookup_insert_eq.
    split; [done|]. split; [done|]. intros c cv Hcv Hctx.
    pose proof (visualize_spec P v (Some c)
                  (put_visualizer v (Vis.set_analyser (Some a) o) w)) as Hspec.
    assert (BaseVisualizer.can_visualize v (Some c)
              (put_visualizer v (Vis.set_analyser (Some a) o) w) = Some c) as Hcan.
    { apply can_visualize_Some. split; [done|]. split.
      - eexists. simpl. rewrite lookup_insert_eq. split; [done|]. by eexists.
      - by exists cv. }
    rewrite Hcan in Hspec. by destruct Hspec as (w_mid & w' & _ & -> & _).
Qed.

Lemma setAnalyser_attaches_before_it_validates_witness :
  ∃ w', BaseVisualizer.setAnalyser test_platform 1 5 w_odd_fftSize
        = (Throw "IndexSizeError", w')
    ∧ (Visualizer.visualize test_platform 1 (Some 0%nat) w').1 = true.
Proof.
  destruct (setAnalyser_attaches_before_it_validates test_platform 1 5 w_odd_fftSize
              (WaveVisualizer.new (BaseVisualizer.mkOptions None (Some 100))))
    as [_ Hfail].
  - vm_compute. reflexivity.
  - destruct Hfail as (w' & Hw' & _ & _ & Hvis).
    + vm_compute. reflexivity.
    + exists w'. split; [exact Hw'|].
      apply (Hvis 0%nat (mkCanvas 300 150 300 150 true)).
      * vm_compute. reflexivity.
      * reflexivity.
Defined.

(** ** IEEE doubles and [unsigned long] attributes *)

Section doubles.
Local Open Scope Q_scope.

Lemma Qred_integer (z : Z) : Qred (inject_Z z) = inject_Z z.
Proof.
  unfold Qred, inject_Z.
  pose proof (Z.ggcd_gcd z 1) as Hg. pose proof (Z.ggcd_correct_divisors z 1) as Hd.
  destruct (Z.ggcd z 1) as [g [q1 q2]]. simpl in *.
  rewrite Z.gcd_1_r in Hg. subst g. destruct Hd as [H1 H2].
  assert (q1 = z) as -> by lia. assert (q2 = 1%Z) as -> by lia. done.
Qed.

Lemma two_nz : ¬ 2 == 0.
Proof. discriminate. Qed.

Lemma Qpower2_pos (k : Z) : 0 < 2 ^ k.
Proof. apply Qpower_0_lt. reflexivity. Qed.

Lemma Qpower2_succ (k : Z) : 2 ^ (k + 1) == 2 ^ k * 2.
Proof. rewrite Qpower_plus by apply two_nz. reflexivity. Qed.

Lemma Qpower2_Z (k : Z) : (0 ≤ k)%Z → inject_Z (2 ^ k) == 2 ^ k.
Proof. intros Hk. by rewrite Zpower_Qpower. Qed.

Lemma Qpower2_le (j k : Z) : (j ≤ k)%Z → 2 ^ j <= 2 ^ k.
Proof.
  intros Hjk. replace k with (j + (k - j))%Z by lia.
  rewrite Qpower_plus by apply two_nz.
  assert (1 <= 2 ^ (k - j)) as H1.
  { rewrite <- Qpower2_Z by lia. change 1 with (inject_Z 1).
    rewrite <- Zle_Qle. pose proof (Z.pow_pos_nonneg 2 (k - j)). lia. }
  pose proof (Qpower2_pos j). nra.
Qed.


(** [Qlog2] is the exponent of the binade of a positive rational. *)
Lemma Qlog2_spec (q : Q) : 0 < q → 2 ^ Qlog2 q <= q ∧ q < 2 ^ (Qlog2 q + 1).
Proof.
  intros Hq. unfold Qlog2.
  set (n := Qnum q). set (d := Zpos (Qden q)).
  assert (0 < n)%Z as Hn.
  { unfold Qlt in Hq. simpl in Hq. unfold n. lia. }
  assert (0 < d)%Z as Hd by done.
  destruct (Z.log2_spec n Hn) as [Hn1 Hn2].
  destruct (Z.log2_spec d Hd) as [Hd1 Hd2].
  pose proof (Z.log2_nonneg n) as Ha. pose proof (Z.log2_nonneg d) as Hb.
  set (a := Z.log2 n) in *. set (b := Z.log2 d) in *.
  assert (q == inject_Z n / inject_Z d) as Eq.
  { unfold n, d. rewrite <- Qmake_Qdiv. by destruct q. }
  assert (0 < inject_Z d) as Hd0.
  { change 0 with (inject_Z 0). by rewrite <- Zlt_Qlt. }
  assert (inject_Z n < 2 ^ (a + 1)) as Hn2'.
  { rewrite <- Qpower2_Z by lia. rewrite <- Zlt_Qlt. replace (a + 1)%Z with (Z.succ a) by lia. done. }
  assert (2 ^ a <= inject_Z n) as Hn1'.
  { rewrite <- Qpower2_Z by lia. by rewrite <- Zle_Qle. }
  assert (inject_Z d < 2 ^ (b + 1)) as Hd2'.
  { rewrite <- Qpower2_Z by lia. rewrite <- Zlt_Qlt. replace (b + 1)%Z with (Z.succ b) by lia. done. }
  assert (2 ^ b <= inject_Z d) as Hd1'.
  { rewrite <- Qpower2_Z by lia. by rewrite <- Zle_Qle. }
  assert (q * inject_Z d == inject_Z n) as Eq'.
  { rewrite Eq. field. lra. }
  assert (2 ^ (a + 1) == 2 ^ (a - b) * 2 ^ b * 2) as E1.
  { rewrite <- Qpower_plus by apply two_nz. rewrite <- Qpower2_succ.
    by replace (a - b + b + 1)%Z with (a + 1)%Z by lia. }
  assert (2 ^ a * 2 == 2 ^ (a - b - 1 + 1) * 2 ^ b * 2) as E2.
  { replace (a - b - 1 + 1)%Z with (a - b)%Z by lia.
    rewrite <- Qpower_plus by apply two_nz.
    by replace (a - b + b)%Z with a by lia. }
  pose proof (Qpower2_pos (a - b)) as P1.
  pose proof (Qpower2_pos (a - b - 1)) as P2.
  pose proof (Qpower2_pos b) as P3.
  pose proof (Qpower2_succ (a - b - 1)) as E3.
  pose proof (Qpower2_succ (a - b)) as E4.
  pose proof (Qpower2_succ b) as E5.
  destruct (Qle_bool (2 ^ (a - b)) q) eqn:E.
  - apply Qle_bool_iff in E. split; [done|].
    rewrite E4. apply Qnot_le_lt. intros Hle.
    assert (2 ^ (a - b) * 2 * inject_Z d <= q * inject_Z d) by nra.
    assert (2 ^ (a - b) * 2 * 2 ^ b <= 2 ^ (a - b) * 2 * inject_Z d) by nra.
    lra.
  - assert (q < 2 ^ (a - b)) as Hlt.
    { apply Qnot_le_lt. intros Hle. apply Qle_bool_iff in Hle. congruence. }
    split; [|by replace (a - b - 1 + 1)%Z with (a - b)%Z by lia].
    apply Qnot_lt_le. intros Hlt'.
    assert (q * inject_Z d <= 2 ^ (a - b - 1) * inject_Z d) by nra.
    assert (2 ^ (a - b - 1) * inject_Z d < 2 ^ (a - b - 1) * (2 ^ b * 2)) by nra.
    replace (a - b - 1 + 1)%Z with (a - b)%Z in * by lia.
    nra.
Qed.

Lemma Qlog2_unique (q : Q) (k : Z) :
  2 ^ k <= q → q < 2 ^ (k + 1) → Qlog2 q = k.
Proof.
  intros Hlo Hhi.
  assert (0 < q) as Hq by (pose proof (Qpower2_pos k); lra).
  destruct (Qlog2_spec q Hq) as [Hlo' Hhi'].
  destruct (Z.lt_trichotomy (Qlog2 q) k) as [Hlt|[Heq|Hgt]]; [|done|].
  - pose proof (Qpower2_le (Qlog2 q + 1) k ltac:(lia)). lra.
  - pose proof (Qpower2_le (k + 1) (Qlog2 q) ltac:(lia)). lra.
Qed.

Lemma Qlog2_wd (q q' : Q) : 0 < q → q == q' → Qlog2 q = Qlog2 q'.
Proof.
  intros Hq E. destruct (Qlog2_spec q Hq) as [Hlo Hhi].
  symmetry. apply Qlog2_unique; by rewrite <- E.
Qed.

Lemma round_half_even_wd (q q' : Q) :
  q == q' → round_half_even q = round_half_even q'.
Proof.
  intros E. unfold round_half_even.
  rewrite (Qfloor_comp _ _ E).
  assert (q - inject_Z (Qfloor q') == q' - inject_Z (Qfloor q')) as E' by by rewrite E.
  by rewrite (Qcompare_comp _ _ E' _ _ (Qeq_refl (1 # 2))).
Qed.

Lemma round_half_even_integer (z : Z) : round_half_even (inject_Z z) = z.
Proof.
  unfold round_half_even. rewrite Qfloor_Z.
  assert ((inject_Z z - inject_Z z ?= 1 # 2) = Lt) as ->; [|done].
  rewrite <- Qlt_alt. lra.
Qed.

Lemma round_to_wd (prec emin : Z) (q q' : Q) :
  q == q' → round_to prec emin q = round_to prec emin q'.
Proof.
  intros E. unfold round_to.
  assert (Qeq_bool q 0 = Qeq_bool q' 0) as ->.
  { destruct (Qeq_bool q' 0) eqn:E0.
    - apply Qeq_bool_iff. apply Qeq_bool_iff in E0. by rewrite E.
    - destruct (Qeq_bool q 0) eqn:E1; [|done].
      apply Qeq_bool_iff in E1. rewrite E in E1. apply Qeq_bool_iff in E1. congruence. }
  destruct (Qeq_bool q' 0) eqn:E0; [done|].
  assert (¬ q' == 0) as Hnz by (by apply Qeq_bool_neq).
  assert (0 < Qabs q) as Hpos.
  { destruct (Qlt_le_dec q 0) as [Hlt|Hle].
    - rewrite Qabs_neg by lra. lra.
    - rewrite Qabs_pos by done.
      destruct (Qle_lt_or_eq _ _ Hle) as [|E1]; [done|].
      exfalso. apply Hnz. by rewrite <- E, <- E1. }
  assert (Qabs q == Qabs q') as Ea by (by rewrite E).
  rewrite (Qlog2_wd _ _ Hpos Ea).
  set (e := Z.max _ _).
  assert (Qabs q / 2 ^ e == Qabs q' / 2 ^ e) as Em by (by rewrite Ea).
  rewrite (round_half_even_wd _ _ Em).
  assert (Qle_bool 0 q = Qle_bool 0 q') as ->.
  { destruct (Qle_bool 0 q') eqn:E1.
    - apply Qle_bool_iff. apply Qle_bool_iff in E1. by rewrite E.
    - destruct (Qle_bool 0 q) eqn:E2; [|done].
      apply Qle_bool_iff in E2. rewrite E in E2. apply Qle_bool_iff in E2. congruence. }
  done.
Qed.

(** A whole number of fewer than [prec] bits is a floating-point number. *)
Lemma round_to_integer (prec emin z : Z) :
  (0 < prec)%Z → (emin ≤ 0)%Z → (Z.abs z < 2 ^ prec)%Z →
  round_to prec emin (inject_Z z) = inject_Z z.
Proof.
  intros Hprec Hemin Hz. unfold round_to.
  destruct (Qeq_bool (inject_Z z) 0) eqn:E0.
  { apply Qeq_bool_iff in E0. unfold Qeq in E0. simpl in E0.
    assert (z = 0%Z) as -> by lia. reflexivity. }
  assert (z ≠ 0%Z) as Hnz.
  { intros ->. by vm_compute in E0. }
  assert (Qabs (inject_Z z) = inject_Z (Z.abs z)) as -> by done.
  set (e := Z.max _ _).
  assert (e ≤ 0)%Z as He.
  { unfold e. apply Z.max_lub; [|done].
    assert (Qlog2 (inject_Z (Z.abs z)) < prec)%Z; [|lia].
    assert (0 < inject_Z (Z.abs z)) as Hpos.
    { change 0 with (inject_Z 0). rewrite <- Zlt_Qlt. lia. }
    destruct (Qlog2_spec _ Hpos) as [Hlo _].
    destruct (Z.lt_ge_cases (Qlog2 (inject_Z (Z.abs z))) prec) as [|Hge]; [done|].
    exfalso. pose proof (Qpower2_le _ _ Hge) as Hle.
    assert (inject_Z (Z.abs z) < 2 ^ prec).
    { rewrite <- Qpower2_Z by lia. by rewrite <- Zlt_Qlt. }
    lra. }
  assert (2 ^ e * inject_Z (2 ^ (- e)) == 1) as Einv.
  { rewrite Qpower2_Z by lia. rewrite <- Qpower_plus by apply two_nz.
    by replace (e + - e)%Z with 0%Z by lia. }
  pose proof (Qpower2_pos e) as Hpe.
  assert (inject_Z (Z.abs z) / 2 ^ e == inject_Z (Z.abs z * 2 ^ (- e))) as Em.
  { rewrite inject_Z_mult. 
    apply Qmult_inj_r with (2 ^ e); [lra|].
    transitivity (inject_Z (Z.abs z)); [field; lra|].
    rewrite <- Qmult_assoc, (Qmult_comm (inject_Z (2 ^ (- e)))), Einv. ring. }
  rewrite (round_half_even_wd _ _ Em), round_half_even_integer.
  rewrite <- (Qred_integer z) at 2.
  apply Qred_complete.
  rewrite inject_Z_mult.
  destruct (Qle_bool 0 (inject_Z z)) eqn:Es.
  - apply Qle_bool_iff in Es. change 0 with (inject_Z 0) in Es.
    rewrite <- Zle_Qle in Es. rewrite Z.abs_eq by done.
    rewrite <- Qmult_assoc, (Qmult_comm (inject_Z (2 ^ (- e)))), Einv. ring.
  - assert (z < 0)%Z as Hneg.
    { destruct (Z.lt_ge_cases z 0) as [|Hge]; [done|]. exfalso.
      assert (Qle_bool 0 (inject_Z z) = true); [|congruence].
      apply Qle_bool_iff. change 0 with (inject_Z 0). by rewrite <- Zle_Qle. }
    rewrite Z.abs_neq by lia. rewrite inject_Z_opp.
    transitivity (inject_Z z * (2 ^ e * inject_Z (2 ^ (- e)))); [ring|].
    rewrite Einv. ring.
Qed.

Lemma double_integer (q : Q) (z : Z) :
  q == inject_Z z → (Z.abs z < 2 ^ 53)%Z → double q = inject_Z z.
Proof.
  intros E Hz. unfold double. rewrite (round_to_wd _ _ _ _ E).
  by apply round_to_integer.
Qed.

Lemma Qtruncate_integer (z : Z) : Qtruncate (inject_Z z) = z.
Proof.
  unfold Qtruncate. destruct (Qle_bool 0 (inject_Z z)).
  - apply Qfloor_Z.
  - apply Qceiling_Z.
Qed.

Lemma unsigned_long_integer (d n : Z) :
  (0 ≤ n ≤ 2147483647)%Z → unsigned_long d (inject_Z n) = inject_Z n.
Proof.
  intros Hn. unfold unsigned_long. rewrite Qtruncate_integer.
  rewrite Z.mod_small by lia.
  by destruct (Z.leb_spec n 2147483647); [|lia].
Qed.

Lemma unsigned_long_range (d : Z) (q : Q) :
  (0 ≤ d ≤ 2147483647)%Z →
  ∃ n, unsigned_long d q = inject_Z n ∧ (0 ≤ n ≤ 2147483647)%Z.
Proof.
  intros Hd. unfold unsigned_long.
  destruct (Z.leb_spec (Qtruncate q mod 2 ^ 32) 2147483647) as [Hle|Hgt].
  - eexists. split; [done|]. pose proof (Z.mod_pos_bound (Qtruncate q) (2 ^ 32)). lia.
  - by exists d.
Qed.

End doubles.

(** [setupHighDPICanvas] takes [dpr] from [window.devicePixelRatio], or 1
    when that is 0, so [dpr] is never 0, and assigns the CSS size times
    [dpr] to [canvas.width] and [canvas.height], which keep whole numbers
    from 0 to 2^31 - 1 only. When the CSS size and [dpr] are whole numbers
    and the products are at most 2^31 - 1, the bitmap is the CSS size times
    [dpr], and the display size that the draw methods compute,
    [canvas.width / dpr] by [canvas.height / dpr], is the CSS size. *)
Theorem setupHighDPICanvas_bitmap_holds_whole_pixels
    (P : Platform) (v c : nat) (w : World) (o : Vis.t) (cv : Canvas) :
  visualizers w !! v = Some o →
  canvases w !! c = Some cv →
  ∃ o' cv',
    visualizers (BaseVisualizer.setupHighDPICanvas P v c w) !! v = Some o'
    ∧ canvases (BaseVisualizer.setupHighDPICanvas P v c w) !! c = Some cv'
    ∧ ¬ (Vis.dpr o' == 0)%Q
    ∧ (¬ (devicePixelRatio P == 0)%Q → Vis.dpr o' = devicePixelRatio P)
    ∧ ((devicePixelRatio P == 0)%Q → Vis.dpr o' = 1%Q)
    ∧ (∃ n m, width cv' = inject_Z n ∧ height cv' = inject_Z m
              ∧ 0 ≤ n ≤ 2147483647 ∧ 0 ≤ m ≤ 2147483647)
    ∧ rect_width cv' = rect_width cv ∧ rect_height cv' = rect_height cv
    ∧ ∀ a b k,
        (rect_width cv == inject_Z a)%Q → (rect_height cv == inject_Z b)%Q →
        (Vis.dpr o' == inject_Z k)%Q →
        0 ≤ a → 0 ≤ b → 0 < k → a * k ≤ 2147483647 → b * k ≤ 2147483647 →
        width cv' = inject_Z (a * k) ∧ height cv' = inject_Z (b * k)
        ∧ (BaseVisualizer.displayWidth o' c (BaseVisualizer.setupHighDPICanvas P v c w)
           == inject_Z a)%Q
        ∧ (BaseVisualizer.displayHeight o' c (BaseVisualizer.setupHighDPICanvas P v c w)
           == inject_Z b)%Q.
Proof.
  intros Ho Hcv. unfold BaseVisualizer.setupHighDPICanvas. rewrite Ho, Hcv.
  unfold BaseVisualizer.displayWidth, BaseVisualizer.displayHeight. simpl.
  rewrite !lookup_insert_eq. eexists _, _. split; [done|]. split; [done|].
  simpl.
  set (d := if Qeq_bool (devicePixelRatio P) 0 then 1%Q else devicePixelRatio P).
  assert (¬ (d == 0)%Q) as Hnz.
  { unfold d. destruct (Qeq_bool (devicePixelRatio P) 0) eqn:E; [done|].
    by apply Qeq_bool_neq. }
  split_and!; try done.
  - intros Hne. unfold d.
    destruct (Qeq_bool (devicePixelRatio P) 0) eqn:E; [|done].
    by apply Qeq_bool_eq in E.
  - intros Heq. unfold d. by rewrite (Qeq_eq_bool _ _ Heq).
  - destruct (unsigned_long_range 300 (double (rect_width cv * d)))
      as (n & Hn & Hn'); [lia|].
    destruct (unsigned_long_range 150 (double (rect_height cv * d)))
      as (m & Hm & Hm'); [lia|].
    by exists n, m.
  - intros a b k Ha Hb Hk Ha0 Hb0 Hk0 Hak Hbk.
    assert (double (rect_width cv * d) = inject_Z (a * k)) as ->.
    { apply double_integer; [by rewrite Ha, Hk, inject_Z_mult|nia]. }
    assert (double (rect_height cv * d) = inject_Z (b * k)) as ->.
    { apply double_integer; [by rewrite Hb, Hk, inject_Z_mult|nia]. }
    rewrite !unsigned_long_integer by nia.
    assert (0 < inject_Z k)%Q as Hk'.
    { change 0%Q with (inject_Z 0). by rewrite <- Zlt_Qlt. }
    split; [done|]. split; [done|].
    rewrite Hk, !inject_Z_mult. split; field; lra.
Qed.

Lemma setupHighDPICanvas_bitmap_holds_whole_pixels_witness :
  ∃ o' cv',
    visualizers (BaseVisualizer.setupHighDPICanvas test_platform 0 0 w_ready) !! 0%nat
    = Some o'
    ∧ canvases (BaseVisualizer.setupHighDPICanvas test_platform 0 0 w_ready) !! 0%nat
      = Some cv'
    ∧ width cv' = 600%Q ∧ height cv' = 300%Q
    ∧ (BaseVisualizer.displayWidth o' 0
         (BaseVisualizer.setupHighDPICanvas test_platform 0 0 w_ready) == 300)%Q.
Proof.
  destruct (setupHighDPICanvas_bitmap_holds_whole_pixels test_platform 0 0 w_ready
              (Vis.set_dataArray (replicate 32 0)
                 (Vis.set_analyser (Some 5%nat)
                    (BarVisualizer.new (BaseVisualizer.mkOptions None None) None)))
              (mkCanvas 300 150 300 150 true))
    as (o' & cv' & Ho' & Hcv' & _ & Hd & _ & _ & _ & _ & Hwhole).
  - vm_compute. reflexivity.
  - vm_compute. reflexivity.
  - destruct (Hwhole 300 150 2) as (Hw & Hh & Hdw & _); try lia.
    + reflexivity.
    + reflexivity.
    + rewrite Hd; [reflexivity|]. by vm_compute.
    + exists o', cv'. split; [exact Ho'|]. split; [exact Hcv'|].
      split; [exact Hw|]. split; [exact Hh|exact Hdw].
Defined.

(** At a device pixel ratio of 1.25 a canvas of 300 by 150 CSS pixels gets
    a bitmap of 375 by 187: the height of 187.5 is cut to a whole number. *)
Example setupHighDPICanvas_cuts_half_a_pixel :
  canvases
    (BaseVisualizer.setupHighDPICanvas
       (mkPlatform (fftSize_ok test_platform) (5 # 4) (Math_cos test_platform)
          (Math_sin test_platform) (Math_PI test_platform)
          (Math_random test_platform) (byteFrequencyData test_platform))
       0 0 w_ready) !! 0%nat
  = Some (mkCanvas 300 150 375 187 true).
Proof. vm_compute. reflexivity. Qed.

(** ** One call of [updateBars] *)

Section bar_frames.
Context (P : Platform).

Lemma parity_alternates (t : Z) :
  (Z.rem (Z.rem (Z.rem (t + 1) 10 + 1) 10) 2 =? 0)
  = negb (Z.rem (Z.rem (t + 1) 10) 2 =? 0).
Proof.
  pose proof (Z.quot_rem' (t + 1) 10) as E1.
  pose proof (Z.quot_rem' (Z.rem (t + 1) 10 + 1) 10) as E2.
  pose proof (Z.quot_rem' (Z.rem (t + 1) 10) 2) as E3.
  pose proof (Z.quot_rem' (Z.rem (Z.rem (t + 1) 10 + 1) 10) 2) as E4.
  assert (∀ a, -1 ≤ Z.rem a 2 ≤ 1) as Hb.
  { intros a. pose proof (Z.rem_bound_abs a 2). lia. }
  pose proof (Hb (Z.rem (t + 1) 10)) as B1.
  pose proof (Hb (Z.rem (Z.rem (t + 1) 10 + 1) 10)) as B2.
  destruct (Z.eqb_spec (Z.rem (Z.rem (Z.rem (t + 1) 10 + 1) 10) 2) 0) as [H1|H1];
    destruct (Z.eqb_spec (Z.rem (Z.rem (t + 1) 10) 2) 0) as [H2|H2]; simpl;
    try done; exfalso; lia.
Qed.

Lemma updateBars_once v c w o a f :
  visualizers w !! v = Some o → Vis.analyser o = Some a → Vis.strategy o = Bar f →
  ∃ o1 f1,
    visualizers (BarVisualizer.updateBars P v c w) !! v = Some o1
    ∧ Vis.analyser o1 = Some a
    ∧ Vis.strategy o1 = Bar f1
    ∧ frameSkipTracker f1 = Z.rem (frameSkipTracker f + 1) 10
    ∧ bar_barWidth f1 = bar_barWidth f
    ∧ log (BarVisualizer.updateBars P v c w)
      = log w ++ EvRequestAnimationFrame (next_handle w) v c
                 :: (if Z.rem (Z.rem (frameSkipTracker f + 1) 10) 2 =? 0
                     then [EvDraw v c BarFrame] else [])
    ∧ reads (BarVisualizer.updateBars P v c w)
      = (if Z.rem (Z.rem (frameSkipTracker f + 1) 10) 2 =? 0
         then S (reads w) else reads w)
    ∧ next_handle (BarVisualizer.updateBars P v c w) = next_handle w + 1.
Proof.
  intros Ho Ha Hf. unfold BarVisualizer.updateBars. rewrite Ho, Ha, Hf. simpl.
  destruct (Z.rem (Z.rem (frameSkipTracker f + 1) 10) 2 =? 0); simpl;
    rewrite lookup_insert_eq; eexists _, _; split_and!; try done.
  by rewrite <- app_assoc.
Qed.

End bar_frames.

(** ** The animation loop, started and stopped *)

Section loop_started.
Context (P : Platform).

Lemma idle_scheduled v w : idle v w → scheduled v w = [].
Proof.
  unfold idle, scheduled. generalize (pending w) as l.
  induction l as [|[h cb] l IH]; intros Hidle; [done|].
  rewrite filter_cons_False.
  - apply IH. intros h' cb' Hin. apply (Hidle h' cb'). by right.
  - simpl. apply (Hidle h cb). by left.
Qed.


(** With an analyser attached and a canvas that gives a 2D context, each
    [visualize] requests exactly one animation frame. *)
Lemma prepared_lookup v c w o a cv :
  visualizers w !! v = Some o → Vis.analyser o = Some a →
  canvases w !! c = Some cv →
  ∃ o2,
    BaseVisualizer.setupHighDPICanvas P v c (BaseVisualizer.cleanup v w)
    = set_canvases
        (<[c := mkCanvas (rect_width cv) (rect_height cv)
                  (unsigned_long 300
                     (double (rect_width cv * Q_or (Some (devicePixelRatio P)) 1)))
                  (unsigned_long 150
                     (double (rect_height cv * Q_or (Some (devicePixelRatio P)) 1)))
                  (context2d cv)]> (canvases w))
        (put_visualizer v o2 (BaseVisualizer.cleanup v w))
    ∧ Vis.analyser o2 = Some a
    ∧ Vis.strategy o2 = Vis.strategy o
    ∧ next_handle (BaseVisualizer.cleanup v w) = next_handle w.
Proof.
  intros Ho Ha Hcv.
  destruct (BaseVisualizer_cleanup_lookup v v w o Ho)
    as (o1 & Ho1 & Ha1 & _ & _ & Hs1 & _).
  destruct (BaseVisualizer_cleanup_frame v w) as (_ & _ & Hcanv & Hn & _).
  unfold BaseVisualizer.setupHighDPICanvas. rewrite Ho1, Hcanv, Hcv.
  eexists. split; [reflexivity|]. split; [|done].
  cbn [Vis.analyser Vis.set_dpr]. congruence.
Qed.

Lemma updateBars_next_handle v c w o a f :
  visualizers w !! v = Some o → Vis.analyser o = Some a → Vis.strategy o = Bar f →
  next_handle (BarVisualizer.updateBars P v c w) = next_handle w + 1.
Proof.
  intros Ho Ha Hf.
  by destruct (updateBars_once P v c w o a f Ho Ha Hf)
    as (? & ? & _ & _ & _ & _ & _ & _ & _ & ?).
Qed.

Lemma drawWave_next_handle v c w o a :
  visualizers w !! v = Some o → Vis.analyser o = Some a →
  next_handle (WaveVisualizer.drawWave v c w) = next_handle w + 1.
Proof.
  intros Ho Ha. unfold WaveVisualizer.drawWave. rewrite Ho, Ha. done.
Qed.

Lemma drawSpectrum_next_handle v c w o a f :
  visualizers w !! v = Some o → Vis.analyser o = Some a →
  Vis.strategy o = Spectrum f →
  next_handle (SpectrumVisualizer.drawSpectrum P v c w) = next_handle w + 1.
Proof.
  intros Ho Ha Hf. unfold SpectrumVisualizer.drawSpectrum. rewrite Ho, Ha, Hf. done.
Qed.

Lemma animateParticles_next_handle v c w o a f :
  visualizers w !! v = Some o → Vis.analyser o = Some a →
  Vis.strategy o = Particles f →
  next_handle (ParticleVisualizer.animateParticles P v c w) = next_handle w + 1.
Proof.
  intros Ho Ha Hf. unfold ParticleVisualizer.animateParticles.
  rewrite Ho, Ha, Hf. cbv zeta.
  destruct (requestAnimationFrame _ _) as [h w1] eqn:E1.
  assert (next_handle w1 = next_handle w + 1) as Hn1.
  { unfold requestAnimationFrame in E1. by injection E1 as <- <-. }
  destruct (BaseVisualizer.readFrequencyData P _ w1) as [o2 w2] eqn:E2.
  assert (next_handle w2 = next_handle w1) as Hn2.
  { unfold BaseVisualizer.readFrequencyData in E2. by injection E2 as <- <-. }
  destruct (ParticleVisualizer.updateParticles _ _ _ _ _ _ _) as [f3 m].
  cbn [next_handle emit set_log put_visualizer set_visualizers set_randoms].
  congruence.
Qed.

Lemma visualize_next_handle v c w o a cv :
  visualizers w !! v = Some o → Vis.analyser o = Some a →
  canvases w !! c = Some cv → context2d cv = true →
  next_handle (Visualizer.visualize P v (Some c) w).2 = next_handle w + 1.
Proof.
  intros Ho Ha Hcv Hctx. unfold Visualizer.visualize. rewrite Ho.
  assert (BaseVisualizer.can_visualize v (Some c) w = Some c) as Hcan.
  { apply can_visualize_Some. split; [done|].
    split; [exists o; by rewrite Ha|by exists cv]. }
  destruct (prepared_lookup v c w o a cv Ho Ha Hcv) as (o2 & Hprep & Ha2 & Hs2 & Hn).
  destruct (Vis.strategy o) as [f| |f|f] eqn:Hs.
  - unfold BarVisualizer.visualize. rewrite Hcan, Hprep. cbn [snd].
    cbn [visualizers set_canvases put_visualizer set_visualizers].
    rewrite lookup_insert_eq, Hs2.
    erewrite updateBars_next_handle.
    + cbn -[BaseVisualizer.cleanup]. exact (f_equal (λ z, z + 1) Hn).
    + cbn -[BaseVisualizer.cleanup]. apply lookup_insert_eq.
    + exact Ha2.
    + reflexivity.
  - unfold WaveVisualizer.visualize. rewrite Hcan, Hprep. cbn [snd].
    erewrite drawWave_next_handle.
    + cbn -[BaseVisualizer.cleanup]. exact (f_equal (λ z, z + 1) Hn).
    + cbn -[BaseVisualizer.cleanup]. apply lookup_insert_eq.
    + exact Ha2.
  - unfold SpectrumVisualizer.visualize. rewrite Hcan, Hprep. cbn [snd].
    cbn [visualizers set_canvases put_visualizer set_visualizers].
    rewrite lookup_insert_eq, Ha2, Hs2.
    erewrite drawSpectrum_next_handle.
    + cbn -[BaseVisualizer.cleanup]. exact (f_equal (λ z, z + 1) Hn).
    + cbn -[BaseVisualizer.cleanup]. apply lookup_insert_eq.
    + exact Ha2.
    + reflexivity.
  - unfold ParticleVisualizer.visualize. rewrite Hcan, Hprep. cbn [snd].
    cbn [visualizers set_canvases put_visualizer set_visualizers].
    rewrite lookup_insert_eq, Hs2.
    erewrite animateParticles_next_handle.
    + cbn -[BaseVisualizer.cleanup]. exact (f_equal (λ z, z + 1) Hn).
    + cbn -[BaseVisualizer.cleanup]. apply lookup_insert_eq.
    + exact Ha2.
    + reflexivity.
Qed.

(** What [visualize] leaves behind when it returns true. *)
Lemma visualize_schedules v canvas w w' :
  frame_loop_invariant w →
  Visualizer.visualize P v canvas w = (true, w') →
  ∃ c, canvas = Some c
    ∧ scheduled v w' = [(next_handle w, mkCallback v c)]
    ∧ next_handle w' = next_handle w + 1
    ∧ (∀ e, e ∈ pending w' →
         e = (next_handle w, mkCallback v c)
         ∨ (e ∈ pending w ∧ cb_visualizer e.2 ≠ v))
    ∧ (∃ o', visualizers w' !! v = Some o'
             ∧ Vis.animationFrameId o' = Some (next_handle w))
    ∧ soniq w' = soniq w.
Proof.
  intros Hinv Hvis.
  pose proof (visualize_spec P v canvas w) as Hspec.
  destruct (BaseVisualizer.can_visualize v canvas w) as [c|] eqn:Hcan;
    [|congruence].
  destruct Hspec as (w_mid & w'' & Hprep & Hvis' & Hstep).
  rewrite Hvis in Hvis'. injection Hvis' as <-.
  apply can_visualize_Some in Hcan as (-> & (o & Ho & [a Ha]) & (cv & Hcv & Hctx)).
  pose proof (visualize_next_handle v c w o a cv Ho Ha Hcv Hctx) as Hnext.
  rewrite Hvis in Hnext. simpl in Hnext.
  destruct Hprep as (Hp & Hn & Hs & _).
  destruct Hstep as [->|(o' & draws & Hp' & Hn' & Hv' & Hid & Hs' & _)]; [lia|].
  destruct (cleanup_invariant v w Hinv) as [_ Hidle].
  exists c. split; [done|]. rewrite Hn in *.
  assert (idle v w_mid) as Hidle_mid by (eapply idle_same_pending; eauto).
  split_and!.
  - unfold scheduled. rewrite Hp', filter_app.
    fold (scheduled v w_mid). rewrite (idle_scheduled v w_mid Hidle_mid).
    by rewrite filter_cons_True.
  - lia.
  - intros e. rewrite Hp'. intros [Hin|Hin%list_elem_of_singleton]%elem_of_app;
      [right|by left].
    split.
    + rewrite Hp in Hin. by apply BaseVisualizer_cleanup_pending in Hin.
    + destruct e as [h cb]. by apply (Hidle_mid h cb).
  - exists o'. rewrite Hv', lookup_insert_eq. done.
  - by rewrite Hs'.
Qed.

End loop_started.

(** When [visualize(canvas)] returns true in a world a page can reach, the
    visualizer has exactly one animation-frame callback scheduled
    afterwards, the one it just requested and whose handle it holds; the
    callbacks of the other visualizers are the ones that were there; and
    the session is as before. *)
Theorem visualize_true_starts_exactly_one_loop
    (P : Platform) (v : nat) (canvas : option nat) (w w' : World) :
  reachable P w →
  Visualizer.visualize P v canvas w = (true, w') →
  ∃ c, canvas = Some c
    ∧ scheduled v w' = [(next_handle w, mkCallback v c)]
    ∧ (∃ o', visualizers w' !! v = Some o'
             ∧ Vis.animationFrameId o' = Some (next_handle w))
    ∧ (∀ v', v' ≠ v → ∀ e, e ∈ scheduled v' w' → e ∈ scheduled v' w)
    ∧ soniq w' = soniq w.
Proof.
  intros Hreach Hvis.
  destruct (visualize_schedules P v canvas w w' (reachable_invariant P w Hreach) Hvis)
    as (c & -> & Hsched & _ & Hpend & Hid & Hs).
  exists c. split_and!; try done.
  intros v' Hne e [Hv Hin]%list_elem_of_filter.
  apply list_elem_of_filter. split; [done|].
  destruct (Hpend e Hin) as [->|[Hin' _]]; [|done]. simpl in Hv. congruence.
Qed.

Lemma visualize_true_starts_exactly_one_loop_witness :
  ∃ c, Some 0%nat = Some c
    ∧ scheduled 0 w_visualizing = [(next_handle w_ready, mkCallback 0 c)].
Proof.
  destruct (visualize_true_starts_exactly_one_loop test_platform 0 (Some 0%nat)
              w_ready w_visualizing)
    as (c & Hc & Hs & _).
  - apply reachable_history.
  - vm_compute. reflexivity.
  - exists c. split; [exact Hc|exact Hs].
Defined.

(** [destroy()] does not detach the analyser node from the visualizer: if
    [visualize(canvas)] could start the visualizer before [destroy()], it
    still returns true after it and starts the animation loop again, on
    the analyser of the closed context. *)
Theorem visualize_still_starts_after_destroy
    (P : Platform) (canvas : option nat) (w : World) :
  reachable P w →
  (Soniq.visualize P canvas w).1 = true →
  ∃ w', Soniq.visualize P canvas (Soniq.destroy w) = (true, w')
    ∧ length (scheduled (Session.visualizer (soniq w)) w') = 1%nat
    ∧ Session.analyser (soniq w') = None.
Proof.
  intros Hreach Hvis. unfold Soniq.visualize, Soniq.destroy in *.
  destruct (Soniq_cleanup_frame w) as (Hv & _ & _ & Hcanv & _ & Hsv & _).
  rewrite Hsv. set (v := Session.visualizer (soniq w)) in *.
  pose proof (visualize_spec P v canvas w) as Hspec.
  destruct (BaseVisualizer.can_visualize v canvas w) as [c|] eqn:Hcan.
  2:{ rewrite Hspec in Hvis. done. }
  clear Hspec.
  apply can_visualize_Some in Hcan as (-> & (o & Ho & Ha) & (cv & Hcv & Hctx)).
  destruct (BaseVisualizer_cleanup_lookup v v w o Ho)
    as (o1 & Ho1 & Ha1 & _).
  assert (BaseVisualizer.can_visualize v (Some c) (Soniq.cleanup w) = Some c) as Hcan.
  { apply can_visualize_Some. split; [done|]. split.
    - exists o1. rewrite Hv. split; [done|]. by rewrite Ha1.
    - exists cv. by rewrite Hcanv. }
  pose proof (visualize_spec P v (Some c) (Soniq.cleanup w)) as Hspec.
  rewrite Hcan in Hspec. destruct Hspec as (w_mid & w' & _ & Hvis' & _).
  exists w'. split; [done|].
  assert (frame_loop_invariant (Soniq.cleanup w)) as Hinv
    by by apply Soniq_cleanup_invariant, (reachable_invariant P).
  destruct (visualize_schedules P v (Some c) _ w' Hinv Hvis')
    as (c' & _ & -> & _ & _ & _ & ->).
  split; [done|]. by destruct (Soniq_cleanup_torn_down w) as (_ & _ & -> & _).
Qed.

Lemma visualize_still_starts_after_destroy_witness :
  ∃ w', Soniq.visualize test_platform (Some 0%nat) (Soniq.destroy w_ready) = (true, w')
    ∧ length (scheduled (Session.visualizer (soniq w_ready)) w') = 1%nat.
Proof.
  destruct (visualize_still_starts_after_destroy test_platform (Some 0%nat) w_ready)
    as (w' & Hw' & Hs & _).
  - apply reachable_history.
  - vm_compute. reflexivity.
  - exists w'. split; [exact Hw'|exact Hs].
Defined.

Section loop_stopped.
Context (P : Platform).

(** A callback of another visualizer leaves an idle visualizer idle, draws
    nothing for it and does not write to it. *)
Lemma run_callback_idle v h w :
  idle v w →
  idle v (run_callback P h w)
  ∧ frames_drawn v (log (run_callback P h w)) = frames_drawn v (log w)
  ∧ visualizers (run_callback P h w) !! v = visualizers w !! v.
Proof.
  intros Hidle. unfold run_callback.
  destruct (list_find _ _) as [[i [h' cb]]|] eqn:Hfind; [|done].
  apply list_find_Some in Hfind as (Hi & Heq & _). simpl in Heq. subst h'.
  apply list_elem_of_lookup_2 in Hi.
  pose proof (Hidle h cb Hi) as Hne.
  set (w_rem := set_pending (filter (λ e, e.1 ≠ h) (pending w)) w).
  assert (idle v w_rem) as Hidle'.
  { intros h' cb' [_ Hin]%list_elem_of_filter. by apply (Hidle h' cb'). }
  destruct (invoke_step P cb w_rem) as [->|Hstep]; [done|].
  destruct Hstep as (o' & draws & Hp & _ & Hv & _ & _ & Hlog & Hdraws).
  split_and!.
  - intros h' cb'. rewrite Hp.
    intros [Hin|Hin%list_elem_of_singleton]%elem_of_app.
    + by apply (Hidle' h' cb').
    + by injection Hin as -> ->.
  - rewrite Hlog, frames_drawn_app. simpl log.
    change (EvRequestAnimationFrame (next_handle w_rem) (cb_visualizer cb)
              (cb_canvas cb) :: draws)
      with ([EvRequestAnimationFrame (next_handle w_rem) (cb_visualizer cb)
               (cb_canvas cb)] ++ draws).
    rewrite frames_drawn_app.
    assert (frames_drawn v draws = 0%nat) as ->.
    { destruct Hdraws as [->|[op ->]]; [done|by apply frames_drawn_other]. }
    unfold frames_drawn at 2. simpl. lia.
  - rewrite Hv. by rewrite lookup_insert_ne.
Qed.

Lemma run_frame_idle v w :
  idle v w →
  idle v (run_frame P w)
  ∧ frames_drawn v (log (run_frame P w)) = frames_drawn v (log w)
  ∧ visualizers (run_frame P w) !! v = visualizers w !! v.
Proof.
  unfold run_frame. generalize (pending w).*1 as hs. intros hs. revert w.
  induction hs as [|h hs IH]; intros w Hidle; simpl; [done|].
  destruct (run_callback_idle v h w Hidle) as (Hidle' & Hf & Hv).
  destruct (IH _ Hidle') as (Hidle'' & Hf' & Hv').
  split_and!; [done|congruence..].
Qed.

Lemma frames_idle v k w :
  idle v w →
  idle v (frames P k w)
  ∧ frames_drawn v (log (frames P k w)) = frames_drawn v (log w)
  ∧ visualizers (frames P k w) !! v = visualizers w !! v.
Proof.
  intros Hidle. induction k as [|k (Hi & Hf & Hv)]; [done|].
  unfold frames in *. simpl.
  destruct (run_frame_idle v _ Hi) as (Hi' & Hf' & Hv').
  split_and!; [done|congruence..].
Qed.

End loop_stopped.

(** [cleanup()] of a visualizer stops its animation loop for good: in a
    world a page can reach, after [cleanup()] the visualizer has no
    callback scheduled, a second [cleanup()] changes nothing and cancels
    nothing, and however many display frames pass, with other visualizers
    running or not, the visualizer draws no frame, stays unscheduled and
    is not written to. *)
Theorem cleanup_stops_the_loop_for_good
    (P : Platform) (v : nat) (w : World) (k : nat) :
  reachable P w →
  scheduled v (BaseVisualizer.cleanup v w) = []
  ∧ BaseVisualizer.cleanup v (BaseVisualizer.cleanup v w)
    = BaseVisualizer.cleanup v w
  ∧ scheduled v (frames P k (BaseVisualizer.cleanup v w)) = []
  ∧ frames_drawn v (log (frames P k (BaseVisualizer.cleanup v w)))
    = frames_drawn v (log (BaseVisualizer.cleanup v w))
  ∧ visualizers (frames P k (BaseVisualizer.cleanup v w)) !! v
    = visualizers (BaseVisualizer.cleanup v w) !! v.
Proof.
  intros Hreach.
  destruct (cleanup_invariant v w (reachable_invariant P w Hreach)) as [_ Hidle].
  destruct (frames_idle P v k _ Hidle) as (Hi & Hf & Hv).
  split_and!; try done.
  - by apply idle_scheduled.
  - apply BaseVisualizer_cleanup_twice.
  - by apply idle_scheduled.
Qed.

Lemma cleanup_stops_the_loop_for_good_witness :
  scheduled 0 (BaseVisualizer.cleanup 0 w_visualizing) = []
  ∧ frames_drawn 0 (log (frames test_platform 3 (BaseVisualizer.cleanup 0 w_visualizing)))
    = frames_drawn 0 (log (BaseVisualizer.cleanup 0 w_visualizing)).
Proof.
  destruct (cleanup_stops_the_loop_for_good test_platform 0 w_visualizing 3)
    as (H1 & _ & _ & H2 & _).
  - apply reachable_history.
  - split; [exact H1|exact H2].
Defined.

(** ** BarVisualizer *)

(** The bar visualizer draws on every second animation frame: of two
    consecutive calls of [updateBars], exactly one reads the frequency
    data and draws a bar, and both request the next frame. *)
Theorem bar_visualizer_draws_every_second_frame
    (P : Platform) (v c : nat) (w : World) (o : Vis.t) (a : nat) (f : BarFields) :
  visualizers w !! v = Some o →
  Vis.analyser o = Some a →
  Vis.strategy o = Bar f →
  frames_drawn v
    (log (BarVisualizer.updateBars P v c (BarVisualizer.updateBars P v c w)))
  = (frames_drawn v (log w) + 1)%nat
  ∧ reads (BarVisualizer.updateBars P v c (BarVisualizer.updateBars P v c w))
    = S (reads w)
  ∧ next_handle (BarVisualizer.updateBars P v c (BarVisualizer.updateBars P v c w))
    = next_handle w + 2.
Proof.
  intros Ho Ha Hf.
  pose proof (parity_alternates (frameSkipTracker f)) as Hpar.
  destruct (updateBars_once P v c w o a f Ho Ha Hf)
    as (o1 & f1 & Ho1 & Ha1 & Hf1 & Ht1 & _ & Hl1 & Hr1 & Hn1).
  destruct (updateBars_once P v c _ o1 a f1 Ho1 Ha1 Hf1)
    as (o2 & f2 & _ & _ & _ & _ & _ & Hl2 & Hr2 & Hn2).
  rewrite Hl2, Hr2, Hn2, Hl1, Hr1, Hn1, Ht1, Hpar.
  assert (∀ e, frames_drawn v [EvRequestAnimationFrame e v c] = 0%nat) as Hraf by done.
  assert (frames_drawn v [EvDraw v c BarFrame] = 1%nat) as Hdraw.
  { unfold frames_drawn. simpl. rewrite filter_cons_True; [done|].
    simpl. by rewrite bool_decide_eq_true_2. }
  destruct (Z.rem (Z.rem (frameSkipTracker f + 1) 10) 2 =? 0); simpl;
    (split_and!; [|done|lia]).
  - change (frames_drawn v
              ((log w ++ [EvRequestAnimationFrame (next_handle w) v c]
                         ++ [EvDraw v c BarFrame])
               ++ [EvRequestAnimationFrame (next_handle w + 1) v c])
            = (frames_drawn v (log w) + 1)%nat).
    rewrite !frames_drawn_app, !Hraf, Hdraw. lia.
  - change (frames_drawn v
              ((log w ++ [EvRequestAnimationFrame (next_handle w) v c])
               ++ [EvRequestAnimationFrame (next_handle w + 1) v c]
                  ++ [EvDraw v c BarFrame])
            = (frames_drawn v (log w) + 1)%nat).
    rewrite !frames_drawn_app, !Hraf, Hdraw. lia.
Qed.

Lemma bar_visualizer_draws_every_second_frame_witness :
  frames_drawn 0
    (log (BarVisualizer.updateBars test_platform 0 0
            (BarVisualizer.updateBars test_platform 0 0 w_ready)))
  = (frames_drawn 0 (log w_ready) + 1)%nat.
Proof.
  destruct (bar_visualizer_draws_every_second_frame test_platform 0 0 w_ready
              (Vis.set_dataArray (replicate 32 0)
                 (Vis.set_analyser (Some 5%nat)
                    (BarVisualizer.new (BaseVisualizer.mkOptions None None) None)))
              5%nat (mkBar 0 0 2))
    as (H & _).
  - vm_compute. reflexivity.
  - reflexivity.
  - reflexivity.
  - exact H.
Defined.

(** With a bar width that is not negative, the bar visualizer keeps its
    drawing position on the canvas: if [xPosition] is not negative and is 0
    or less than the display width, then so it is after [updateBars].
    The width of the bars and the display width are not changed. *)
Theorem bar_position_stays_on_canvas
    (P : Platform) (v c : nat) (w : World) (o : Vis.t) (a : nat) (f : BarFields) :
  visualizers w !! v = Some o →
  Vis.analyser o = Some a →
  Vis.strategy o = Bar f →
  (0 <= bar_barWidth f)%Q →
  (0 <= xPosition f)%Q →
  (xPosition f == 0 ∨ xPosition f < BaseVisualizer.displayWidth o c w)%Q →
  ∃ o1 f1,
    visualizers (BarVisualizer.updateBars P v c w) !! v = Some o1
    ∧ Vis.strategy o1 = Bar f1
    ∧ bar_barWidth f1 = bar_barWidth f
    ∧ (0 <= xPosition f1)%Q
    ∧ (xPosition f1 == 0
       ∨ xPosition f1
         < BaseVisualizer.displayWidth o1 c (BarVisualizer.updateBars P v c w))%Q
    ∧ (BaseVisualizer.displayWidth o1 c (BarVisualizer.updateBars P v c w)
       = BaseVisualizer.displayWidth o c w).
Proof.
  intros Ho Ha Hf Hbw Hx0 Hx.
  unfold BarVisualizer.updateBars. rewrite Ho, Ha, Hf. simpl.
  destruct (Z.rem (Z.rem (frameSkipTracker f + 1) 10) 2 =? 0); simpl;
    rewrite lookup_insert_eq; eexists _, _;
    (split; [reflexivity|]); (split; [reflexivity|]); simpl;
    (split; [reflexivity|]).
  - unfold BaseVisualizer.displayWidth in *. simpl.
    destruct (canvases w !! c) as [cv|]; simpl.
    + destruct (Qle_bool (width cv / Vis.dpr o)
                  (xPosition f + 2 * bar_barWidth f)) eqn:E.
      * split; [done|]. split; [by left|done].
      * split; [lra|]. split; [|done]. right.
        apply Qnot_le_lt. intros Hle. apply Qle_bool_iff in Hle. congruence.
    + destruct (Qle_bool 0 (xPosition f + 2 * bar_barWidth f)) eqn:E.
      * split; [done|]. split; [by left|done].
      * exfalso. assert (0 <= xPosition f + 2 * bar_barWidth f)%Q as Hle by lra.
        apply Qle_bool_iff in Hle. congruence.
  - split; [done|]. split; [|done]. exact Hx.
Qed.

Lemma bar_position_stays_on_canvas_witness :
  ∃ o1 f1,
    visualizers (BarVisualizer.updateBars test_platform 0 0 w_visualizing) !! 0%nat
    = Some o1
    ∧ Vis.strategy o1 = Bar f1
    ∧ (0 <= xPosition f1)%Q
    ∧ (xPosition f1 == 0
       ∨ xPosition f1
         < BaseVisualizer.displayWidth o1 0
             (BarVisualizer.updateBars test_platform 0 0 w_visualizing))%Q
    ∧ log (BarVisualizer.updateBars test_platform 0 0 w_visualizing)
      = log w_visualizing ++ [EvRequestAnimationFrame 2 0 0; EvDraw 0 0 BarFrame].
Proof.
  destruct (bar_position_stays_on_canvas test_platform 0 0 w_visualizing
              (Vis.set_dpr 2
                 (Vis.set_animationFrameId (Some 1)
                    (Vis.set_dataArray (replicate 32 0)
                       (Vis.set_analyser (Some 5%nat)
                          (Vis.set_strategy (Bar (mkBar 0 1 2))
                             (BarVisualizer.new (BaseVisualizer.mkOptions None None)
                                None))))))
              5%nat (mkBar 0 1 2))
    as (o1 & f1 & Ho1 & Hf1 & _ & Hx & Hdw & _).
  - vm_compute. reflexivity.
  - reflexivity.
  - reflexivity.
  - by vm_compute.
  - by vm_compute.
  - left. reflexivity.
  - exists o1, f1. split; [exact Ho1|]. split; [exact Hf1|].
    split; [exact Hx|]. split; [exact Hdw|]. vm_compute. reflexivity.
Defined.

(** ** SpectrumVisualizer: colours *)

Section colours.

Lemma hex_digit_range c d : hex_digit c = Some d → 0 ≤ d ≤ 15.
Proof.
  unfold hex_digit.
  repeat match goal with
         | |- context [if ?b then _ else _] => destruct b eqn:?
         end; intros [= <-]; lia.
Qed.

Lemma is_hex_digit c : is_hex c = true ↔ ∃ d, hex_digit c = Some d.
Proof.
  unfold is_hex. destruct (hex_digit c) as [d|]; split; try done.
  - by exists d.
  - by intros [d ?].
Qed.

Lemma parseInt16_pair c1 c2 d1 d2 :
  hex_digit c1 = Some d1 → hex_digit c2 = Some d2 →
  parseInt16 [c1; c2] = 16 * d1 + d2.
Proof. intros H1 H2. unfold parseInt16. simpl. rewrite H1, H2. simpl. lia. Qed.

Lemma parseInt16_byte c1 c2 :
  is_hex c1 = true → is_hex c2 = true → 0 ≤ parseInt16 [c1; c2] ≤ 255.
Proof.
  intros [d1 H1]%is_hex_digit [d2 H2]%is_hex_digit.
  rewrite (parseInt16_pair c1 c2 d1 d2 H1 H2).
  apply hex_digit_range in H1, H2. lia.
Qed.

Lemma shorthandRegex_Some l r g b :
  shorthandRegex l = Some (r, g, b) ↔
  (l = [r; g; b] ∨ l = ["#"%char; r; g; b])
  ∧ is_hex r = true ∧ is_hex g = true ∧ is_hex b = true.
Proof.
  unfold shorthandRegex. split.
  - destruct l as [|c0 [|c1 [|c2 [|c3 [|c4 l]]]]]; try done.
    + destruct (is_hex c0) eqn:E0, (is_hex c1) eqn:E1, (is_hex c2) eqn:E2;
        try done. simpl. intros [= <- <- <-]. by eauto.
    + destruct (Ascii.eqb_spec c0 "#") as [->|]; [|done].
      destruct (is_hex c1) eqn:E1, (is_hex c2) eqn:E2, (is_hex c3) eqn:E3;
        try done. simpl. intros [= <- <- <-]. by eauto.
  - intros ([->| ->] & -> & -> & ->); done.
Qed.

Lemma hexRegex_Some l x y z :
  hexRegex l = Some (x, y, z) ↔
  ∃ r1 r2 g1 g2 b1 b2,
    (l = [r1; r2; g1; g2; b1; b2] ∨ l = ["#"%char; r1; r2; g1; g2; b1; b2])
    ∧ Forall (λ c, is_hex c = true) [r1; r2; g1; g2; b1; b2]
    ∧ x = [r1; r2] ∧ y = [g1; g2] ∧ z = [b1; b2].
Proof.
  unfold hexRegex. split.
  - destruct l as [|c0 [|c1 [|c2 [|c3 [|c4 [|c5 [|c6 [|c7 l]]]]]]]]; try done.
    + destruct (forallb is_hex [c0; c1; c2; c3; c4; c5]) eqn:E; [|done].
      intros [= <- <- <-]. exists c0, c1, c2, c3, c4, c5.
      split; [by left|]. split; [|done].
      apply Forall_forall. intros c Hc. apply list_elem_of_In in Hc.
      by apply (proj1 (forallb_forall _ _) E).
    + destruct (Ascii.eqb_spec c0 "#") as [->|]; [|done].
      destruct (forallb is_hex [c1; c2; c3; c4; c5; c6]) eqn:E; [|done].
      intros [= <- <- <-]. exists c1, c2, c3, c4, c5, c6.
      split; [by right|]. split; [|done].
      apply Forall_forall. intros c Hc. apply list_elem_of_In in Hc.
      by apply (proj1 (forallb_forall _ _) E).
  - intros (r1 & r2 & g1 & g2 & b1 & b2 & Hl & Hall & -> & -> & ->).
    assert (forallb is_hex [r1; r2; g1; g2; b1; b2] = true) as E.
    { apply forallb_forall. intros c Hc. apply list_elem_of_In in Hc.
      by apply (proj1 (Forall_forall _ _) Hall). }
    destruct Hl as [-> | ->]; simpl in *; by rewrite E.
Qed.


Lemma hexToRgb_bytes hex r g b :
  hexToRgb hex = Some (r, g, b) → 0 ≤ r ≤ 255 ∧ 0 ≤ g ≤ 255 ∧ 0 ≤ b ≤ 255.
Proof.
  unfold hexToRgb.
  set (l := String.list_ascii_of_string hex). clearbody l.
  destruct (shorthandRegex l) as [[[r0 g0] b0]|] eqn:Hs.
  - apply shorthandRegex_Some in Hs as (_ & Er & Eg & Eb).
    simpl. rewrite Er, Eg, Eb. simpl. intros [= <- <- <-].
    split_and!; by apply parseInt16_byte.
  - destruct (hexRegex l) as [[[x y] z]|] eqn:Hh; [|done].
    apply hexRegex_Some in Hh
      as (r1 & r2 & g1 & g2 & b1 & b2 & _ & Hall & -> & -> & ->).
    apply Forall_cons in Hall as [E1 Hall].
    apply Forall_cons in Hall as [E2 Hall].
    apply Forall_cons in Hall as [E3 Hall].
    apply Forall_cons in Hall as [E4 Hall].
    apply Forall_cons in Hall as [E5 Hall].
    apply Forall_cons in Hall as [E6 _].
    intros [= <- <- <-]. split_and!; by apply parseInt16_byte.
Qed.

End colours.

(** [hexToRgb] reads the three-digit form as the six-digit form with each
    digit written twice, with or without the leading ["#"]: a digit [d]
    gives the component [17 * d]. *)
Theorem hexToRgb_shorthand_doubles_each_digit
    (r g b : ascii) (dr dg db : Z) :
  hex_digit r = Some dr → hex_digit g = Some dg → hex_digit b = Some db →
  hexToRgb (String "#" (String r (String g (String b EmptyString))))
  = Some (17 * dr, 17 * dg, 17 * db)
  ∧ hexToRgb (String r (String g (String b EmptyString)))
    = Some (17 * dr, 17 * dg, 17 * db)
  ∧ hexToRgb (String "#" (String r (String r (String g (String g
               (String b (String b EmptyString)))))))
    = Some (17 * dr, 17 * dg, 17 * db)
  ∧ 0 ≤ 17 * dr ≤ 255 ∧ 0 ≤ 17 * dg ≤ 255 ∧ 0 ≤ 17 * db ≤ 255.
Proof.
  intros Hr Hg Hb.
  assert (is_hex r = true ∧ is_hex g = true ∧ is_hex b = true) as (Er & Eg & Eb).
  { rewrite !is_hex_digit. split_and!; by eexists. }
  assert (parseInt16 [r; r] = 17 * dr ∧ parseInt16 [g; g] = 17 * dg
          ∧ parseInt16 [b; b] = 17 * db) as (Pr & Pg & Pb).
  { rewrite (parseInt16_pair r r dr dr), (parseInt16_pair g g dg dg),
      (parseInt16_pair b b db db) by done. lia. }
  apply hex_digit_range in Hr, Hg, Hb.
  unfold hexToRgb. simpl. rewrite Er, Eg, Eb. simpl. rewrite Er, Eg, Eb. simpl.
  rewrite Pr, Pg, Pb. split_and!; try done; lia.
Qed.

Lemma hexToRgb_shorthand_doubles_each_digit_witness :
  hexToRgb "#0fA" = Some (0, 255, 170) ∧ hexToRgb "#00ffAA" = Some (0, 255, 170).
Proof.
  destruct (hexToRgb_shorthand_doubles_each_digit "0" "f" "A" 0 15 10)
    as (H1 & _ & H2 & _); [reflexivity..|].
  split; [exact H1|exact H2].
Defined.

(** [hexToRgb] gives a colour exactly for the strings made of three or of
    six hexadecimal digits, in either case, with or without one leading
    ["#"]; it gives [null] for every other string. Each component it gives
    is between 0 and 255. *)
Theorem hexToRgb_accepts_exactly_hex_colours (hex : string) :
  (is_Some (hexToRgb hex) ↔
     ∃ digits,
       hex_digits digits
       ∧ (length digits = 3 ∨ length digits = 6)%nat
       ∧ (String.list_ascii_of_string hex = digits
          ∨ String.list_ascii_of_string hex = "#"%char :: digits))
  ∧ (∀ r g b, hexToRgb hex = Some (r, g, b) →
       0 ≤ r ≤ 255 ∧ 0 ≤ g ≤ 255 ∧ 0 ≤ b ≤ 255).
Proof.
  split; [|apply hexToRgb_bytes].
  unfold hexToRgb, hex_digits.
  set (l := String.list_ascii_of_string hex). clearbody l. split.
  - intros [rgb Hrgb].
    destruct (shorthandRegex l) as [[[r g] b]|] eqn:Hs.
    + apply shorthandRegex_Some in Hs as (Hl & Er & Eg & Eb).
      exists [r; g; b]. split; [by repeat constructor|]. split; [by left|].
      destruct Hl as [-> | ->]; [by left|by right].
    + destruct (hexRegex l) as [[[x y] z]|] eqn:Hh; [|done].
      apply hexRegex_Some in Hh
        as (r1 & r2 & g1 & g2 & b1 & b2 & Hl & Hall & _).
      exists [r1; r2; g1; g2; b1; b2]. split; [done|]. split; [by right|].
      destruct Hl as [-> | ->]; [by left|by right].
  - intros (digits & Hall & Hlen & Hl).
    destruct Hlen as [Hlen|Hlen].
    + destruct digits as [|r [|g [|b [|? ?]]]]; try done.
      apply Forall_cons in Hall as [Er Hall].
      apply Forall_cons in Hall as [Eg Hall].
      apply Forall_cons in Hall as [Eb _].
      assert (shorthandRegex l = Some (r, g, b)) as ->.
      { apply shorthandRegex_Some. split; [|done].
        destruct Hl as [-> | ->]; [by left|by right]. }
      simpl. rewrite Er, Eg, Eb. simpl. by eexists.
    + destruct digits as [|r1 [|r2 [|g1 [|g2 [|b1 [|b2 [|? ?]]]]]]]; try done.
      assert (hexRegex l = Some ([r1; r2], [g1; g2], [b1; b2])) as Hh.
      { apply hexRegex_Some. exists r1, r2, g1, g2, b1, b2.
        split; [|done]. destruct Hl as [-> | ->]; [by left|by right]. }
      assert (shorthandRegex l = None) as ->.
      { destruct Hl as [-> | ->]; done. }
      rewrite Hh. by eexists.
Qed.

Section interpolation.
Local Open Scope Q_scope.

Lemma Math_round_integer (z : Z) : Math_round (inject_Z z) = z.
Proof.
  unfold Math_round.
  pose proof (Qfloor_le (inject_Z z + (1 # 2))) as Hle.
  pose proof (Qlt_floor (inject_Z z + (1 # 2))) as Hlt.
  set (n := Qfloor (inject_Z z + (1 # 2))) in *.
  assert (inject_Z n < inject_Z (z + 1)) as H1.
  { rewrite inject_Z_plus. change (inject_Z 1) with 1. lra. }
  assert (inject_Z z < inject_Z (n + 1)) as H2 by lra.
  rewrite <- Zlt_Qlt in H1, H2. lia.
Qed.

Lemma Math_round_between (lo hi : Z) (q : Q) :
  inject_Z lo <= q <= inject_Z hi → (lo ≤ Math_round q ≤ hi)%Z.
Proof.
  intros [Hlo Hhi]. unfold Math_round.
  pose proof (Qfloor_le (q + (1 # 2))) as Hle.
  pose proof (Qlt_floor (q + (1 # 2))) as Hlt.
  set (n := Qfloor (q + (1 # 2))) in *.
  assert (inject_Z n < inject_Z (hi + 1)) as H1.
  { rewrite inject_Z_plus. change (inject_Z 1) with 1. lra. }
  assert (inject_Z lo < inject_Z (n + 1)) as H2 by lra.
  rewrite <- Zlt_Qlt in H1, H2. lia.
Qed.

Lemma mix_between (s e : Z) (t : Q) :
  0 <= t <= 1 →
  inject_Z (Z.min s e) <= inject_Z s + t * (inject_Z e - inject_Z s)
  <= inject_Z (Z.max s e).
Proof.
  intros [H0 H1].
  destruct (Z.le_ge_cases s e) as [Hse|Hse].
  - rewrite Z.min_l, Z.max_r by done.
    assert (0 <= inject_Z e - inject_Z s) as Hd.
    { rewrite Zle_Qle in Hse. lra. }
    assert (0 <= t * (inject_Z e - inject_Z s)) by by apply Qmult_le_0_compat.
    assert (0 <= (1 - t) * (inject_Z e - inject_Z s))
      by (apply Qmult_le_0_compat; lra).
    lra.
  - rewrite Z.min_r, Z.max_l by lia.
    assert (0 <= inject_Z s - inject_Z e) as Hd.
    { rewrite Zle_Qle in Hse. lra. }
    assert (0 <= t * (inject_Z s - inject_Z e)) by by apply Qmult_le_0_compat.
    assert (0 <= (1 - t) * (inject_Z s - inject_Z e))
      by (apply Qmult_le_0_compat; lra).
    lra.
Qed.

Lemma mix_component (s e : Z) (t : Q) :
  0 <= t <= 1 →
  (Z.min s e ≤ Math_round (inject_Z s + t * (inject_Z e - inject_Z s)) ≤ Z.max s e)%Z
  ∧ (t == 0 → Math_round (inject_Z s + t * (inject_Z e - inject_Z s)) = s)
  ∧ (t == 1 → Math_round (inject_Z s + t * (inject_Z e - inject_Z s)) = e).
Proof.
  intros Ht. split; [by apply Math_round_between, mix_between|]. split.
  - intros E. etrans; [|apply (Math_round_integer s)].
    unfold Math_round. apply Qfloor_comp. rewrite E. ring.
  - intros E. etrans; [|apply (Math_round_integer e)].
    unfold Math_round. apply Qfloor_comp. rewrite E. ring.
Qed.

End interpolation.

(** [interpolateColor] between two colours that [hexToRgb] accepts, with a
    factor between 0 and 1, gives an [rgb(...)] colour with whole
    components, each between the components of the two ends and so
    between 0 and 255; the factor 0 gives the start colour and the factor
    1 the end colour. *)
Theorem interpolateColor_stays_between_the_ends
    (startColor endColor : string) (factor : Q) (sr sg sb er eg eb : Z) :
  hexToRgb startColor = Some (sr, sg, sb) →
  hexToRgb endColor = Some (er, eg, eb) →
  (0 <= factor <= 1)%Q →
  ∃ r g b : Z,
    interpolateColor startColor endColor factor
    = Rgb (inject_Z r) (inject_Z g) (inject_Z b)
    ∧ Z.min sr er ≤ r ≤ Z.max sr er
    ∧ Z.min sg eg ≤ g ≤ Z.max sg eg
    ∧ Z.min sb eb ≤ b ≤ Z.max sb eb
    ∧ (0 ≤ r ≤ 255 ∧ 0 ≤ g ≤ 255 ∧ 0 ≤ b ≤ 255)
    ∧ ((factor == 0)%Q → (r, g, b) = (sr, sg, sb))
    ∧ ((factor == 1)%Q → (r, g, b) = (er, eg, eb)).
Proof.
  intros Hs He Ht. unfold interpolateColor. rewrite Hs, He.
  destruct (hexToRgb_bytes startColor _ _ _ Hs) as (? & ? & ?).
  destruct (hexToRgb_bytes endColor _ _ _ He) as (? & ? & ?).
  destruct (mix_component sr er factor Ht) as (Hr & Hr0 & Hr1).
  destruct (mix_component sg eg factor Ht) as (Hg & Hg0 & Hg1).
  destruct (mix_component sb eb factor Ht) as (Hb & Hb0 & Hb1).
  eexists _, _, _. split; [reflexivity|].
  split_and!; try done; try lia.
  - intros E. by rewrite Hr0, Hg0, Hb0.
  - intros E. by rewrite Hr1, Hg1, Hb1.
Qed.

Lemma interpolateColor_stays_between_the_ends_witness :
  ∃ r g b : Z,
    interpolateColor "#00FFFF" "#FF00FF" (1 # 2)
    = Rgb (inject_Z r) (inject_Z g) (inject_Z b)
    ∧ 0 ≤ r ≤ 255 ∧ 0 ≤ g ≤ 255 ∧ 0 ≤ b ≤ 255.
Proof.
  destruct (interpolateColor_stays_between_the_ends "#00FFFF" "#FF00FF" (1 # 2)
              0 255 255 255 0 255)
    as (r & g & b & H & _ & _ & _ & (Hr & Hg & Hb) & _).
  - reflexivity.
  - reflexivity.
  - split; by vm_compute.
  - exists r, g, b. split; [exact H|]. split; [exact Hr|]. split; [exact Hg|exact Hb].
Defined.

(** ** SpectrumVisualizer: the bars of a frame *)

Section spectrum_bars.
Local Open Scope Q_scope.

Lemma for_up_collect {A} (g : nat → A) n : ∀ i acc,
  for_up i n (λ j drawn, drawn ++ [g j]) acc = acc ++ (g <$> seq i n).
Proof.
  induction n as [|n IH]; intros i acc; simpl; [by rewrite app_nil_r|].
  rewrite IH, <- app_assoc. done.
Qed.

Lemma for_up_collect_lookup {A} (g : nat → A) n i :
  (i < n)%nat →
  for_up 0 n (λ j drawn, drawn ++ [g j]) [] !! i = Some (g i).
Proof.
  intros Hi. rewrite for_up_collect. simpl.
  rewrite list_lookup_fmap, lookup_seq_lt by done. done.
Qed.

Lemma totalBars_le_length (f : SpectrumFields) (dw : Q) (dataArray : list Z) :
  (totalBars f dw dataArray ≤ Z.of_nat (length dataArray))%Z.
Proof.
  unfold totalBars. destruct (Qeq_bool _ 0); [|lia].
  destruct (Qle_bool dw 0); lia.
Qed.

(** When the number of bars divides the number of magnitudes, no rounding
    takes place: bar [i] reads cell [i * k]. *)
Lemma dataIndex_exact (dataArray : list Z) (n k : Z) (i : nat) :
  (0 < Z.of_nat (length dataArray) < 2 ^ 53)%Z →
  (Z.of_nat (length dataArray) = k * n)%Z → (Z.of_nat i < n)%Z →
  dataIndex dataArray n i = (Z.of_nat i * k)%Z
  ∧ (0 ≤ Z.of_nat i * k < Z.of_nat (length dataArray))%Z.
Proof.
  intros [Hlen0 Hbig] Hk Hi. unfold dataIndex, Math_floor.
  set (len := Z.of_nat (length dataArray)) in *.
  assert (0 < n)%Z as Hn by lia.
  assert (0 < k)%Z as Hk0 by nia.
  assert (0 ≤ Z.of_nat i * k < len)%Z as Hrange by nia.
  assert (k ≤ len)%Z as Hkl by nia.
  assert (0 < inject_Z n) as Hn0.
  { change 0 with (inject_Z 0). by rewrite <- Zlt_Qlt. }
  assert (double (inject_Z len / inject_Z n) = inject_Z k) as ->.
  { apply double_integer; [|lia].
    rewrite Hk, inject_Z_mult. field. lra. }
  assert (double (inject_Z (Z.of_nat i) * inject_Z k)
          = inject_Z (Z.of_nat i * k)) as ->.
  { apply double_integer; [by rewrite inject_Z_mult|nia]. }
  rewrite Qfloor_Z. by split.
Qed.

Lemma bar_height_in_range (value dh : Q) :
  in_byte_range value → 0 <= dh →
  0 <= value / 255 * dh ∧ value / 255 * dh <= dh.
Proof.
  intros [H0 H1] Hdh.
  assert (0 <= value / 255) as Hv0 by (apply Qle_shift_div_l; lra).
  assert (value / 255 <= 1) as Hv1 by (apply Qle_shift_div_r; lra).
  split; [by apply Qmult_le_0_compat|].
  assert (0 <= (1 - value / 255) * dh) by (apply Qmult_le_0_compat; lra).
  lra.
Qed.

End spectrum_bars.

(** [drawSpectrum] draws [totalBars] bars. When that number divides the
    number of magnitudes, which is [k] times as large, bar [i] is drawn
    from cell [i * k] of the smoothed array. With smoothed magnitudes
    between 0 and 255 and a display height that is not negative, the bar
    starts between the top and the bottom edge of the display area and is
    not higher than the display area; it has no height for a magnitude of
    0 and the full height for 255. Its reflection starts at the bottom
    edge, where the display area ends, and is not higher than the bar. *)
Theorem spectrum_bars_sample_the_magnitudes_evenly
    (f : SpectrumFields) (defaultColor : string) (dataArray : list Z)
    (displayWidth displayHeight : Q) (k : Z) (i : nat) :
  (0 <= displayHeight)%Q →
  length (smoothedArray f) = length dataArray →
  Forall in_byte_range (smoothedArray f) →
  Z.of_nat (length dataArray) < 2 ^ 53 →
  Z.of_nat (length dataArray) = k * totalBars f displayWidth dataArray →
  (i < Z.to_nat (totalBars f displayWidth dataArray))%nat →
  length (spectrum_bars f defaultColor dataArray displayWidth displayHeight)
  = Z.to_nat (totalBars f displayWidth dataArray)
  ∧ ∃ bar reflection value,
      spectrum_bars f defaultColor dataArray displayWidth displayHeight !! i
      = Some (Some (bar, reflection))
      ∧ dataIndex dataArray (totalBars f displayWidth dataArray) i = Z.of_nat i * k
      ∧ smoothedArray f !! Z.to_nat (Z.of_nat i * k) = Some value
      ∧ (0 <= at_y bar)%Q ∧ (at_y bar <= displayHeight)%Q
      ∧ (0 <= high bar)%Q ∧ (high bar <= displayHeight)%Q
      ∧ ((value == 0)%Q → (high bar == 0)%Q)
      ∧ ((value == 255)%Q → (high bar == displayHeight)%Q)
      ∧ wide bar = barWidth f
      ∧ at_x reflection = at_x bar
      ∧ at_y reflection = displayHeight
      ∧ wide reflection = barWidth f
      ∧ (0 <= high reflection)%Q ∧ (high reflection <= high bar)%Q.
Proof.
  intros Hdh Hlen Hbytes Hbig Hk Hi.
  set (n := totalBars f displayWidth dataArray) in *.
  split.
  { unfold spectrum_bars. fold n. rewrite for_up_collect. simpl.
    by rewrite length_fmap, length_seq. }
  pose proof (totalBars_le_length f displayWidth dataArray) as Hle. fold n in Hle.
  destruct (dataIndex_exact dataArray n k i ltac:(lia) Hk ltac:(lia))
    as [Hix Hrange].
  destruct (lookup_lt_is_Some_2 (smoothedArray f) (Z.to_nat (Z.of_nat i * k)))
    as [value Hvalue]; [lia|].
  pose proof (proj1 (Forall_lookup _ _) Hbytes _ _ Hvalue) as Hbyte.
  destruct (bar_height_in_range value displayHeight Hbyte Hdh) as [Hh0 Hh1].
  unfold spectrum_bars. fold n.
  rewrite for_up_collect_lookup by done.
  unfold spectrum_bar. rewrite Hix, (proj2 (Z.ltb_ge _ _)) by lia. rewrite Hvalue.
  eexists _, _, value. split; [reflexivity|]. simpl.
  split_and!; try done; try lra.
  - intros ->. field.
  - intros ->. field.
Qed.

Lemma spectrum_bars_sample_the_magnitudes_evenly_witness :
  ∃ bar reflection,
    spectrum_bars (mkSpectrum 4 1 rainbow "#00FFFF" "#FF00FF" [51; 102; 255; 0]%Q)
      "#0071e3" [255; 255; 255; 255] 10 150 !! 1%nat
    = Some (Some (bar, reflection))
    ∧ (high bar == 150)%Q
    ∧ at_y reflection = 150%Q.
Proof.
  destruct (spectrum_bars_sample_the_magnitudes_evenly
              (mkSpectrum 4 1 rainbow "#00FFFF" "#FF00FF" [51; 102; 255; 0]%Q)
              "#0071e3" [255; 255; 255; 255] 10 150 2 1)
    as (_ & bar & reflection & value & H & _ & Hv & _ & _ & _ & _ & _ & Hfull & _
        & _ & Hy & _).
  - by vm_compute.
  - reflexivity.
  - repeat constructor; by vm_compute.
  - by vm_compute.
  - by vm_compute.
  - vm_compute. lia.
  - exists bar, reflection. split; [exact H|]. split; [|exact Hy].
    apply Hfull. vm_compute in Hv. by injection Hv as <-.
Defined.

(** With 128 magnitudes and 98 bars, bar 49 reads cell 63: the quotient
    128 / 98 is rounded down, and 49 times the double is just below 64. *)
Example dataIndex_follows_the_double :
  dataIndex (replicate 128 0%Z) 98 49 = 63
  ∧ Qfloor (49 * (128 / 98)) = 64.
Proof. split; by vm_compute. Qed.

(** A pitch of zero divides by zero: on a display of positive width every
    magnitude gets a bar. *)
Example totalBars_with_no_pitch :
  totalBars (mkSpectrum (-1) 1 rainbow "#00FFFF" "#FF00FF" []) 300 [1; 2; 3]%Z = 3.
Proof. by vm_compute. Qed.

(** ** WaveVisualizer: the path of a frame *)

Section wave.
Local Open Scope Q_scope.





End wave.



(** ** ParticleVisualizer *)

Section particle_pool.
Import ParticleVisualizer.
Context (P : Platform) (W H : Q).
Local Open Scope Q_scope.

Lemma omap_length_le {A B} (g : A → option B) (l : list A) :
  (length (omap g l) ≤ length l)%nat.
Proof.
  induction l as [|a l IH]; csimpl; [done|].
  destruct (g a); csimpl; lia.
Qed.

(** The loop "Add new particles based on intensity": each turn leaves the
    pool alone or, when the pool is below [particleCount], appends one
    particle made by [createParticle]. *)
Lemma spawn_loop (f : ParticleFields) (o : Vis.t) (intensity : Q)
    (body : nat → list Particle * nat → list Particle * nat)
    (Q : Particle → Prop) :
  (∀ j ps n,
     (body j (ps, n)).1 = ps
     ∨ (¬ particleCount f <= inject_Z (Z.of_nat (length ps))
        ∧ ∃ m, (body j (ps, n)).1
               = ps ++ [(createParticle P (with_particles ps f) o W H intensity m).1])) →
  (∀ ps m, Q (createParticle P (with_particles ps f) o W H intensity m).1) →
  ∀ k i ps n,
    Forall Q ps →
    Forall Q (for_up i k body (ps, n)).1
    ∧ (length (for_up i k body (ps, n)).1 ≤ length ps + k)%nat
    ∧ (length (for_up i k body (ps, n)).1
       ≤ length ps `max` Z.to_nat (Qceiling (particleCount f)))%nat.
Proof.
  intros Hbody HQ. induction k as [|k IH]; intros i ps n Hps; simpl.
  - split; [done|]. lia.
  - destruct (body i (ps, n)) as [ps1 n1] eqn:E.
    destruct (Hbody i ps n) as [Hsame|(Hbelow & m & Hpush)];
      rewrite E in *; simpl in *; subst ps1.
    + destruct (IH (S i) ps n1 Hps) as (H1 & H2 & H3). split; [done|]. lia.
    + destruct (IH (S i) (ps ++ [(createParticle P (with_particles ps f) o W H
                                    intensity m).1]) n1)
        as (H1 & H2 & H3).
      { apply Forall_app. split; [done|]. constructor; [apply HQ|done]. }
      rewrite length_app in H2, H3. simpl in H2, H3.
      split; [done|]. split; [lia|].
      assert (Z.of_nat (length ps) < Qceiling (particleCount f))%Z as Hlt.
      { apply Qnot_le_lt in Hbelow.
        pose proof (Qle_ceiling (particleCount f)) as Hc.
        rewrite Zlt_Qlt. lra. }
      lia.
Qed.

Lemma updateParticles_body_spec (f : ParticleFields) (o : Vis.t) (intensity : Q) :
  ∀ (j : nat) (ps : list Particle) (n : nat),
    ((λ (_ : nat) '(ps, n),
        if negb (Qle_bool (particleCount f) (inject_Z (Z.of_nat (length ps))))
        then let '(p, n') := createParticle P (with_particles ps f) o W H intensity n in
             (ps ++ [p], n')
        else (ps, n)) j (ps, n)).1 = ps
    ∨ (¬ particleCount f <= inject_Z (Z.of_nat (length ps))
       ∧ ∃ m,
           ((λ (_ : nat) '(ps, n),
               if negb (Qle_bool (particleCount f) (inject_Z (Z.of_nat (length ps))))
               then let '(p, n') := createParticle P (with_particles ps f) o W H
                                      intensity n in
                    (ps ++ [p], n')
               else (ps, n)) j (ps, n)).1
           = ps ++ [(createParticle P (with_particles ps f) o W H intensity m).1]).
Proof.
  intros j ps n. simpl.
  destruct (Qle_bool (particleCount f) (inject_Z (Z.of_nat (length ps)))) eqn:E;
    simpl; [by left|right].
  split.
  - intros Hle. apply Qle_bool_iff in Hle. congruence.
  - exists n. by destruct (createParticle P (with_particles ps f) o W H intensity n).
Qed.

(** What [updateParticles] does to the pool, for a property [Q] of
    particles. *)
Lemma updateParticles_pool (f : ParticleFields) (o : Vis.t) (intensity : Q) (n : nat)
    (Q : Particle → Prop) :
  (∀ p p', p ∈ particles f → tick P W H p = Some p' → Q p') →
  (∀ ps m, Q (createParticle P (with_particles ps f) o W H intensity m).1) →
  Forall Q (particles (updateParticles P f o W H intensity n).1)
  ∧ (length (particles (updateParticles P f o W H intensity n).1)
     ≤ length (particles f)
       + Z.to_nat (Math_floor (particleCount f * intensity * 0.2)))%nat
  ∧ (length (particles (updateParticles P f o W H intensity n).1)
     ≤ length (particles f) `max` Z.to_nat (Qceiling (particleCount f)))%nat.
Proof.
  intros Hkept Hnew. unfold updateParticles.
  pose proof (update_loop_omap P W H (particles f) []) as Hloop.
  rewrite !app_nil_r in Hloop. rewrite Hloop.
  pose proof (omap_length_le (tick P W H) (particles f)) as Hlen.
  assert (Forall Q (omap (tick P W H) (particles f))) as Hbase.
  { apply Forall_forall. intros p' (p & Hp & Ht)%list_elem_of_omap. by eapply Hkept. }
  destruct (spawn_loop f o intensity _ Q (updateParticles_body_spec f o intensity) Hnew
              (Z.to_nat (Math_floor (particleCount f * intensity * 0.2))) 0%nat
              (omap (tick P W H) (particles f)) n Hbase)
    as (H1 & H2 & H3).
  destruct (for_up _ _ _ _) as [ps' n']. simpl in *.
  split; [done|]. lia.
Qed.

Lemma tick_Some p p' :
  tick P W H p = Some p' →
  p' = advance P p
  ∧ out_of_bounds W H p' = false
  ∧ inject_Z (life p') <= maxLife p'
  ∧ life p' = (life p + 1)%Z ∧ maxLife p' = maxLife p ∧ size p' = size p.
Proof.
  unfold tick.
  destruct (out_of_bounds W H (advance P p)) eqn:E1; [done|].
  destruct (expired (advance P p)) eqn:E2; [done|].
  intros [= <-]. split_and!; try done. by apply expired_false.
Qed.

Lemma createParticle_fields f o intensity n :
  size (createParticle P f o W H intensity n).1
  = particleMinSize f + (particleMaxSize f - particleMinSize f) * intensity
  ∧ life (createParticle P f o W H intensity n).1 = 0%Z
  ∧ ∃ m, (n + 3 ≤ m ≤ n + 5)%nat
         ∧ (createParticle P f o W H intensity n).2 = S m
         ∧ maxLife (createParticle P f o W H intensity n).1
           = particleLifespan f + Math_random P m * particleLifespan f * 0.5.
Proof.
  unfold createParticle. destruct (particle_colorMode f); simpl.
  - split; [done|]. split; [done|]. exists (n + 4)%nat. split; [lia|done].
  - destruct (negb (Qle_bool 0.33 (Math_random P (n + 3)))); simpl.
    + split; [done|]. split; [done|]. exists (n + 4)%nat. split; [lia|done].
    + destruct (negb (Qle_bool 0.66 (Math_random P (n + 4)))); simpl;
        (split; [done|]); (split; [done|]); exists (n + 5)%nat; (split; [lia|done]).
  - split; [done|]. split; [done|]. exists (n + 3)%nat. split; [lia|done].
Qed.

Lemma opacity_range p :
  (0 ≤ life p)%Z → inject_Z (life p) <= maxLife p → 0 < maxLife p →
  0 <= opacity p <= 1.
Proof.
  intros Hl Hle Hm. unfold opacity.
  assert (0 <= inject_Z (life p)) as Hl'.
  { change 0 with (inject_Z 0). by rewrite <- Zle_Qle. }
  assert (0 <= inject_Z (life p) / maxLife p) by (apply Qle_shift_div_l; lra).
  assert (inject_Z (life p) / maxLife p <= 1) by (apply Qle_shift_div_r; lra).
  lra.
Qed.

End particle_pool.

(** [updateParticles] never lets the pool grow beyond [particleCount]: the
    pool after the call is no larger than the larger of the pool before and
    [particleCount] rounded up, and a call adds at most
    [floor(particleCount * intensity * 0.2)] particles. A pool that
    starts empty, as [visualize] leaves it, therefore never holds more
    than [particleCount] particles, rounded up. *)
Theorem particle_pool_never_exceeds_particleCount
    (P : Platform) (W H : Q) (f : ParticleFields) (o : Vis.t)
    (intensity : Q) (n : nat) :
  (length (particles (ParticleVisualizer.updateParticles P f o W H intensity n).1)
   ≤ length (particles f) `max` Z.to_nat (Qceiling (particleCount f)))%nat
  ∧ (length (particles (ParticleVisualizer.updateParticles P f o W H intensity n).1)
     ≤ length (particles f)
       + Z.to_nat (Math_floor (particleCount f * intensity * 0.2)))%nat
  ∧ ((length (particles f) ≤ Z.to_nat (Qceiling (particleCount f)))%nat →
     (length (particles (ParticleVisualizer.updateParticles P f o W H intensity n).1)
      ≤ Z.to_nat (Qceiling (particleCount f)))%nat)
  ∧ particleCount (ParticleVisualizer.updateParticles P f o W H intensity n).1
    = particleCount f.
Proof.
  destruct (updateParticles_pool P W H f o intensity n (λ _, True))
    as (_ & H1 & H2); [done..|].
  split_and!; [done|done|lia|].
  unfold ParticleVisualizer.updateParticles.
  by destruct (for_up _ _ _ _) as [ps' n'].
Qed.


(** The opacity [1 - life / maxLife] with which [drawParticles] draws is
    between 0 and 1 for every particle of the pool, frame after frame: if
    no particle has a negative age and every [maxLife] is positive before
    [updateParticles], then so it is after it, no particle is older than
    its [maxLife], and every opacity is between 0 and 1. This needs a
    positive [particleLifespan] and a [Math.random] that is not
    negative. *)
Theorem particle_opacity_stays_between_0_and_1
    (P : Platform) (W H : Q) (f : ParticleFields) (o : Vis.t)
    (intensity : Q) (n : nat) :
  (∀ k, (0 <= Math_random P k)%Q) →
  (0 < particleLifespan f)%Q →
  Forall (λ p, 0 ≤ life p ∧ (0 < maxLife p)%Q) (particles f) →
  Forall
    (λ p, (0 ≤ life p ∧ (0 < maxLife p)%Q)
          ∧ (inject_Z (life p) <= maxLife p)%Q
          ∧ (0 <= opacity p <= 1)%Q)
    (particles (ParticleVisualizer.updateParticles P f o W H intensity n).1).
Proof.
  intros Hrandom Hspan Hpool.
  apply (updateParticles_pool P W H f o intensity n).
  - intros p p' Hp (_ & _ & Hle & Hl & Hm & _)%tick_Some.
    destruct (proj1 (Forall_forall _ _) Hpool p Hp) as [Hl0 Hm0].
    assert (0 ≤ life p') as Hl' by lia.
    assert (0 < maxLife p')%Q as Hm' by by rewrite Hm.
    split; [done|]. split; [done|]. by apply opacity_range.
  - intros ps m.
    destruct (createParticle_fields P W H (ParticleVisualizer.with_particles ps f)
                o intensity m) as (_ & Hl & k & _ & _ & Hm).
    simpl in Hm.
    assert (0 <= Math_random P k * particleLifespan f)%Q as Hprod.
    { apply Qmult_le_0_compat; [apply Hrandom|lra]. }
    assert (0 < maxLife (ParticleVisualizer.createParticle P
                           (ParticleVisualizer.with_particles ps f) o W H intensity m).1)%Q
      as Hm' by (rewrite Hm; lra).
    assert (inject_Z (life (ParticleVisualizer.createParticle P
                              (ParticleVisualizer.with_particles ps f) o W H
                              intensity m).1)
            <= maxLife (ParticleVisualizer.createParticle P
                          (ParticleVisualizer.with_particles ps f) o W H
                          intensity m).1)%Q as Hle.
    { rewrite Hl. change (inject_Z 0) with 0%Q. lra. }
    split; [by rewrite Hl|]. split; [done|].
    apply opacity_range; [by rewrite Hl|done..].
Qed.

Lemma particle_opacity_stays_between_0_and_1_witness :
  Forall
    (λ p, (0 ≤ life p ∧ (0 < maxLife p)%Q)
          ∧ (inject_Z (life p) <= maxLife p)%Q
          ∧ (0 <= opacity p <= 1)%Q)
    (particles
       (ParticleVisualizer.updateParticles test_platform
          (mkParticles [slow_particle] 100 8 2 100 1 rainbow 0 0 0 0)
          (WaveVisualizer.new (BaseVisualizer.mkOptions None None))
          300 150 (1 # 2) 0).1).
Proof.
  apply (particle_opacity_stays_between_0_and_1 test_platform).
  - intros k. by vm_compute.
  - by vm_compute.
  - repeat constructor; by vm_compute.
Defined.

Section frequency_ranges.
Import ParticleVisualizer.
Local Open Scope Z_scope.

Lemma range_sum_loop (dataArray : list Z) (count : nat) :
  Forall is_byte dataArray →
  ∀ (from : nat) (acc : Z),
    acc ≤ for_up from count (λ i acc, acc + default 0 (dataArray !! i)) acc
        ≤ acc + 255 * Z.of_nat count.
Proof.
  intros Hbytes. induction count as [|count IH]; intros from acc; simpl; [lia|].
  assert (0 ≤ default 0 (dataArray !! from) ≤ 255) as Hd.
  { destruct (dataArray !! from) as [d|] eqn:E; simpl; [|lia].
    by apply (proj1 (Forall_lookup _ _) Hbytes from d). }
  pose proof (IH (S from) (acc + default 0 (dataArray !! from))). lia.
Qed.

Lemma range_sum_bounds (dataArray : list Z) (from count : nat) :
  Forall is_byte dataArray →
  0 ≤ range_sum dataArray from count ≤ 255 * Z.of_nat count.
Proof.
  intros Hbytes. unfold range_sum.
  pose proof (range_sum_loop dataArray count Hbytes from 0). lia.
Qed.

Lemma floor_tenth (len : Z) : Math_floor (inject_Z len * 0.1) = len / 10.
Proof.
  unfold Math_floor. rewrite Zdiv_Qdiv. apply Qfloor_comp.
  change (inject_Z 10) with 10%Q. field.
Qed.

Lemma floor_half (len : Z) : Math_floor (inject_Z len * 0.5) = len / 2.
Proof.
  unfold Math_floor. rewrite Zdiv_Qdiv. apply Qfloor_comp.
  change (inject_Z 2) with 2%Q. field.
Qed.

Lemma normalised (sum count : Z) :
  0 < count → 0 ≤ sum ≤ 255 * count →
  (0 <= inject_Z sum / inject_Z (count * 255) <= 1)%Q.
Proof.
  intros Hc [H0 H1].
  assert (0 < inject_Z (count * 255))%Q as Hpos.
  { change 0%Q with (inject_Z 0). rewrite <- Zlt_Qlt. lia. }
  split.
  - apply Qle_shift_div_l; [done|]. rewrite Qmult_0_l.
    change 0%Q with (inject_Z 0). rewrite <- Zle_Qle. lia.
  - apply Qle_shift_div_r; [done|]. rewrite Qmult_1_l, <- Zle_Qle. lia.
Qed.

End frequency_ranges.

(** [analyzeFrequencyRanges] on at least ten magnitudes that are bytes gives
    a bass, a mid and a treble value between 0 and 1 each: the three ranges
    (the first tenth, up to the first half, and the rest) are not empty
    then, and each value is the mean of its range divided by 255. Nothing
    else of the visualizer is changed. *)
Theorem frequency_ranges_are_between_0_and_1
    (dataArray : list Z) (f : ParticleFields) :
  Forall is_byte dataArray →
  (10 ≤ length dataArray)%nat →
  (0 <= bassValue (ParticleVisualizer.analyzeFrequencyRanges dataArray f) <= 1)%Q
  ∧ (0 <= midValue (ParticleVisualizer.analyzeFrequencyRanges dataArray f) <= 1)%Q
  ∧ (0 <= trebleValue (ParticleVisualizer.analyzeFrequencyRanges dataArray f) <= 1)%Q
  ∧ particles (ParticleVisualizer.analyzeFrequencyRanges dataArray f) = particles f
  ∧ hue (ParticleVisualizer.analyzeFrequencyRanges dataArray f) = hue f
  ∧ particleCount (ParticleVisualizer.analyzeFrequencyRanges dataArray f)
    = particleCount f.
Proof.
  intros Hbytes Hlen. unfold ParticleVisualizer.analyzeFrequencyRanges.
  cbv zeta. cbn [bassValue midValue trebleValue particles hue particleCount].
  rewrite !floor_tenth, !floor_half.
  set (len := Z.of_nat (length dataArray)) in *.
  assert (10 ≤ len) as Hlen' by (unfold len; lia).
  pose proof (range_sum_bounds dataArray 0 (Z.to_nat (len / 10)) Hbytes) as Hb.
  pose proof (range_sum_bounds dataArray (Z.to_nat (len / 10))
                (Z.to_nat (len / 2 - len / 10)) Hbytes) as Hm.
  pose proof (range_sum_bounds dataArray (Z.to_nat (len / 2))
                (Z.to_nat (len - len / 2)) Hbytes) as Ht.
  assert (0 < len / 10 ∧ 0 < len / 2 - len / 10 ∧ 0 < len - len / 2)
    as (H1 & H2 & H3) by (Z.to_euclidean_division_equations; lia).
  split_and!; try done; apply normalised; lia.
Qed.

Lemma frequency_ranges_are_between_0_and_1_witness :
  (0 <= bassValue
          (ParticleVisualizer.analyzeFrequencyRanges (replicate 16 255%Z)
             (mkParticles [] 100 8 2 100 1 rainbow 0 0 0 0)) <= 1)%Q.
Proof.
  destruct (frequency_ranges_are_between_0_and_1 (replicate 16 255)
              (mkParticles [] 100 8 2 100 1 rainbow 0 0 0 0)) as (H & _).
  - repeat constructor; unfold is_byte; lia.
  - simpl. lia.
  - exact H.
Defined.



(** ** Changing the visualizer and starting it *)

(** [setVisualizer(v)] followed by [visualize(canvas)], as the README and
    the React hook do it, moves the animation loop from the old visualizer
    to the new one: in a world a page can reach, with a live analyser, a
    new visualizer whose [fftSize] the analyser accepts, and a canvas that
    gives a 2D context, both calls succeed; afterwards the new visualizer
    has exactly one callback scheduled, the old one has none, and the
    recorder, the chunks, the recording flag, the stream and the context
    are as before. *)
Theorem setVisualizer_then_visualize_moves_the_loop
    (P : Platform) (new_v : nat) (w : World) (o_new : Vis.t)
    (a c : nat) (cv : Canvas) :
  reachable P w →
  visualizers w !! new_v = Some o_new →
  Session.analyser (soniq w) = Some a →
  fftSize_ok P (Vis.fftSize o_new) = true →
  canvases w !! c = Some cv → context2d cv = true →
  ∃ w1 w2,
    Soniq.setVisualizer P new_v w = (Ok tt, w1)
    ∧ Soniq.visualize P (Some c) w1 = (true, w2)
    ∧ scheduled new_v w2 = [(next_handle w, mkCallback new_v c)]
    ∧ (Session.visualizer (soniq w) ≠ new_v →
       scheduled (Session.visualizer (soniq w)) w2 = [])
    ∧ soniq w2 = Session.set_visualizer new_v (soniq w).
Proof.
  intros Hreach Hnew Ha Hfft Hcv Hctx.
  pose proof (reachable_invariant P w Hreach) as Hinv.
  pose proof (setVisualizer_invariant P new_v w Hinv) as Hinv1.
  set (old := Session.visualizer (soniq w)) in *.
  destruct (cleanup_invariant old w Hinv) as [_ Hidle].
  destruct (BaseVisualizer_cleanup_frame old w) as (Hs & _ & Hcanv & Hn & _).
  destruct (BaseVisualizer_cleanup_lookup old new_v w o_new Hnew)
    as (o1 & Ho1 & _ & _ & Hfft1 & _).
  assert (∃ w1, Soniq.setVisualizer P new_v w = (Ok tt, w1)
            ∧ pending w1 = pending (BaseVisualizer.cleanup old w)
            ∧ soniq w1 = Session.set_visualizer new_v (soniq w)
            ∧ next_handle w1 = next_handle w
            ∧ canvases w1 = canvases w
            ∧ ∃ o', visualizers w1 !! new_v = Some o' ∧ Vis.analyser o' = Some a)
    as (w1 & Hset & Hp1 & Hs1 & Hn1 & Hc1 & o' & Ho' & Ha').
  { unfold Soniq.setVisualizer, bind, modify, gets. simpl. fold old.
    rewrite Hs, Ha. unfold BaseVisualizer.setAnalyser. simpl.
    rewrite Ho1, Hfft1, Hfft. simpl.
    eexists. split; [reflexivity|]. simpl. rewrite lookup_insert_eq.
    split_and!; try done; [by rewrite Hs|by eexists]. }
  rewrite Hset in Hinv1. simpl in Hinv1.
  assert (idle old w1) as Hidle1 by (eapply idle_same_pending; eauto).
  assert (BaseVisualizer.can_visualize new_v (Some c) w1 = Some c) as Hcan.
  { apply can_visualize_Some. split; [done|]. split.
    - exists o'. split; [done|]. rewrite Ha'. by eexists.
    - exists cv. by rewrite Hc1. }
  exists w1.
  unfold Soniq.visualize. rewrite Hs1. simpl.
  pose proof (visualize_spec P new_v (Some c) w1) as Hspec. rewrite Hcan in Hspec.
  destruct Hspec as (w_mid & w2 & _ & Hvis & _).
  exists w2. split; [done|]. split; [done|].
  destruct (visualize_schedules P new_v (Some c) w1 w2 Hinv1 Hvis)
    as (c' & [= <-] & Hsched & _ & Hpend & _ & Hs2).
  rewrite Hn1 in Hsched. split; [done|].
  split; [|by rewrite Hs2, Hs1].
  intros Hne. apply idle_scheduled. intros h cb Hin.
  destruct (Hpend (h, cb) Hin) as [[= -> ->]|[Hin1 _]]; [done|].
  by apply (Hidle1 h cb).
Qed.

Lemma setVisualizer_then_visualize_moves_the_loop_witness :
  ∃ w1 w2,
    Soniq.setVisualizer test_platform 1 w_two_visualizers = (Ok tt, w1)
    ∧ Soniq.visualize test_platform (Some 0%nat) w1 = (true, w2)
    ∧ scheduled 1 w2 = [(next_handle w_two_visualizers, mkCallback 1 0)].
Proof.
  destruct (setVisualizer_then_visualize_moves_the_loop test_platform 1
              w_two_visualizers
              (SpectrumVisualizer.new
                 (SpectrumVisualizer.mkOptions (BaseVisualizer.mkOptions None None)
                    None None None None None))
              5 0 (mkCanvas 300 150 600 300 true))
    as (w1 & w2 & H1 & H2 & H3 & _).
  - apply reachable_history.
  - vm_compute. reflexivity.
  - vm_compute. reflexivity.
  - vm_compute. reflexivity.
  - vm_compute. reflexivity.
  - reflexivity.
  - exists w1, w2. split; [exact H1|]. split; [exact H2|exact H3].
Defined.

(** ** The animation loop keeps running *)

Section loop_running.
Context (P : Platform).

Lemma handle_owner (l : list (Z * Callback)) h cb cb' :
  NoDup l.*1 → (h, cb) ∈ l → (h, cb') ∈ l → cb = cb'.
Proof.
  induction l as [|[h0 cb0] l IH]; simpl; intros Hnd H1 H2; [by inversion H1|].
  apply NoDup_cons in Hnd as [Hnotin Hnd].
  apply elem_of_cons in H1 as [E1|H1];
    apply elem_of_cons in H2 as [E2|H2].
  - congruence.
  - injection E1 as -> ->. destruct Hnotin.
    apply list_elem_of_fmap. by exists (h0, cb').
  - injection E2 as -> ->. destruct Hnotin.
    apply list_elem_of_fmap. by exists (h0, cb).
  - by apply IH.
Qed.

Lemma frames_drawn_frame v c op :
  op ≠ DefaultBars → op ≠ Background → frames_drawn v [EvDraw v c op] = 1%nat.
Proof.
  intros H1 H2. unfold frames_drawn. rewrite filter_cons_True; [done|].
  simpl. destruct op; try done; by rewrite bool_decide_eq_true_2.
Qed.

(** One call of a draw method with the analyser attached: what it leaves
    in the visualizer and what it draws. *)
Lemma invoke_once v c w o a :
  visualizers w !! v = Some o → Vis.analyser o = Some a →
  ∃ o1 draws,
    visualizers (invoke P (mkCallback v c) w) !! v = Some o1
    ∧ Vis.analyser o1 = Some a
    ∧ is_bar (Vis.strategy o1) = is_bar (Vis.strategy o)
    ∧ log (invoke P (mkCallback v c) w)
      = log w ++ EvRequestAnimationFrame (next_handle w) v c :: draws
    ∧ (frames_drawn v draws ≤ 1)%nat
    ∧ (is_bar (Vis.strategy o) = false → frames_drawn v draws = 1%nat)
    ∧ next_handle (invoke P (mkCallback v c) w) = next_handle w + 1
    ∧ pending (invoke P (mkCallback v c) w)
      = pending w ++ [(next_handle w, mkCallback v c)].
Proof.
  intros Ho Ha. unfold invoke. simpl. rewrite Ho.
  destruct (Vis.strategy o) as [f| |f|f] eqn:Hf.
  - destruct (updateBars_once P v c w o a f Ho Ha Hf)
      as (o1 & f1 & Ho1 & Ha1 & Hf1 & _ & _ & Hl & _ & Hn).
    exists o1. eexists. split; [done|]. split; [done|].
    split; [by rewrite Hf1|]. split; [exact Hl|].
    split_and!.
    + destruct (_ =? 0); [by rewrite frames_drawn_frame|by apply Nat.le_0_l].
    + simpl. done.
    + done.
    + unfold BarVisualizer.updateBars. rewrite Ho, Ha, Hf. simpl.
      by destruct (negb _).
  - unfold WaveVisualizer.drawWave. rewrite Ho, Ha. simpl.
    rewrite lookup_insert_eq. eexists _, [EvDraw v c WaveFrame].
    split; [done|]. split; [done|]. split; [simpl; by rewrite ?Hf|].
    split; [by rewrite <- app_assoc|].
    rewrite frames_drawn_frame by done. done.
  - unfold SpectrumVisualizer.drawSpectrum. rewrite Ho, Ha, Hf. simpl.
    rewrite lookup_insert_eq. eexists _, [EvDraw v c SpectrumFrame].
    split; [done|]. split; [done|]. split; [done|].
    split; [by rewrite <- app_assoc|].
    rewrite frames_drawn_frame by done. done.
  - unfold ParticleVisualizer.animateParticles. rewrite Ho, Ha, Hf. simpl.
    destruct (ParticleVisualizer.updateParticles _ _ _ _ _ _ _) as [f3 m].
    simpl. rewrite lookup_insert_eq. eexists _, [EvDraw v c ParticleFrame].
    split; [done|]. split; [done|]. split; [done|].
    split; [by rewrite <- app_assoc|].
    rewrite frames_drawn_frame by done. done.
Qed.

(** The callback of another handle leaves the one callback of [v] where it
    is, and [v] as it is. *)
Lemma run_callback_other v h' e w :
  scheduled v w = [e] → e.1 ≠ h' →
  scheduled v (run_callback P h' w) = [e]
  ∧ visualizers (run_callback P h' w) !! v = visualizers w !! v
  ∧ frames_drawn v (log (run_callback P h' w)) = frames_drawn v (log w)
  ∧ next_handle w ≤ next_handle (run_callback P h' w).
Proof.
  intros Hsched Hne. unfold run_callback.
  destruct (list_find _ _) as [[i [h'' cb']]|] eqn:Hfind; [|split_and!; done || lia].
  apply list_find_Some in Hfind as (Hi & Heq & _). simpl in Heq. subst h''.
  apply list_elem_of_lookup_2 in Hi.
  assert (cb_visualizer cb' ≠ v) as Hv.
  { intros Hv. assert ((h', cb') ∈ scheduled v w) as Hin
      by (apply list_elem_of_filter; by split).
    rewrite Hsched in Hin. apply list_elem_of_singleton in Hin. subst e. done. }
  set (w_rem := set_pending (filter (λ e, e.1 ≠ h') (pending w)) w).
  assert (scheduled v w_rem = [e]) as Hsched'.
  { unfold scheduled, w_rem. simpl. rewrite list_filter_filter.
    rewrite (list_filter_iff _ (λ x, x.1 ≠ h' ∧ cb_visualizer x.2 = v))
      by (intros x; tauto).
    rewrite <- list_filter_filter. fold (scheduled v w). rewrite Hsched.
    by rewrite filter_cons_True, filter_nil. }
  destruct (invoke_step P cb' w_rem) as [->|Hstep]; [split_and!; done || lia|].
  destruct Hstep as (o' & draws & Hp & Hn & Hvis & _ & _ & Hlog & Hdraws).
  split_and!.
  - unfold scheduled. rewrite Hp, filter_app. fold (scheduled v w_rem).
    rewrite Hsched', filter_cons_False, filter_nil by done. done.
  - rewrite Hvis. by rewrite lookup_insert_ne.
  - rewrite Hlog, frames_drawn_app. simpl log.
    change (EvRequestAnimationFrame (next_handle w_rem) (cb_visualizer cb')
              (cb_canvas cb') :: draws)
      with ([EvRequestAnimationFrame (next_handle w_rem) (cb_visualizer cb')
               (cb_canvas cb')] ++ draws).
    rewrite frames_drawn_app.
    assert (frames_drawn v draws = 0%nat) as ->.
    { destruct Hdraws as [->|[op ->]]; [done|by apply frames_drawn_other]. }
    unfold frames_drawn at 2. simpl. lia.
  - rewrite Hn. simpl. lia.
Qed.

(** The one callback of [v] draws, and schedules the next one. *)
Lemma run_callback_own v c a h o w :
  NoDup (pending w).*1 →
  scheduled v w = [(h, mkCallback v c)] →
  visualizers w !! v = Some o → Vis.analyser o = Some a →
  ∃ o1,
    scheduled v (run_callback P h w) = [(next_handle w, mkCallback v c)]
    ∧ next_handle (run_callback P h w) = next_handle w + 1
    ∧ visualizers (run_callback P h w) !! v = Some o1
    ∧ Vis.analyser o1 = Some a
    ∧ is_bar (Vis.strategy o1) = is_bar (Vis.strategy o)
    ∧ (frames_drawn v (log (run_callback P h w)) ≤ frames_drawn v (log w) + 1)%nat
    ∧ (is_bar (Vis.strategy o) = false →
       frames_drawn v (log (run_callback P h w)) = (frames_drawn v (log w) + 1)%nat).
Proof.
  intros Hnd Hsched Ho Ha.
  assert ((h, mkCallback v c) ∈ pending w) as Hin.
  { assert ((h, mkCallback v c) ∈ scheduled v w) as Hin
      by (rewrite Hsched; by left).
    by apply list_elem_of_filter in Hin as [_ ?]. }
  unfold run_callback.
  destruct (list_find _ _) as [[i [h'' cb']]|] eqn:Hfind.
  2:{ apply list_find_None in Hfind.
      by destruct (proj1 (Forall_forall _ _) Hfind _ Hin). }
  apply list_find_Some in Hfind as (Hi & Heq & _). simpl in Heq. subst h''.
  apply list_elem_of_lookup_2 in Hi.
  pose proof (handle_owner _ _ _ _ Hnd Hi Hin) as ->.
  set (w_rem := set_pending (filter (λ e, e.1 ≠ h) (pending w)) w).
  assert (scheduled v w_rem = []) as Hsched'.
  { unfold scheduled, w_rem. simpl. rewrite list_filter_filter.
    rewrite (list_filter_iff _ (λ x, x.1 ≠ h ∧ cb_visualizer x.2 = v))
      by (intros x; tauto).
    rewrite <- list_filter_filter. fold (scheduled v w). rewrite Hsched.
    by rewrite filter_cons_False, filter_nil by (simpl; tauto). }
  destruct (invoke_once v c w_rem o a Ho Ha)
    as (o1 & draws & Ho1 & Ha1 & Hb1 & Hl & Hd & Hd1 & Hn & Hp).
  exists o1. split_and!; try done.
  - unfold scheduled. rewrite Hp, filter_app. fold (scheduled v w_rem).
    rewrite Hsched', filter_cons_True, filter_nil by done. done.
  - rewrite Hl, frames_drawn_app. simpl log.
    change (EvRequestAnimationFrame (next_handle w_rem) v c :: draws)
      with ([EvRequestAnimationFrame (next_handle w_rem) v c] ++ draws).
    rewrite frames_drawn_app. unfold frames_drawn at 2. simpl. lia.
  - intros Hbar. rewrite Hl, frames_drawn_app. simpl log.
    change (EvRequestAnimationFrame (next_handle w_rem) v c :: draws)
      with ([EvRequestAnimationFrame (next_handle w_rem) v c] ++ draws).
    rewrite frames_drawn_app, (Hd1 Hbar). unfold frames_drawn at 2. simpl. lia.
Qed.

Lemma run_callbacks_other v e hs :
  ∀ w, frame_loop_invariant w → scheduled v w = [e] → e.1 ∉ hs →
  scheduled v (foldl (λ w h, run_callback P h w) w hs) = [e]
  ∧ visualizers (foldl (λ w h, run_callback P h w) w hs) !! v = visualizers w !! v
  ∧ frames_drawn v (log (foldl (λ w h, run_callback P h w) w hs))
    = frames_drawn v (log w)
  ∧ next_handle w ≤ next_handle (foldl (λ w h, run_callback P h w) w hs)
  ∧ frame_loop_invariant (foldl (λ w h, run_callback P h w) w hs).
Proof.
  induction hs as [|h hs IH]; intros w Hinv Hsched Hnotin; simpl.
  { split_and!; done || lia. }
  apply not_elem_of_cons in Hnotin as [Hne Hnotin].
  destruct (run_callback_other v h e w Hsched Hne) as (H1 & H2 & H3 & H4).
  destruct (IH _ (run_callback_invariant P h w Hinv) H1 Hnotin)
    as (H5 & H6 & H7 & H8 & H9).
  split_and!; try done; try congruence. lia.
Qed.

Lemma run_frame_running v c a bar w :
  frame_loop_invariant w → running v c a bar w →
  running v c a bar (run_frame P w)
  ∧ (frames_drawn v (log (run_frame P w)) ≤ frames_drawn v (log w) + 1)%nat
  ∧ (bar = false →
     frames_drawn v (log (run_frame P w)) = (frames_drawn v (log w) + 1)%nat).
Proof.
  intros Hinv (h & o & Hsched & Ho & Ha & Hbar). unfold run_frame.
  assert ((h, mkCallback v c) ∈ pending w) as Hin.
  { assert ((h, mkCallback v c) ∈ scheduled v w) as Hin
      by (rewrite Hsched; by left).
    by apply list_elem_of_filter in Hin as [_ ?]. }
  assert (h ∈ (pending w).*1) as Hh.
  { apply list_elem_of_fmap. by exists (h, mkCallback v c). }
  assert (∀ h', h' ∈ (pending w).*1 → h' < next_handle w) as Hlt.
  { intros h' [[h'' cb] [-> Hin']]%list_elem_of_fmap.
    destruct Hinv as (_ & _ & Hall). destruct (Hall _ _ Hin') as [Hr _].
    simpl. lia. }
  assert (NoDup (pending w).*1) as Hnd by apply Hinv.
  apply list_elem_of_split in Hh as (hs1 & hs2 & Hhs).
  rewrite Hhs in Hnd, Hlt |- *.
  apply NoDup_app in Hnd as (_ & Hnot1 & Hnd2).
  apply NoDup_cons in Hnd2 as [Hnot2 _].
  rewrite foldl_app. simpl.
  destruct (run_callbacks_other v (h, mkCallback v c) hs1 w Hinv Hsched)
    as (Hs1 & Hv1 & Hf1 & Hn1 & Hinv1).
  { intros Hin1. apply (Hnot1 h Hin1). by left. }
  set (w1 := foldl (λ w h, run_callback P h w) w hs1) in *.
  rewrite <- Hv1 in Ho.
  destruct (run_callback_own v c a h o w1 (proj1 (proj2 Hinv1)) Hs1 Ho Ha)
    as (o2 & Hs2 & Hn2 & Ho2 & Ha2 & Hb2 & Hd2 & Hd2').
  pose proof (run_callback_invariant P h w1 Hinv1) as Hinv2.
  set (w2 := run_callback P h w1) in *.
  destruct (run_callbacks_other v (next_handle w1, mkCallback v c) hs2 w2 Hinv2 Hs2)
    as (Hs3 & Hv3 & Hf3 & Hn3 & Hinv3).
  { simpl. intros Hin2.
    assert (next_handle w1 < next_handle w); [|lia].
    apply Hlt. apply elem_of_app. right. by right. }
  split_and!.
  - exists (next_handle w1), o2. rewrite Hv3. split_and!; try done. congruence.
  - rewrite Hf3. lia.
  - intros ->. rewrite Hf3, Hd2' by congruence. lia.
Qed.

Lemma frames_invariant k w :
  frame_loop_invariant w → frame_loop_invariant (frames P k w).
Proof.
  intros Hinv. induction k as [|k IH]; [done|].
  unfold frames in *. simpl. by apply run_frame_invariant.
Qed.

Lemma frames_running v c a bar k w :
  frame_loop_invariant w → running v c a bar w →
  running v c a bar (frames P k w)
  ∧ (frames_drawn v (log (frames P k w)) ≤ frames_drawn v (log w) + k)%nat
  ∧ (bar = false →
     frames_drawn v (log (frames P k w)) = (frames_drawn v (log w) + k)%nat).
Proof.
  intros Hinv Hrun. induction k as [|k (Hr & Hle & Heq)].
  { split; [done|]. unfold frames. simpl. split; [lia|intros _; lia]. }
  destruct (run_frame_running v c a bar _ (frames_invariant k w Hinv) Hr)
    as (Hr' & Hle' & Heq').
  unfold frames in *. simpl. split; [done|]. split; [lia|].
  intros Hb. rewrite (Heq' Hb), (Heq Hb). lia.
Qed.

End loop_running.

(** Once started, the animation loop keeps running. In a world a page can
    reach in which a visualizer has its one callback scheduled and its
    analyser attached, every display frame runs that callback, which
    schedules the next one: after any number [k] of display frames the
    visualizer still has exactly one callback scheduled, for the same
    canvas, and the same analyser; it has drawn at most [k] frames, and
    exactly [k] if it is a wave, spectrum or particle visualizer. *)
Theorem animation_loop_keeps_running
    (P : Platform) (v c a : nat) (bar : bool) (w : World) (k : nat) :
  reachable P w →
  running v c a bar w →
  running v c a bar (frames P k w)
  ∧ (frames_drawn v (log (frames P k w)) ≤ frames_drawn v (log w) + k)%nat
  ∧ (bar = false →
     frames_drawn v (log (frames P k w)) = (frames_drawn v (log w) + k)%nat).
Proof.
  intros Hreach Hrun.
  by apply frames_running; [apply (reachable_invariant P)|].
Qed.

Lemma animation_loop_keeps_running_witness :
  running 1 0 5 false (frames test_platform 3 w_spectrum_started)
  ∧ frames_drawn 1 (log (frames test_platform 3 w_spectrum_started))
    = (frames_drawn 1 (log w_spectrum_started) + 3)%nat.
Proof.
  destruct (animation_loop_keeps_running test_platform 1 0 5 false
              w_spectrum_started 3) as (H1 & _ & H2).
  - apply reachable_history.
  - eexists _, _. split_and!; vm_compute; reflexivity.
  - split; [exact H1|]. apply H2. reflexivity.
Defined.

(** ** Visualizers do not cancel each other's frames *)

Section owned.
Context (P : Platform).

Lemma filter_ext_in {A} (P1 P2 : A → Prop)
    `{!∀ x, Decision (P1 x)} `{!∀ x, Decision (P2 x)} (l : list A) :
  (∀ x, x ∈ l → (P1 x ↔ P2 x)) → filter P1 l = filter P2 l.
Proof.
  induction l as [|a l IH]; intros Hext; [done|].
  rewrite !filter_cons.
  rewrite IH by (intros x Hx; apply Hext; by right).
  destruct (decide (P1 a)) as [H1|H1]; destruct (decide (P2 a)) as [H2|H2];
    try done; exfalso; [apply H2|apply H1]; apply (Hext a); by left || done.
Qed.

Lemma owned_same w w' :
  visualizers w' = visualizers w → pending w' = pending w →
  next_handle w' = next_handle w →
  handles_owned w → handles_owned w'.
Proof. unfold handles_owned. by intros -> -> ->. Qed.

Lemma owned_put_same v o o' w :
  visualizers w !! v = Some o →
  Vis.animationFrameId o' = Vis.animationFrameId o →
  handles_owned w → handles_owned (put_visualizer v o' w).
Proof.
  intros Ho Hid Hown v' o1 h. simpl.
  destruct (decide (v' = v)) as [->|Hne].
  - rewrite lookup_insert_eq. intros [= <-] Hh. rewrite Hid in Hh.
    by apply (Hown v o h).
  - rewrite lookup_insert_ne by done. apply Hown.
Qed.

Lemma owned_cleanup v w :
  handles_owned w → handles_owned (BaseVisualizer.cleanup v w).
Proof.
  intros Hown. unfold BaseVisualizer.cleanup.
  destruct (visualizers w !! v) as [o|] eqn:Ho; [|done].
  destruct (Vis.animationFrameId o) as [h|] eqn:Hid; [|done].
  destruct (h =? 0); [done|].
  intros v' o1 h1. simpl. destruct (decide (v' = v)) as [->|Hne].
  - rewrite lookup_insert_eq. by intros [= <-].
  - rewrite lookup_insert_ne by done. intros Ho1 Hid1.
    destruct (Hown v' o1 h1 Ho1 Hid1) as [Hlt Hcb]. split; [done|].
    intros cb [_ Hin]%list_elem_of_filter. by apply Hcb.
Qed.

Lemma owned_frame_step v c w w' :
  frame_loop_invariant w → handles_owned w →
  w' = w ∨ frame_step v c w w' → handles_owned w'.
Proof.
  intros (_ & _ & Hall) Hown [->|Hstep]; [done|].
  destruct Hstep as (o' & draws & Hp & Hn & Hv & Hid & _).
  intros v' o1 h1. rewrite Hv, Hp, Hn.
  destruct (decide (v' = v)) as [->|Hne].
  - rewrite lookup_insert_eq. intros [= <-] Hh. rewrite Hid in Hh.
    injection Hh as <-. split; [lia|].
    intros cb [Hin|Hin%list_elem_of_singleton]%elem_of_app.
    + destruct (Hall _ _ Hin) as [Hr _]. lia.
    + by injection Hin as ->.
  - rewrite lookup_insert_ne by done. intros Ho1 Hid1.
    destruct (Hown v' o1 h1 Ho1 Hid1) as [Hlt Hcb]. split; [lia|].
    intros cb [Hin|Hin%list_elem_of_singleton]%elem_of_app; [by apply Hcb|].
    injection Hin as -> _. lia.
Qed.

Lemma owned_run_callback h w :
  frame_loop_invariant w → handles_owned w → handles_owned (run_callback P h w).
Proof.
  intros Hinv Hown. unfold run_callback.
  destruct (list_find _ _) as [[i [h' cb]]|] eqn:Hfind; [|done].
  apply list_find_Some in Hfind as (Hi & Hh & _). simpl in Hh. subst h'.
  apply list_elem_of_lookup_2 in Hi.
  destruct (invariant_remove h cb w Hinv Hi) as [Hinv' _].
  eapply owned_frame_step; [exact Hinv'| |apply invoke_step].
  intros v' o1 h1 Ho1 Hid1. destruct (Hown v' o1 h1 Ho1 Hid1) as [Hlt Hcb].
  split; [done|]. intros cb' [_ Hin]%list_elem_of_filter. by apply Hcb.
Qed.

Lemma owned_run_frame w :
  frame_loop_invariant w → handles_owned w → handles_owned (run_frame P w).
Proof.
  unfold run_frame. generalize (pending w).*1 as hs. intros hs. revert w.
  induction hs as [|h hs IH]; intros w Hinv Hown; simpl; [done|].
  apply IH; [by apply run_callback_invariant|by apply owned_run_callback].
Qed.

Lemma owned_setupHighDPICanvas v c w :
  handles_owned w → handles_owned (BaseVisualizer.setupHighDPICanvas P v c w).
Proof.
  intros Hown. unfold BaseVisualizer.setupHighDPICanvas.
  destruct (visualizers w !! v) as [o|] eqn:Ho; [|done].
  destruct (canvases w !! c) as [cv|]; [|done].
  apply (owned_same
           (put_visualizer v (Vis.set_dpr (Q_or (Some (devicePixelRatio P)) 1) o) w));
    [done..|].
  by apply (owned_put_same v o).
Qed.

Lemma owned_visualize v canvas w :
  frame_loop_invariant w → handles_owned w →
  handles_owned (Visualizer.visualize P v canvas w).2.
Proof.
  intros Hinv Hown. unfold Visualizer.visualize.
  destruct (visualizers w !! v) as [o|]; [|done].
  assert (∀ c,
            frame_loop_invariant
              (BaseVisualizer.setupHighDPICanvas P v c (BaseVisualizer.cleanup v w))
            ∧ idle v
                (BaseVisualizer.setupHighDPICanvas P v c (BaseVisualizer.cleanup v w)))
    as Hq.
  { intros c. apply quiet_setupHighDPICanvas. by apply cleanup_invariant. }
  assert (∀ c,
            handles_owned
              (BaseVisualizer.setupHighDPICanvas P v c (BaseVisualizer.cleanup v w)))
    as Hown2.
  { intros c. by apply owned_setupHighDPICanvas, owned_cleanup. }
  destruct (Vis.strategy o).
  - unfold BarVisualizer.visualize.
    destruct (BaseVisualizer.can_visualize v canvas w) as [c|]; [|done].
    cbn [snd]. specialize (Hq c). specialize (Hown2 c).
    set (w2 := BaseVisualizer.setupHighDPICanvas P v c (BaseVisualizer.cleanup v w))
      in *.
    match goal with
    | |- handles_owned (BarVisualizer.updateBars P v c
                          (BarVisualizer.initializeDefaultBars v c ?w3)) =>
      assert (frame_loop_invariant w3 ∧ handles_owned w3) as [Hi3 Ho3]
    end.
    { destruct (visualizers w2 !! v) as [o2|] eqn:Ho2; [|by split; [apply Hq|]].
      destruct (Vis.strategy o2); try by split; [apply Hq|].
      split; [apply (quiet_put v _ w2 Hq)|by apply (owned_put_same v o2)]. }
    eapply owned_frame_step; [| |apply updateBars_step].
    + eapply invariant_same_loop; [exact Hi3|done..].
    + eapply owned_same; [| | |exact Ho3]; done.
  - unfold WaveVisualizer.visualize.
    destruct (BaseVisualizer.can_visualize v canvas w) as [c|]; [|done].
    cbn [snd].
    eapply owned_frame_step; [apply (Hq c)|exact (Hown2 c)|apply drawWave_step].
  - unfold SpectrumVisualizer.visualize.
    destruct (BaseVisualizer.can_visualize v canvas w) as [c|]; [|done].
    cbn [snd]. specialize (Hq c). specialize (Hown2 c).
    set (w2 := BaseVisualizer.setupHighDPICanvas P v c (BaseVisualizer.cleanup v w))
      in *.
    match goal with
    | |- handles_owned (SpectrumVisualizer.drawSpectrum P v c ?w3) =>
      assert (frame_loop_invariant w3 ∧ handles_owned w3) as [Hi3 Ho3]
    end.
    { destruct (visualizers w2 !! v) as [o2|] eqn:Ho2; [|by split; [apply Hq|]].
      destruct (Vis.analyser o2); [|by split; [apply Hq|]].
      destruct (Vis.strategy o2); try by split; [apply Hq|].
      split; [apply (quiet_put v _ w2 Hq)|by apply (owned_put_same v o2)]. }
    eapply owned_frame_step; [exact Hi3|exact Ho3|apply drawSpectrum_step].
  - unfold ParticleVisualizer.visualize.
    destruct (BaseVisualizer.can_visualize v canvas w) as [c|]; [|done].
    cbn [snd]. specialize (Hq c). specialize (Hown2 c).
    set (w2 := BaseVisualizer.setupHighDPICanvas P v c (BaseVisualizer.cleanup v w))
      in *.
    match goal with
    | |- handles_owned (ParticleVisualizer.animateParticles P v c (emit _ ?w3)) =>
      assert (frame_loop_invariant w3 ∧ handles_owned w3) as [Hi3 Ho3]
    end.
    { destruct (visualizers w2 !! v) as [o2|] eqn:Ho2; [|by split; [apply Hq|]].
      destruct (Vis.strategy o2); try by split; [apply Hq|].
      split; [apply (quiet_put v _ w2 Hq)|by apply (owned_put_same v o2)]. }
    eapply owned_frame_step; [| |apply animateParticles_step].
    + eapply invariant_same_loop; [exact Hi3|done..].
    + eapply owned_same; [| | |exact Ho3]; done.
Qed.

Lemma owned_setAnalyser v a w :
  handles_owned w → handles_owned (BaseVisualizer.setAnalyser P v a w).2.
Proof.
  intros Hown. unfold BaseVisualizer.setAnalyser.
  destruct (visualizers w !! v) as [o|] eqn:Ho; [|done].
  pose proof (owned_put_same v o (Vis.set_analyser (Some a) o) w Ho eq_refl Hown)
    as Hown1.
  destruct (fftSize_ok P (Vis.fftSize o)); [|done]. simpl.
  eapply (owned_put_same v (Vis.set_analyser (Some a) o)); [|done|].
  - simpl. apply lookup_insert_eq.
  - eapply owned_same; [| | |exact Hown1]; done.
Qed.

Lemma owned_Soniq_cleanup w :
  handles_owned w → handles_owned (Soniq.cleanup w).
Proof.
  intros Hown. rewrite Soniq_cleanup_spec.
  eapply owned_same;
    [| | |apply (owned_cleanup (Session.visualizer (soniq w)) w Hown)]; done.
Qed.

Lemma owned_setup_body env :
  ∀ w, handles_owned w → handles_owned (Soniq.setup_body P env w).2.
Proof.
  unfold Soniq.setup_body.
  repeat split_bind;
    intros w Hown;
    first [ by apply lift_sum_preserves
          | by apply lift_opt_preserves
          | by apply owned_setAnalyser
          | exact Hown
          | idtac ].
  - by destruct (Soniq.getUserMedia env).
  - by destruct (fftSize_ok P _).
Qed.

Lemma owned_setVisualizer v :
  ∀ w, handles_owned w → handles_owned (Soniq.setVisualizer P v w).2.
Proof.
  unfold Soniq.setVisualizer.
  repeat split_bind;
    intros w Hown;
    first [ by apply owned_cleanup | exact Hown | idtac ].
  match goal with a : option nat |- _ => destruct a end;
    [by apply owned_setAnalyser|done].
Qed.

Lemma owned_exec op w :
  frame_loop_invariant w → handles_owned w → handles_owned (exec P op w).
Proof.
  intros Hinv Hown. destruct op; simpl.
  - intros v' o1 h1. simpl.
    destruct (decide (v' = fresh (dom (visualizers w)))) as [->|Hne].
    + rewrite lookup_insert_eq. intros [= <-]. by destruct c.
    + rewrite lookup_insert_ne by done. apply Hown.
  - done.
  - by apply owned_setAnalyser.
  - by apply owned_visualize.
  - by apply owned_cleanup.
  - by apply owned_run_frame.
  - unfold Soniq.setup_begin. apply owned_Soniq_cleanup in Hown.
    destruct (Soniq.getUserMedia env); cbn [snd]; [|done..].
    by apply owned_Soniq_cleanup.
  - unfold Soniq.setup_resume.
    pose proof (owned_setup_body env w Hown) as Hb.
    destruct (Soniq.setup_body P env w) as [[[]|e] w']; cbn [snd] in *; [done|].
    by apply owned_Soniq_cleanup.
  - unfold Soniq.record. destruct (Session.recorder _); [|done].
    by destruct start.
  - unfold Soniq.stop. destruct (Session.recorder _); [|done].
    destruct (negb _); [done|]. by destruct stop_.
  - unfold Soniq.cancel. destruct (Session.recorder _); [|done].
    destruct (negb _); [done|]. destruct stop_; cbn [snd]; [done|].
    by apply owned_Soniq_cleanup.
  - unfold Soniq.ondataavailable. by destruct (Session.isRecording _).
  - unfold Soniq.onstop. destruct (negb _); [done|].
    by apply owned_Soniq_cleanup.
  - by apply owned_visualize.
  - case_decide; [|done]. by apply owned_setVisualizer.
  - by apply owned_Soniq_cleanup.
Qed.

Lemma reachable_owned w : reachable P w → handles_owned w.
Proof.
  induction 1 as [options c|op w Hreach IH].
  - intros v o h. simpl. intros Ho Hid. exfalso.
    destruct (decide (v = 0%nat)) as [->|Hne].
    + rewrite lookup_singleton_eq in Ho. injection Ho as <-.
      destruct c as [[]|]; done.
    + by rewrite lookup_singleton_ne in Ho.
  - apply owned_exec; [by apply (reachable_invariant P)|done].
Qed.

Lemma cleanup_keeps_others v v' w :
  handles_owned w → v' ≠ v →
  scheduled v' (BaseVisualizer.cleanup v w) = scheduled v' w
  ∧ visualizers (BaseVisualizer.cleanup v w) !! v' = visualizers w !! v'.
Proof.
  intros Hown Hne. unfold BaseVisualizer.cleanup.
  destruct (visualizers w !! v) as [o|] eqn:Ho; [|done].
  destruct (Vis.animationFrameId o) as [h|] eqn:Hid; [|done].
  destruct (h =? 0); [done|].
  destruct (Hown v o h Ho Hid) as [_ Hcb]. split.
  - unfold scheduled. simpl. rewrite list_filter_filter.
    apply filter_ext_in. intros [h' cb] Hin. simpl. split; [tauto|].
    intros Hv. split; [done|]. intros ->. apply Hne. rewrite <- Hv.
    by apply Hcb.
  - simpl. by rewrite lookup_insert_ne.
Qed.

End owned.

(** Visualizers do not cancel each other's animation frames. In every
    world a page can reach, [cleanup()] of one visualizer leaves the
    scheduled callbacks and the fields of every other visualizer as they
    are, and so do the calls that go through it for the visualizer of the
    session: [destroy()], and [setVisualizer] with a visualizer that
    exists. *)
Theorem cleanup_leaves_other_visualizers_running
    (P : Platform) (v v' : nat) (w : World) :
  reachable P w →
  (v' ≠ v →
   scheduled v' (BaseVisualizer.cleanup v w) = scheduled v' w
   ∧ visualizers (BaseVisualizer.cleanup v w) !! v' = visualizers w !! v')
  ∧ (v' ≠ Session.visualizer (soniq w) →
     scheduled v' (Soniq.destroy w) = scheduled v' w
     ∧ visualizers (Soniq.destroy w) !! v' = visualizers w !! v')
  ∧ (v' ≠ Session.visualizer (soniq w) → v' ≠ v →
     is_Some (visualizers w !! v) →
     scheduled v' (Soniq.setVisualizer P v w).2 = scheduled v' w
     ∧ visualizers (Soniq.setVisualizer P v w).2 !! v' = visualizers w !! v').
Proof.
  intros Hreach. pose proof (reachable_owned P w Hreach) as Hown.
  split; [by apply cleanup_keeps_others|]. split.
  - intros Hne. unfold Soniq.destroy.
    destruct (Soniq_cleanup_frame w) as (Hv & Hp & _).
    destruct (cleanup_keeps_others (Session.visualizer (soniq w)) v' w Hown Hne)
      as [Hs Hl].
    split; [|by rewrite Hv]. unfold scheduled in *. by rewrite Hp.
  - intros Hne Hne' [o Ho].
    destruct (cleanup_keeps_others (Session.visualizer (soniq w)) v' w Hown Hne)
      as [Hs Hl].
    destruct (BaseVisualizer_cleanup_frame (Session.visualizer (soniq w)) w)
      as (Hsq & _).
    destruct (BaseVisualizer_cleanup_lookup (Session.visualizer (soniq w)) v w o Ho)
      as (o1 & Ho1 & _).
    unfold Soniq.setVisualizer, bind, modify, gets. simpl.
    rewrite Hsq. destruct (Session.analyser (soniq w)) as [a|]; [|done].
    unfold BaseVisualizer.setAnalyser. simpl. rewrite Ho1.
    destruct (fftSize_ok P (Vis.fftSize o1)); simpl.
    + split; [exact Hs|]. by rewrite !lookup_insert_ne.
    + split; [exact Hs|]. by rewrite lookup_insert_ne.
Qed.

Lemma cleanup_leaves_other_visualizers_running_witness :
  scheduled 1 (Soniq.destroy w_both_running) = scheduled 1 w_both_running
  ∧ scheduled 1 w_both_running = [(2, mkCallback 1 0)].
Proof.
  destruct (cleanup_leaves_other_visualizers_running test_platform 0 1 w_both_running)
    as (_ & H & _).
  - apply reachable_history.
  - destruct H as [H _]; [vm_compute; lia|].
    split; [exact H|]. vm_compute. reflexivity.
Defined.

(** ** Before [setup()] *)

